(** * Sorbet: the expression tree (ast/Trees.cc) and the class-body
      desugaring pass (dsl/dsl.cc)

    A shallow embedding of the tree of [ast/Trees.cc] with its constructors
    and its two printers ([toString], [showRaw]), and of the rewrite driver
    [DSLReplacer] of [dsl/dsl.cc], followed by the properties of both.

    A pointer is a value: [nullptr], or the address of an object together
    with the members of the object.  Printing can fault; the driver runs in
    a state monad over the global state behind [core::MutableContext], which
    also keeps a record of the calls of the rules so that their order can be
    stated. *)

From stdpp Require Import gmap strings list pretty.

Scheme All for list.

(** ** Faults

    The C++ code has three ways to stop: dereferencing a null pointer,
    indexing a vector out of range, and a failed [ENFORCE]
    ([Exception::enforce_handler] of common/Exception.h, which raises). *)

Inductive fault : Type :=
  | NullDeref
  | OutOfRange
  | EnforceFailed (check : string).

Inductive Res (A : Type) : Type :=
  | Ok (a : A)
  | Fault (f : fault).
Arguments Ok {A} a.
Arguments Fault {A} f.

#[global] Instance Res_ret : MRet Res := fun A a => Ok a.
#[global] Instance Res_bind : MBind Res :=
  fun A B k m => match m with Ok a => k a | Fault f => Fault f end.

(** ** External collaborators

    [core::GlobalState], [core::Loc], [core::SymbolRef], [core::NameRef],
    [core::LocalVariable] and [core::TypePtr] belong to the symbol table and
    the source map.  The tree only holds them and asks them for text, so they
    are the fields of an interface. *)

Inductive TypeKind (SymbolRef : Type) : Type :=
  | IsLiteralType
  | IsClassType (symbol : SymbolRef)
  | IsOtherType.
Arguments IsLiteralType {SymbolRef}.
Arguments IsClassType {SymbolRef} symbol.
Arguments IsOtherType {SymbolRef}.

Class Core : Type := {
  GlobalState : Type;
  Loc : Type;
  SymbolRef : Type;
  NameRef : Type;
  LocalVariable : Type;
  TypePtr : Type;
  SymbolRef_eq_dec :: EqDecision SymbolRef;
  (** [core::Loc::none()] *)
  Loc_none : Loc;
  (** a default-constructed [SymbolRef] (the [symbol] member of a new [Block]) *)
  SymbolRef_default : SymbolRef;
  (** [core::Symbols::todo()], [NilClass()], [FalseClass()], [TrueClass()] *)
  Symbols_todo : SymbolRef;
  Symbols_NilClass : SymbolRef;
  Symbols_FalseClass : SymbolRef;
  Symbols_TrueClass : SymbolRef;
  (** [sym.exists()], [name.exists()] *)
  SymbolRef_exists : SymbolRef -> bool;
  NameRef_exists : NameRef -> bool;
  (** [sym.data(gs)->name] *)
  Symbol_name : GlobalState -> SymbolRef -> NameRef;
  (** [sym.data(gs)->fullName(gs)] *)
  Symbol_fullName : GlobalState -> SymbolRef -> string;
  (** [sym.data(gs)->arguments()] *)
  Symbol_arguments : GlobalState -> SymbolRef -> list SymbolRef;
  Symbol_isBlockArgument : GlobalState -> SymbolRef -> bool;
  Symbol_isRepeated : GlobalState -> SymbolRef -> bool;
  Symbol_isKeyword : GlobalState -> SymbolRef -> bool;
  (** [sym.data(gs)->toString(gs, tabs)] *)
  Symbol_toString : GlobalState -> SymbolRef -> Z -> string;
  (** [name.data(gs)->toString(gs)] *)
  Name_toString : GlobalState -> NameRef -> string;
  (** [name.toString(gs)] *)
  NameRef_toString : GlobalState -> NameRef -> string;
  (** [localVariable.toString(gs)] *)
  LocalVariable_toString : GlobalState -> LocalVariable -> string;
  (** which of [core::LiteralType], [core::ClassType] (with its [symbol])
      or another [core::Type] a type is *)
  Type_kind : TypePtr -> TypeKind SymbolRef;
  (** [l->showValue(gs)] of a [core::LiteralType] *)
  LiteralType_showValue : GlobalState -> TypePtr -> string;
  (** [type->toString(gs, tabs)] *)
  Type_toString : GlobalState -> TypePtr -> Z -> string;
  (** the bits [MethodDef::SelfMethod] and [MethodDef::DSLSynthesized] *)
  SelfMethod : Z;
  DSLSynthesized : Z;
}.

(** ** The node variants *)

Module ast.

Inductive ClassDefKind : Type := Module_ | Class_.

(** [enum VarKind] of [UnresolvedIdent], in the order of the [switch] of
    [UnresolvedIdent::showRaw]. *)
Inductive VarKind : Type := VK_Local | VK_Instance | VK_Class | VK_Global.

(** The classes of the hierarchy.  The base of a class is the one its
    constructor initialises first ([If::If(...) : Expression(loc)],
    [Field::Field(...) : Reference(loc)],
    [ClassDef::ClassDef(...) : Declaration(loc, declLoc, symbol)], ...). *)
Module cls.

Inductive t : Type :=
  | Expression | Reference | Declaration
  | ClassDef | MethodDef | If | While | Break | Retry | Next | Return | Yield
  | RescueCase | Rescue | Field | Local | UnresolvedIdent | Assign | Send
  | Cast | ZSuperArgs | RestArg | KeywordArg | OptionalArg | ShadowArg
  | BlockArg | Literal | UnresolvedConstantLit | ConstantLit | Self | Block
  | Hash | Array | InsSeq | EmptyTree.

#[global] Instance eq_dec : EqDecision t.
Proof. solve_decision. Defined.

Definition base (c : t) : option t :=
  match c with
  | Expression => None
  | Reference | Declaration => Some Expression
  | ClassDef | MethodDef => Some Declaration
  | Field | Local | UnresolvedIdent | RestArg | KeywordArg | OptionalArg
  | ShadowArg | BlockArg => Some Reference
  | If | While | Break | Retry | Next | Return | Yield | RescueCase | Rescue
  | Assign | Send | Cast | ZSuperArgs | Literal | UnresolvedConstantLit
  | ConstantLit | Self | Block | Hash | Array | InsSeq | EmptyTree =>
      Some Expression
  end.

(** [ancestors n c]: [c] and the classes above it, at most [n] steps up. *)
Fixpoint ancestors (n : nat) (c : t) : list t :=
  c :: match n with
       | O => []
       | S n' => match base c with Some b => ancestors n' b | None => [] end
       end.

(** [derives c d]: an object of class [c] is also a [d].  No class is more
    than two steps below [Expression]. *)
Definition derives (c d : t) : bool := bool_decide (d ∈ ancestors 2 c).

End cls.


Section Trees.
Context `{Core}.

(** A value of [Expression] is what a [unique_ptr<Expression>] (or a raw
    [Expression *]) stands for: [nullptr], or an object, given by its address
    [this] and its members.  The address gives a node its identity; two
    nodes with equal members are still two nodes.  The first member of every
    object is [loc], the member of the base class [Expression]; [declLoc] and
    [symbol] of [ClassDef] and [MethodDef] are the members of [Declaration].
    The other members follow the parameters of the constructor. *)
Inductive Expression : Type :=
  | nullptr
  | ClassDef (this : positive) (loc declLoc : Loc) (symbol : SymbolRef)
      (name : Expression) (ancestors rhs : list Expression) (kind : ClassDefKind)
  | MethodDef (this : positive) (loc declLoc : Loc) (symbol : SymbolRef)
      (name : NameRef) (args : list Expression) (rhs : Expression) (flags : Z)
  | If (this : positive) (loc : Loc) (cond thenp elsep : Expression)
  | While (this : positive) (loc : Loc) (cond body : Expression)
  | Break (this : positive) (loc : Loc) (expr : Expression)
  | Retry (this : positive) (loc : Loc)
  | Next (this : positive) (loc : Loc) (expr : Expression)
  | Return (this : positive) (loc : Loc) (expr : Expression)
  | Yield (this : positive) (loc : Loc) (args : list Expression)
  | RescueCase (this : positive) (loc : Loc) (exceptions : list Expression)
      (var body : Expression)
  | Rescue (this : positive) (loc : Loc) (body : Expression)
      (rescueCases : list Expression) (else_ ensure : Expression)
  | Field (this : positive) (loc : Loc) (symbol : SymbolRef)
  | Local (this : positive) (loc : Loc) (localVariable : LocalVariable)
  | UnresolvedIdent (this : positive) (loc : Loc) (kind : VarKind) (name : NameRef)
  | Assign (this : positive) (loc : Loc) (lhs rhs : Expression)
  | Send (this : positive) (loc : Loc) (recv : Expression) (fun_ : NameRef)
      (args : list Expression) (block : Expression)
  | Cast (this : positive) (loc : Loc) (type : TypePtr) (arg : Expression)
      (cast : NameRef)
  | ZSuperArgs (this : positive) (loc : Loc)
  | RestArg (this : positive) (loc : Loc) (expr : Expression)
  | KeywordArg (this : positive) (loc : Loc) (expr : Expression)
  | OptionalArg (this : positive) (loc : Loc) (expr default_ : Expression)
  | ShadowArg (this : positive) (loc : Loc) (expr : Expression)
  | BlockArg (this : positive) (loc : Loc) (expr : Expression)
  | Literal (this : positive) (loc : Loc) (value : TypePtr)
  | UnresolvedConstantLit (this : positive) (loc : Loc) (scope : Expression)
      (cnst : NameRef)
  | ConstantLit (this : positive) (loc : Loc) (symbol : SymbolRef)
      (original typeAlias : Expression)
  | Self (this : positive) (loc : Loc) (claz : SymbolRef)
  | Block (this : positive) (loc : Loc) (symbol : SymbolRef)
      (args : list Expression) (body : Expression)
  | Hash (this : positive) (loc : Loc) (keys values : list Expression)
  | Array (this : positive) (loc : Loc) (elems : list Expression)
  | InsSeq (this : positive) (loc : Loc) (stats : list Expression) (expr : Expression)
  | EmptyTree (this : positive) (loc : Loc).

(** [p.get()] as an integer: 0 for [nullptr]. *)
Definition get (e : Expression) : N :=
  match e with
  | nullptr => 0%N
  | ClassDef this _ _ _ _ _ _ _ | MethodDef this _ _ _ _ _ _ _
  | If this _ _ _ _ | While this _ _ _ | Break this _ _ | Retry this _
  | Next this _ _ | Return this _ _ | Yield this _ _
  | RescueCase this _ _ _ _ | Rescue this _ _ _ _ _ | Field this _ _
  | Local this _ _ | UnresolvedIdent this _ _ _ | Assign this _ _ _
  | Send this _ _ _ _ _ | Cast this _ _ _ _ | ZSuperArgs this _
  | RestArg this _ _ | KeywordArg this _ _ | OptionalArg this _ _ _
  | ShadowArg this _ _ | BlockArg this _ _ | Literal this _ _
  | UnresolvedConstantLit this _ _ _ | ConstantLit this _ _ _ _
  | Self this _ _ | Block this _ _ _ _ | Hash this _ _ _ | Array this _ _
  | InsSeq this _ _ _ | EmptyTree this _ => Npos this
  end.

(** [e->loc]; there is none to read through [nullptr]. *)
Definition loc (e : Expression) : option Loc :=
  match e with
  | nullptr => None
  | ClassDef _ l _ _ _ _ _ _ | MethodDef _ l _ _ _ _ _ _
  | If _ l _ _ _ | While _ l _ _ | Break _ l _ | Retry _ l
  | Next _ l _ | Return _ l _ | Yield _ l _
  | RescueCase _ l _ _ _ | Rescue _ l _ _ _ _ | Field _ l _
  | Local _ l _ | UnresolvedIdent _ l _ _ | Assign _ l _ _
  | Send _ l _ _ _ _ | Cast _ l _ _ _ | ZSuperArgs _ l
  | RestArg _ l _ | KeywordArg _ l _ | OptionalArg _ l _ _
  | ShadowArg _ l _ | BlockArg _ l _ | Literal _ l _
  | UnresolvedConstantLit _ l _ _ | ConstantLit _ l _ _ _
  | Self _ l _ | Block _ l _ _ _ | Hash _ l _ _ | Array _ l _
  | InsSeq _ l _ _ | EmptyTree _ l => Some l
  end.

(** The class of the object behind a pointer (its dynamic type). *)
Definition class_of (e : Expression) : option cls.t :=
  match e with
  | nullptr => None
  | ClassDef _ _ _ _ _ _ _ _ => Some cls.ClassDef
  | MethodDef _ _ _ _ _ _ _ _ => Some cls.MethodDef
  | If _ _ _ _ _ => Some cls.If
  | While _ _ _ _ => Some cls.While
  | Break _ _ _ => Some cls.Break
  | Retry _ _ => Some cls.Retry
  | Next _ _ _ => Some cls.Next
  | Return _ _ _ => Some cls.Return
  | Yield _ _ _ => Some cls.Yield
  | RescueCase _ _ _ _ _ => Some cls.RescueCase
  | Rescue _ _ _ _ _ _ => Some cls.Rescue
  | Field _ _ _ => Some cls.Field
  | Local _ _ _ => Some cls.Local
  | UnresolvedIdent _ _ _ _ => Some cls.UnresolvedIdent
  | Assign _ _ _ _ => Some cls.Assign
  | Send _ _ _ _ _ _ => Some cls.Send
  | Cast _ _ _ _ _ => Some cls.Cast
  | ZSuperArgs _ _ => Some cls.ZSuperArgs
  | RestArg _ _ _ => Some cls.RestArg
  | KeywordArg _ _ _ => Some cls.KeywordArg
  | OptionalArg _ _ _ _ => Some cls.OptionalArg
  | ShadowArg _ _ _ => Some cls.ShadowArg
  | BlockArg _ _ _ => Some cls.BlockArg
  | Literal _ _ _ => Some cls.Literal
  | UnresolvedConstantLit _ _ _ _ => Some cls.UnresolvedConstantLit
  | ConstantLit _ _ _ _ _ => Some cls.ConstantLit
  | Self _ _ _ => Some cls.Self
  | Block _ _ _ _ _ => Some cls.Block
  | Hash _ _ _ _ => Some cls.Hash
  | Array _ _ _ => Some cls.Array
  | InsSeq _ _ _ _ => Some cls.InsSeq
  | EmptyTree _ _ => Some cls.EmptyTree
  end.

(** [p != nullptr], also written [if (p)]. *)
Definition nonnull (e : Expression) : bool :=
  match e with
  | nullptr => false
  | _ => true
  end.

(** [isa T e]: [dynamic_cast<T *>(e)] is not null. *)
Definition isa (T : cls.t) (e : Expression) : bool :=
  match class_of e with
  | Some c => cls.derives c T
  | None => false
  end.

(** Modelled from the spec: [cast_tree<T>] is declared in ast/Trees.h, which
    is not among the sources.  By §4.1 a node is told apart by its runtime
    variant only, so the cast gives the pointer back when the object is a
    [T], and [nullptr] otherwise (also for [nullptr]). *)
Definition cast_tree (T : cls.t) (e : Expression) : Expression :=
  if isa T e then e else nullptr.

(** ** The constructors

    A value of [New] is one [new]-expression: a class and the arguments
    of its constructor, in the order of its parameters. *)

Inductive New : Type :=
  | new_ClassDef (loc declLoc : Loc) (symbol : SymbolRef) (name : Expression)
      (ancestors rhs : list Expression) (kind : ClassDefKind)
  | new_MethodDef (loc declLoc : Loc) (symbol : SymbolRef) (name : NameRef)
      (args : list Expression) (rhs : Expression) (flags : Z)
  | new_If (loc : Loc) (cond thenp elsep : Expression)
  | new_While (loc : Loc) (cond body : Expression)
  | new_Break (loc : Loc) (expr : Expression)
  | new_Retry (loc : Loc)
  | new_Next (loc : Loc) (expr : Expression)
  | new_Return (loc : Loc) (expr : Expression)
  | new_Yield (loc : Loc) (args : list Expression)
  | new_RescueCase (loc : Loc) (exceptions : list Expression)
      (var body : Expression)
  | new_Rescue (loc : Loc) (body : Expression) (rescueCases : list Expression)
      (else_ ensure : Expression)
  | new_Field (loc : Loc) (symbol : SymbolRef)
  | new_Local (loc : Loc) (localVariable1 : LocalVariable)
  | new_UnresolvedIdent (loc : Loc) (kind : VarKind) (name : NameRef)
  | new_Assign (loc : Loc) (lhs rhs : Expression)
  | new_Send (loc : Loc) (recv : Expression) (fun_ : NameRef)
      (args : list Expression) (block : Expression)
  | new_Cast (loc : Loc) (ty : TypePtr) (arg : Expression) (cast : NameRef)
  | new_ZSuperArgs (loc : Loc)
  | new_RestArg (loc : Loc) (arg : Expression)
  | new_KeywordArg (loc : Loc) (expr : Expression)
  | new_OptionalArg (loc : Loc) (expr default_ : Expression)
  | new_ShadowArg (loc : Loc) (expr : Expression)
  | new_BlockArg (loc : Loc) (expr : Expression)
  | new_Literal (loc : Loc) (value : TypePtr)
  | new_UnresolvedConstantLit (loc : Loc) (scope : Expression) (cnst : NameRef)
  | new_ConstantLit (loc : Loc) (symbol : SymbolRef)
      (original resolved : Expression)
  | new_Self (loc : Loc) (claz : SymbolRef)
  | new_Block (loc : Loc) (args : list Expression) (body : Expression)
  | new_Hash (loc : Loc) (keys values : list Expression)
  | new_Array (loc : Loc) (elems : list Expression)
  | new_InsSeq (loc : Loc) (stats : list Expression) (expr : Expression)
  | new_EmptyTree.

(** The class a [new]-expression names. *)
Definition New_class (n : New) : cls.t :=
  match n with
  | new_ClassDef _ _ _ _ _ _ _ => cls.ClassDef
  | new_MethodDef _ _ _ _ _ _ _ => cls.MethodDef
  | new_If _ _ _ _ => cls.If
  | new_While _ _ _ => cls.While
  | new_Break _ _ => cls.Break
  | new_Retry _ => cls.Retry
  | new_Next _ _ => cls.Next
  | new_Return _ _ => cls.Return
  | new_Yield _ _ => cls.Yield
  | new_RescueCase _ _ _ _ => cls.RescueCase
  | new_Rescue _ _ _ _ _ => cls.Rescue
  | new_Field _ _ => cls.Field
  | new_Local _ _ => cls.Local
  | new_UnresolvedIdent _ _ _ => cls.UnresolvedIdent
  | new_Assign _ _ _ => cls.Assign
  | new_Send _ _ _ _ _ => cls.Send
  | new_Cast _ _ _ _ => cls.Cast
  | new_ZSuperArgs _ => cls.ZSuperArgs
  | new_RestArg _ _ => cls.RestArg
  | new_KeywordArg _ _ => cls.KeywordArg
  | new_OptionalArg _ _ _ => cls.OptionalArg
  | new_ShadowArg _ _ => cls.ShadowArg
  | new_BlockArg _ _ => cls.BlockArg
  | new_Literal _ _ => cls.Literal
  | new_UnresolvedConstantLit _ _ _ => cls.UnresolvedConstantLit
  | new_ConstantLit _ _ _ _ => cls.ConstantLit
  | new_Self _ _ => cls.Self
  | new_Block _ _ _ => cls.Block
  | new_Hash _ _ _ => cls.Hash
  | new_Array _ _ => cls.Array
  | new_InsSeq _ _ _ => cls.InsSeq
  | new_EmptyTree => cls.EmptyTree
  end.

(** The location the caller hands to the constructor, when the constructor
    has a [loc] parameter. *)
Definition New_loc (n : New) : option Loc :=
  match n with
  | new_ClassDef loc _ _ _ _ _ _ | new_MethodDef loc _ _ _ _ _ _
  | new_If loc _ _ _ | new_While loc _ _ | new_Break loc _ | new_Retry loc
  | new_Next loc _ | new_Return loc _ | new_Yield loc _
  | new_RescueCase loc _ _ _ | new_Rescue loc _ _ _ _ | new_Field loc _
  | new_Local loc _ | new_UnresolvedIdent loc _ _ | new_Assign loc _ _
  | new_Send loc _ _ _ _ | new_Cast loc _ _ _ | new_ZSuperArgs loc
  | new_RestArg loc _ | new_KeywordArg loc _ | new_OptionalArg loc _ _
  | new_ShadowArg loc _ | new_BlockArg loc _ | new_Literal loc _
  | new_UnresolvedConstantLit loc _ _ | new_ConstantLit loc _ _ _
  | new_Self loc _ | new_Block loc _ _ | new_Hash loc _ _ | new_Array loc _
  | new_InsSeq loc _ _ => Some loc
  | new_EmptyTree => None
  end.

(** The member initialisers of each constructor; [this] is the address of
    the storage.  The counters and histograms the constructors bump are
    telemetry and are left out. *)
Definition init (this : positive) (n : New) : Expression :=
  match n with
  | new_ClassDef loc declLoc symbol name ancestors rhs kind =>
      ClassDef this loc declLoc symbol name ancestors rhs kind
  | new_MethodDef loc declLoc symbol name args rhs flags =>
      MethodDef this loc declLoc symbol name args rhs flags
  | new_If loc cond thenp elsep => If this loc cond thenp elsep
  | new_While loc cond body => While this loc cond body
  | new_Break loc expr => Break this loc expr
  | new_Retry loc => Retry this loc
  | new_Next loc expr => Next this loc expr
  | new_Return loc expr => Return this loc expr
  | new_Yield loc args => Yield this loc args
  | new_RescueCase loc exceptions var body =>
      RescueCase this loc exceptions var body
  | new_Rescue loc body rescueCases else_ ensure =>
      Rescue this loc body rescueCases else_ ensure
  | new_Field loc symbol => Field this loc symbol
  | new_Local loc localVariable1 => Local this loc localVariable1
  | new_UnresolvedIdent loc kind name => UnresolvedIdent this loc kind name
  | new_Assign loc lhs rhs => Assign this loc lhs rhs
  | new_Send loc recv fun_ args block => Send this loc recv fun_ args block
  | new_Cast loc ty arg cast => Cast this loc ty arg cast
  | new_ZSuperArgs loc => ZSuperArgs this loc
  | new_RestArg loc arg => RestArg this loc arg
  | new_KeywordArg loc expr => KeywordArg this loc expr
  | new_OptionalArg loc expr default_ => OptionalArg this loc expr default_
  | new_ShadowArg loc expr => ShadowArg this loc expr
  | new_BlockArg loc expr => BlockArg this loc expr
  | new_Literal loc value => Literal this loc value
  | new_UnresolvedConstantLit loc scope cnst =>
      UnresolvedConstantLit this loc scope cnst
  | new_ConstantLit loc symbol original resolved =>
      ConstantLit this loc symbol original resolved
  | new_Self loc claz => Self this loc claz
  | new_Block loc args body => Block this loc SymbolRef_default args body
  | new_Hash loc keys values => Hash this loc keys values
  | new_Array loc elems => Array this loc elems
  | new_InsSeq loc stats expr => InsSeq this loc stats expr
  | new_EmptyTree => EmptyTree this Loc_none
  end.

(** Modelled from the spec: the bodies of [_sanityCheck] are not among the
    sources (each constructor only calls it).  The check of a variant is the
    invariant column of the table of §3: name and body statements of a
    [ClassDef] non-null; body of a [MethodDef] non-null; condition of [If]
    and [While] non-null; both sides of an [Assign] non-null; the [fun] name
    of a [Send] present; else and ensure of a [Rescue] never null; keys and
    values of a [Hash] of one length.  The rows of the other variants state
    no condition on the members. *)
Definition _sanityCheck (e : Expression) : bool :=
  match e with
  | ClassDef _ _ _ _ name _ rhs _ => nonnull name && forallb nonnull rhs
  | MethodDef _ _ _ _ _ _ rhs _ => nonnull rhs
  | If _ _ cond _ _ => nonnull cond
  | While _ _ cond _ => nonnull cond
  | Assign _ _ lhs rhs => nonnull lhs && nonnull rhs
  | Send _ _ _ fun_ _ _ => NameRef_exists fun_
  | Rescue _ _ _ _ else_ ensure => nonnull else_ && nonnull ensure
  | Hash _ _ keys values => bool_decide (length keys = length values)
  | _ => true
  end.

(** A constructor: the member initialisers, then [_sanityCheck()], which by
    §4.1 fails fast. *)
Definition construct (this : positive) (n : New) : Res Expression :=
  let e := init this n in
  if _sanityCheck e then Ok e else Fault (EnforceFailed "_sanityCheck").

(** ** The printers *)

Section Printing.
Variable gs : GlobalState.

(** ['\n'] *)
Definition nl : string := String (Ascii.ascii_of_nat 10) EmptyString.

(** [printTabs]: the loop runs [count] times, and not at all for a
    [count] below 1. *)
Definition printTabs (count : Z) : string :=
  (fix loop (n : nat) : string :=
     match n with
     | O => ""
     | S n' => "  " +:+ loop n'
     end) (Z.to_nat count).

(** [for (auto &a : xs) { buf << f(a); }] *)
Definition forEach {A} (f : A -> Res string) : list A -> Res string :=
  fix go (xs : list A) : Res string :=
    match xs with
    | [] => mret ""
    | a :: xs' => s ← f a; rest ← go xs'; mret (s +:+ rest)
    end.

(** The loops with a [first] flag: before each element the text [sep0] when
    it is the first and [sep] otherwise. *)
Definition forEachSep {A} (sep0 sep : string) (f : A -> Res string)
    : bool -> list A -> Res string :=
  fix go (first : bool) (xs : list A) {struct xs} : Res string :=
    match xs with
    | [] => mret ""
    | a :: xs' =>
        s ← f a;
        rest ← go false xs';
        mret ((if first then sep0 else sep) +:+ s +:+ rest)
    end.

(** [printElems]; [toString] is the virtual call [a->toString]. *)
Definition printElems (toString : Expression -> Z -> Res string)
    (args : list Expression) (tabs : Z) : Res string :=
  (fix go (first didshadow : bool) (xs : list Expression) {struct xs}
      : Res string :=
     match xs with
     | [] => mret ""
     | a :: xs' =>
         let shadow :=
           negb first && nonnull (cast_tree cls.ShadowArg a) && negb didshadow in
         let sep :=
           if first then "" else if shadow then "; " else ", " in
         s ← toString a (tabs + 1)%Z;
         rest ← go false (didshadow || shadow) xs';
         mret (sep +:+ s +:+ rest)
     end) true false args.

Definition printArgs (toString : Expression -> Z -> Res string)
    (args : list Expression) (tabs : Z) : Res string :=
  s ← printElems toString args tabs;
  mret ("(" +:+ s +:+ ")").

(** [values[i]] of a vector, handed to [k]; outside the vector the access
    is a fault. *)
Definition at_index {A B} (values : list A) (i : Z) (k : A -> Res B) : Res B :=
  if (i <? 0)%Z then Fault OutOfRange
  else
    (fix go (xs : list A) (n : nat) {struct xs} : Res B :=
       match xs, n with
       | [], _ => Fault OutOfRange
       | x :: _, O => k x
       | _ :: xs', S n' => go xs' n'
       end) values (Z.to_nat i).

(** The loop of [Hash::toString] and [Hash::showRaw]:
    [int i = -1; for (auto &key : keys) { i++; auto &value = values[i]; ... }].
    [pair first key value] is the text one turn of the loop writes. *)
Definition forEachPair (values : list Expression)
    (pair : bool -> Expression -> Expression -> Res string)
    : Z -> bool -> list Expression -> Res string :=
  fix go (i : Z) (first : bool) (keys : list Expression) {struct keys}
      : Res string :=
    match keys with
    | [] => mret ""
    | key :: keys' =>
        let i := (i + 1)%Z in
        at_index values i (fun value =>
          s ← pair first key value;
          rest ← go i false keys';
          mret (s +:+ rest))
    end.

(** Modelled from the spec: [MethodDef::isSelf] is declared in ast/Trees.h,
    which is not among the sources; §3 gives a method definition the
    bit-flags self-method and synthesized, so [isSelf] tests the bit
    [SelfMethod] the way [MethodDef::showRaw] tests its flags. *)
Definition isSelf (flags : Z) : bool :=
  negb (Z.land flags SelfMethod =? 0)%Z.

Definition Literal_toString (value : TypePtr) (tabs : Z) : string :=
  match Type_kind value with
  | IsLiteralType => LiteralType_showValue gs value
  | IsClassType symbol =>
      if decide (symbol = Symbols_NilClass) then "nil"
      else if decide (symbol = Symbols_FalseClass) then "false"
      else if decide (symbol = Symbols_TrueClass) then "true"
      else "literal(" +:+ Type_toString gs value tabs +:+ ")"
  | IsOtherType => "literal(" +:+ Type_toString gs value tabs +:+ ")"
  end.

(** The text of the arguments of a resolved block ([Block::toString]). *)
Definition Block_argSym (argSym : SymbolRef) : string :=
  (if Symbol_isBlockArgument gs argSym then "&" else "")
  +:+ (if Symbol_isRepeated gs argSym then "*" else "")
  +:+ NameRef_toString gs (Symbol_name gs argSym)
  +:+ (if Symbol_isKeyword gs argSym then ":" else "").

Fixpoint toString (e : Expression) (tabs : Z) {struct e} : Res string :=
  match e with
  | nullptr => Fault NullDeref
  | ClassDef _ _ _ symbol name ancestors rhs kind =>
      n ← toString name tabs;
      anc ← printArgs toString ancestors tabs;
      body ← forEach (fun a =>
                s ← toString a (tabs + 1)%Z;
                mret (nl +:+ printTabs (tabs + 1) +:+ s +:+ nl)) rhs;
      mret ((match kind with Module_ => "module " | Class_ => "class " end)
            +:+ n +:+ "<" +:+ Name_toString gs (Symbol_name gs symbol)
            +:+ "> < " +:+ anc +:+ body +:+ printTabs tabs +:+ "end")
  | InsSeq _ _ stats expr =>
      body ← forEach (fun a =>
                s ← toString a (tabs + 1)%Z;
                mret (printTabs (tabs + 1) +:+ s +:+ nl)) stats;
      x ← toString expr (tabs + 1)%Z;
      mret ("begin" +:+ nl +:+ body +:+ printTabs (tabs + 1) +:+ x +:+ nl
            +:+ printTabs tabs +:+ "end")
  | MethodDef _ _ _ symbol name args rhs flags =>
      params ←
        (if decide (symbol = Symbols_todo)
         then forEachSep "" ", " (fun a => toString a (tabs + 1)%Z) true args
         else forEachSep "" ", "
                (fun a => mret (NameRef_toString gs (Symbol_name gs a)))
                true (Symbol_arguments gs symbol));
      body ← toString rhs (tabs + 1)%Z;
      mret ((if isSelf flags then "def self." else "def ")
            +:+ Name_toString gs name +:+ "<"
            +:+ Name_toString gs (Symbol_name gs symbol) +:+ ">"
            +:+ "(" +:+ params +:+ ")" +:+ nl
            +:+ printTabs (tabs + 1) +:+ body +:+ nl
            +:+ printTabs tabs +:+ "end")
  | If _ _ cond thenp elsep =>
      c ← toString cond (tabs + 1)%Z;
      t ← toString thenp (tabs + 1)%Z;
      f ← toString elsep (tabs + 1)%Z;
      mret ("if " +:+ c +:+ nl +:+ printTabs (tabs + 1) +:+ t +:+ nl
            +:+ printTabs tabs +:+ "else" +:+ nl
            +:+ printTabs (tabs + 1) +:+ f +:+ nl
            +:+ printTabs tabs +:+ "end")
  | While _ _ cond body =>
      c ← toString cond (tabs + 1)%Z;
      b ← toString body (tabs + 1)%Z;
      mret ("while " +:+ c +:+ nl +:+ printTabs (tabs + 1) +:+ b +:+ nl
            +:+ printTabs tabs +:+ "end")
  | EmptyTree _ _ => mret "<emptyTree>"
  | UnresolvedConstantLit _ _ scope cnst =>
      s ← toString scope tabs;
      mret (s +:+ "::" +:+ Name_toString gs cnst)
  | ConstantLit _ _ symbol original typeAlias =>
      if SymbolRef_exists symbol then mret (Symbol_fullName gs symbol)
      else if nonnull typeAlias then toString typeAlias tabs
      else (s ← toString original tabs; mret ("Unresolved: " +:+ s))
  | Field _ _ symbol => mret (Symbol_fullName gs symbol)
  | Local _ _ localVariable => mret (LocalVariable_toString gs localVariable)
  | UnresolvedIdent _ _ _ name => mret (NameRef_toString gs name)
  | Return _ _ expr =>
      s ← toString expr (tabs + 1)%Z; mret ("return " +:+ s)
  | Yield _ _ args =>
      a ← printArgs toString args tabs; mret ("yield" +:+ a)
  | Next _ _ expr =>
      s ← toString expr (tabs + 1)%Z; mret ("next(" +:+ s +:+ ")")
  | Self _ _ claz =>
      if SymbolRef_exists claz
      then mret ("self(" +:+ Name_toString gs (Symbol_name gs claz) +:+ ")")
      else mret "self(TODO)"
  | Break _ _ expr =>
      s ← toString expr (tabs + 1)%Z; mret ("break(" +:+ s +:+ ")")
  | Retry _ _ => mret "retry"
  | Literal _ _ value => mret (Literal_toString value tabs)
  | Assign _ _ lhs rhs =>
      l ← toString lhs tabs;
      r ← toString rhs tabs;
      mret (l +:+ " = " +:+ r)
  | RescueCase _ _ exceptions var body =>
      ex ← forEachSep " " ", " (fun x => toString x tabs) true exceptions;
      v ← toString var tabs;
      b ← toString body tabs;
      mret ("rescue" +:+ ex +:+ " => " +:+ v +:+ nl +:+ printTabs tabs +:+ b)
  | Rescue _ _ body rescueCases else_ ensure =>
      b ← toString body tabs;
      cases ← forEach (fun rescueCase =>
                 s ← toString rescueCase tabs;
                 mret (nl +:+ printTabs (tabs - 1) +:+ s)) rescueCases;
      el ← (if negb (nonnull (cast_tree cls.EmptyTree else_))
            then s ← toString else_ tabs;
                 mret (nl +:+ printTabs (tabs - 1) +:+ "else" +:+ nl
                       +:+ printTabs tabs +:+ s)
            else mret "");
      en ← (if negb (nonnull (cast_tree cls.EmptyTree ensure))
            then s ← toString ensure tabs;
                 mret (nl +:+ printTabs (tabs - 1) +:+ "ensure" +:+ nl
                       +:+ printTabs tabs +:+ s)
            else mret "");
      mret (b +:+ cases +:+ el +:+ en)
  | Send _ _ recv fun_ args block =>
      r ← toString recv tabs;
      a ← printArgs toString args tabs;
      bl ← (if nonnull block then toString block tabs else mret "");
      mret (r +:+ "." +:+ Name_toString gs fun_ +:+ a +:+ bl)
  | Cast _ _ type arg cast =>
      a ← toString arg tabs;
      mret ("T." +:+ NameRef_toString gs cast +:+ "(" +:+ a +:+ ", "
            +:+ Type_toString gs type tabs +:+ ")")
  | ZSuperArgs _ _ => mret "ZSuperArgs"
  | Hash _ _ keys values =>
      pairs ← forEachPair values (fun first key value =>
                 k ← toString key (tabs + 1)%Z;
                 v ← toString value (tabs + 1)%Z;
                 mret ((if first then "" else ", ") +:+ k +:+ " => " +:+ v))
               (-1)%Z true keys;
      mret ("{" +:+ pairs +:+ "}")
  | Array _ _ elems =>
      s ← printElems toString elems tabs; mret ("[" +:+ s +:+ "]")
  | Block _ _ symbol args body =>
      params ←
        (if negb (SymbolRef_exists symbol)
         then printElems toString args (tabs + 1)%Z
         else forEachSep "" ", " (fun argSym => mret (Block_argSym argSym))
                true (Symbol_arguments gs symbol));
      b ← toString body (tabs + 1)%Z;
      mret (" do |" +:+ params +:+ "|" +:+ nl
            +:+ printTabs (tabs + 1) +:+ b +:+ nl
            +:+ printTabs tabs +:+ "end")
  | RestArg _ _ expr => s ← toString expr tabs; mret ("*" +:+ s)
  | KeywordArg _ _ expr => s ← toString expr tabs; mret (s +:+ ":")
  | OptionalArg _ _ expr default_ =>
      s ← toString expr tabs;
      d ← toString default_ tabs;
      mret (s +:+ " = " +:+ d)
  | ShadowArg _ _ expr => toString expr tabs
  | BlockArg _ _ expr => s ← toString expr tabs; mret ("&" +:+ s)
  end.

(** [nodeName()].  The three abstract classes have none. *)
Definition nodeName (c : cls.t) : string :=
  match c with
  | cls.Expression | cls.Reference | cls.Declaration => ""
  | cls.ClassDef => "ClassDef"
  | cls.MethodDef => "MethodDef"
  | cls.If => "If"
  | cls.While => "While"
  | cls.Break => "Break"
  | cls.Retry => "Retry"
  | cls.Next => "Next"
  | cls.Return => "Return"
  | cls.Yield => "Yield"
  | cls.RescueCase => "RescueCase"
  | cls.Rescue => "Rescue"
  | cls.Field => "Field"
  | cls.Local => "Local"
  | cls.UnresolvedIdent => "UnresolvedIdent"
  | cls.Assign => "Assign"
  | cls.Send => "Send"
  | cls.Cast => "Cast"
  | cls.ZSuperArgs => "ZSuperArgs"
  | cls.RestArg => "RestArg"
  | cls.KeywordArg => "KeywordArg"
  | cls.OptionalArg => "OptionalArg"
  | cls.ShadowArg => "ShadowArg"
  | cls.BlockArg => "BlockArg"
  | cls.Literal => "Literal"
  | cls.UnresolvedConstantLit => "UnresolvedConstantLit"
  | cls.ConstantLit => "ConstantLit"
  | cls.Self => "Self"
  | cls.Block => "Block"
  | cls.Hash => "Hash"
  | cls.Array => "Array"
  | cls.InsSeq => "InsSeq"
  | cls.EmptyTree => "EmptyTree"
  end.

(** The loop of [ClassDef::showRaw] over [rhs], which asks of each element
    whether it is the last slot of the vector ([&a != &this->rhs.back()]). *)
Definition forEachLast {A} (f : bool -> A -> Res string) : list A -> Res string :=
  fix go (xs : list A) : Res string :=
    match xs with
    | [] => mret ""
    | a :: xs' =>
        s ← f (match xs' with [] => true | _ => false end) a;
        rest ← go xs';
        mret (s +:+ rest)
    end.

(** The [flags] line of [MethodDef::showRaw]. *)
Definition MethodDef_flags (flags : Z) : string :=
  (if negb (Z.land flags SelfMethod =? 0)%Z then " self" else "")
  +:+ (if negb (Z.land flags DSLSynthesized =? 0)%Z then " dsl" else "")
  +:+ (if (flags =? 0)%Z then " 0" else "").

Definition VarKind_name (kind : VarKind) : string :=
  match kind with
  | VK_Local => "Local"
  | VK_Instance => "Instance"
  | VK_Class => "Class"
  | VK_Global => "Global"
  end.

Fixpoint showRaw (e : Expression) (tabs : Z) {struct e} : Res string :=
  (* [for (auto &a : xs) { printTabs(buf, tabs + 2); buf << a->showRaw(gs, tabs + 2) << '\n'; }] *)
  let lines := forEach (fun a =>
                 s ← showRaw a (tabs + 2)%Z;
                 mret (printTabs (tabs + 2) +:+ s +:+ nl)) in
  match e with
  | nullptr => Fault NullDeref
  | ClassDef _ _ _ symbol name ancestors rhs kind =>
      n ← showRaw name (tabs + 1)%Z;
      anc ← forEachSep "" ", " (fun a => showRaw a (tabs + 2)%Z) true ancestors;
      body ← forEachLast (fun last a =>
                s ← showRaw a (tabs + 2)%Z;
                mret (printTabs (tabs + 2) +:+ s +:+ nl
                      +:+ (if last then "" else nl))) rhs;
      mret (nodeName cls.ClassDef +:+ "{" +:+ nl
            +:+ printTabs (tabs + 1) +:+ "name = " +:+ n +:+ "<"
            +:+ Name_toString gs (Symbol_name gs symbol) +:+ ">" +:+ nl
            +:+ printTabs (tabs + 1) +:+ "ancestors = [" +:+ anc +:+ "]" +:+ nl
            +:+ printTabs (tabs + 1) +:+ "rhs = [" +:+ nl +:+ body
            +:+ printTabs (tabs + 1) +:+ "]" +:+ nl
            +:+ printTabs tabs +:+ "}")
  | InsSeq _ _ stats expr =>
      body ← lines stats;
      x ← showRaw expr (tabs + 1)%Z;
      mret (nodeName cls.InsSeq +:+ "{" +:+ nl
            +:+ printTabs (tabs + 1) +:+ "stats = [" +:+ nl +:+ body
            +:+ printTabs (tabs + 1) +:+ "]," +:+ nl
            +:+ printTabs (tabs + 1) +:+ "expr = " +:+ x +:+ nl
            +:+ printTabs tabs +:+ "}")
  | MethodDef _ _ _ symbol name args rhs flags =>
      params ←
        (if decide (symbol = Symbols_todo)
         then forEachSep "" ", " (fun a => showRaw a (tabs + 2)%Z) true args
         else forEachSep "" ", " (fun a => showRaw a (tabs + 2)%Z) true args);
      body ← showRaw rhs (tabs + 1)%Z;
      mret (nodeName cls.MethodDef +:+ "{" +:+ nl
            +:+ printTabs (tabs + 1) +:+ "flags =" +:+ MethodDef_flags flags +:+ nl
            +:+ printTabs (tabs + 1) +:+ "name = " +:+ Name_toString gs name
            +:+ "<" +:+ Name_toString gs (Symbol_name gs symbol) +:+ ">" +:+ nl
            +:+ printTabs (tabs + 1) +:+ "args = [" +:+ params +:+ "]" +:+ nl
            +:+ printTabs (tabs + 1) +:+ "rhs = " +:+ body +:+ nl
            +:+ printTabs tabs +:+ "}")
  | If _ _ cond thenp elsep =>
      c ← showRaw cond (tabs + 1)%Z;
      t ← showRaw thenp (tabs + 1)%Z;
      f ← showRaw elsep (tabs + 1)%Z;
      mret (nodeName cls.If +:+ "{" +:+ nl
            +:+ printTabs (tabs + 1) +:+ "cond = " +:+ c +:+ nl
            +:+ printTabs (tabs + 1) +:+ "thenp = " +:+ t +:+ nl
            +:+ printTabs (tabs + 1) +:+ "elsep = " +:+ f +:+ nl
            +:+ printTabs tabs +:+ "}")
  | Assign _ _ lhs rhs =>
      l ← showRaw lhs (tabs + 1)%Z;
      r ← showRaw rhs (tabs + 1)%Z;
      mret (nodeName cls.Assign +:+ "{" +:+ nl
            +:+ printTabs (tabs + 1) +:+ "lhs = " +:+ l +:+ nl
            +:+ printTabs (tabs + 1) +:+ "rhs = " +:+ r +:+ nl
            +:+ printTabs tabs +:+ "}")
  | While _ _ cond body =>
      c ← showRaw cond (tabs + 1)%Z;
      b ← showRaw body (tabs + 1)%Z;
      mret (nodeName cls.While +:+ "{" +:+ nl
            +:+ printTabs (tabs + 1) +:+ "cond = " +:+ c +:+ nl
            +:+ printTabs (tabs + 1) +:+ "body = " +:+ b +:+ nl
            +:+ printTabs tabs +:+ "}")
  | EmptyTree _ _ => mret (nodeName cls.EmptyTree)
  | UnresolvedConstantLit _ _ scope cnst =>
      s ← showRaw scope (tabs + 1)%Z;
      mret (nodeName cls.UnresolvedConstantLit +:+ "{" +:+ nl
            +:+ printTabs (tabs + 1) +:+ "scope = " +:+ s +:+ nl
            +:+ printTabs (tabs + 1) +:+ "cnst = " +:+ Name_toString gs cnst +:+ nl
            +:+ printTabs tabs +:+ "}")
  | ConstantLit _ _ symbol original typeAlias =>
      o ← (if nonnull original then showRaw original (tabs + 1)%Z
           else mret "nullptr");
      t ← (if nonnull typeAlias then showRaw typeAlias (tabs + 1)%Z
           else mret "nullptr");
      mret (nodeName cls.ConstantLit +:+ "{" +:+ nl
            +:+ printTabs (tabs + 1) +:+ "orig = " +:+ o +:+ nl
            +:+ printTabs (tabs + 1) +:+ "symbol = "
            +:+ Symbol_fullName gs symbol +:+ nl
            +:+ printTabs (tabs + 1) +:+ "typeAlias = " +:+ t +:+ nl
            +:+ printTabs tabs +:+ "}")
  | Field _ _ symbol =>
      mret (nodeName cls.Field +:+ "{" +:+ nl
            +:+ printTabs (tabs + 1) +:+ "symbol = "
            +:+ Name_toString gs (Symbol_name gs symbol) +:+ nl
            +:+ printTabs tabs +:+ "}")
  | Local _ _ localVariable =>
      mret (nodeName cls.Local +:+ "{" +:+ nl
            +:+ printTabs (tabs + 1) +:+ "localVariable = "
            +:+ LocalVariable_toString gs localVariable +:+ nl
            +:+ printTabs tabs +:+ "}")
  | UnresolvedIdent _ _ kind name =>
      mret (nodeName cls.UnresolvedIdent +:+ "{" +:+ nl
            +:+ printTabs (tabs + 1) +:+ "kind = " +:+ VarKind_name kind +:+ nl
            +:+ printTabs (tabs + 1) +:+ "name = " +:+ NameRef_toString gs name +:+ nl
            +:+ printTabs tabs +:+ "}")
  | Return _ _ expr =>
      s ← showRaw expr (tabs + 1)%Z;
      mret (nodeName cls.Return +:+ "{ expr = " +:+ s +:+ " }")
  | Next _ _ expr =>
      s ← showRaw expr (tabs + 1)%Z;
      mret (nodeName cls.Next +:+ "{ expr = " +:+ s +:+ " }")
  | Break _ _ expr =>
      s ← showRaw expr (tabs + 1)%Z;
      mret (nodeName cls.Break +:+ "{ expr = " +:+ s +:+ " }")
  | Retry _ _ => mret (nodeName cls.Retry +:+ "{}")
  | Yield _ _ args =>
      a ← lines args;
      mret (nodeName cls.Yield +:+ "{" +:+ nl
            +:+ printTabs (tabs + 1) +:+ "args = [" +:+ nl +:+ a
            +:+ printTabs (tabs + 1) +:+ "]" +:+ nl
            +:+ printTabs tabs +:+ "}")
  | Self _ _ claz =>
      mret (nodeName cls.Self +:+ "{ claz = " +:+ Symbol_fullName gs claz +:+ " }")
  | Literal _ _ value =>
      mret (nodeName cls.Literal +:+ "{ value = " +:+ Literal_toString value 0
            +:+ " }")
  | RescueCase _ _ exceptions var body =>
      ex ← lines exceptions;
      v ← showRaw var (tabs + 1)%Z;
      b ← showRaw body (tabs + 1)%Z;
      mret (nodeName cls.RescueCase +:+ "{" +:+ nl
            +:+ printTabs (tabs + 1) +:+ "exceptions = [" +:+ nl +:+ ex
            +:+ printTabs (tabs + 1) +:+ "]" +:+ nl
            +:+ printTabs (tabs + 1) +:+ "var = " +:+ v +:+ nl
            +:+ printTabs (tabs + 1) +:+ "body = " +:+ b +:+ nl
            +:+ printTabs tabs +:+ "}")
  | Rescue _ _ body rescueCases else_ ensure =>
      b ← showRaw body (tabs + 1)%Z;
      cases ← lines rescueCases;
      el ← showRaw else_ (tabs + 1)%Z;
      en ← showRaw ensure (tabs + 1)%Z;
      mret (nodeName cls.Rescue +:+ "{" +:+ nl
            +:+ printTabs (tabs + 1) +:+ "body = " +:+ b +:+ nl
            +:+ printTabs (tabs + 1) +:+ "rescueCases = [" +:+ nl +:+ cases
            +:+ printTabs (tabs + 1) +:+ "]" +:+ nl
            +:+ printTabs (tabs + 1) +:+ "else = " +:+ el +:+ nl
            +:+ printTabs (tabs + 1) +:+ "ensure = " +:+ en +:+ nl
            +:+ printTabs tabs +:+ "}")
  | Send _ _ recv fun_ args block =>
      r ← showRaw recv (tabs + 1)%Z;
      bl ← (if nonnull block
            then s ← showRaw block (tabs + 1)%Z; mret (s +:+ nl)
            else mret ("nullptr" +:+ nl));
      a ← lines args;
      mret (nodeName cls.Send +:+ "{" +:+ nl
            +:+ printTabs (tabs + 1) +:+ "recv = " +:+ r +:+ nl
            +:+ printTabs (tabs + 1) +:+ "fun = " +:+ Name_toString gs fun_ +:+ nl
            +:+ printTabs (tabs + 1) +:+ "block = " +:+ bl
            +:+ printTabs (tabs + 1) +:+ "args = [" +:+ nl +:+ a
            +:+ printTabs (tabs + 1) +:+ "]" +:+ nl
            +:+ printTabs tabs +:+ "}")
  | Cast _ _ type arg cast =>
      a ← showRaw arg (tabs + 2)%Z;
      mret (nodeName cls.Cast +:+ "{" +:+ nl
            +:+ printTabs (tabs + 2) +:+ "cast = " +:+ NameRef_toString gs cast
            +:+ "," +:+ nl
            +:+ printTabs (tabs + 2) +:+ "arg = " +:+ a +:+ nl
            +:+ printTabs (tabs + 2) +:+ "type = " +:+ Type_toString gs type 0
            +:+ "," +:+ nl
            +:+ printTabs tabs +:+ "}" +:+ nl)
  | ZSuperArgs _ _ => mret (nodeName cls.ZSuperArgs +:+ "{ }")
  | Hash _ _ keys values =>
      pairs ← forEachPair values (fun _ key value =>
                 k ← showRaw key (tabs + 3)%Z;
                 v ← showRaw value (tabs + 3)%Z;
                 mret (printTabs (tabs + 2) +:+ "[" +:+ nl
                       +:+ printTabs (tabs + 3) +:+ "key = " +:+ k +:+ nl
                       +:+ printTabs (tabs + 3) +:+ "value = " +:+ v +:+ nl
                       +:+ printTabs (tabs + 2) +:+ "]" +:+ nl))
               (-1)%Z true keys;
      mret (nodeName cls.Hash +:+ "{" +:+ nl
            +:+ printTabs (tabs + 1) +:+ "pairs = [" +:+ nl +:+ pairs
            +:+ printTabs (tabs + 1) +:+ "]" +:+ nl
            +:+ printTabs tabs +:+ "}")
  | Array _ _ elems =>
      a ← lines elems;
      mret (nodeName cls.Array +:+ "{" +:+ nl
            +:+ printTabs (tabs + 1) +:+ "elems = [" +:+ nl +:+ a
            +:+ printTabs (tabs + 1) +:+ "]" +:+ nl
            +:+ printTabs tabs +:+ "}")
  | Block _ _ symbol args body =>
      a ← (if negb (SymbolRef_exists symbol)
           then lines args
           else forEach (fun argSym =>
                  mret (Symbol_toString gs argSym (tabs + 2)))
                  (Symbol_arguments gs symbol));
      b ← showRaw body (tabs + 1)%Z;
      mret (nodeName cls.Block +:+ " {" +:+ nl
            +:+ printTabs (tabs + 1) +:+ "args = [" +:+ nl +:+ a
            +:+ printTabs (tabs + 1) +:+ "]" +:+ nl
            +:+ printTabs (tabs + 1) +:+ "body = " +:+ b +:+ nl
            +:+ printTabs tabs +:+ "}")
  | RestArg _ _ expr =>
      s ← showRaw expr tabs;
      mret (nodeName cls.RestArg +:+ "{ expr = " +:+ s +:+ " }")
  | KeywordArg _ _ expr =>
      s ← showRaw expr tabs;
      mret (nodeName cls.KeywordArg +:+ "{ expr = " +:+ s +:+ " }")
  | OptionalArg _ _ expr default_ =>
      s ← showRaw expr (tabs + 1)%Z;
      d ← showRaw default_ (tabs + 1)%Z;
      mret (nodeName cls.OptionalArg +:+ "{" +:+ nl
            +:+ printTabs (tabs + 1) +:+ "expr = " +:+ s +:+ nl
            +:+ printTabs (tabs + 1) +:+ "default_ = " +:+ d +:+ nl
            +:+ printTabs tabs +:+ "}")
  | ShadowArg _ _ expr =>
      s ← showRaw expr tabs;
      mret (nodeName cls.ShadowArg +:+ "{ expr = " +:+ s +:+ " }")
  | BlockArg _ _ expr =>
      s ← showRaw expr tabs;
      mret (nodeName cls.BlockArg +:+ "{ expr = " +:+ s +:+ " }")
  end.

(** *** The printers as the spec words them

    Two definitions that follow §3 rather than the code, to compare the
    code with. *)

(** An optional branch of a [Rescue] prints nothing when it is the
    [EmptyTree] sentinel, and otherwise its keyword on a line of its own
    followed by the branch. *)
Definition Rescue_section (keyword : string) (branch : Expression) (tabs : Z)
    : Res string :=
  match branch with
  | EmptyTree _ _ => mret ""
  | _ =>
      s ← toString branch tabs;
      mret (nl +:+ printTabs (tabs - 1) +:+ keyword +:+ nl
            +:+ printTabs tabs +:+ s)
  end.

(** The keys and values of a [Hash] are parallel lists: the pairs are
    printed in order, key [i] with value [i]. *)
Definition forEachZip (pair : bool -> Expression -> Expression -> Res string)
    : bool -> list (Expression * Expression) -> Res string :=
  fix go (first : bool) (kvs : list (Expression * Expression)) {struct kvs}
      : Res string :=
    match kvs with
    | [] => mret ""
    | (key, value) :: kvs' =>
        s ← pair first key value;
        rest ← go false kvs';
        mret (s +:+ rest)
    end.

End Printing.

End Trees.

(** [unique_ptr<ast::ClassDef>]: the address of a [ClassDef] object and its
    members.  A function that is handed [classDef.get()] can change the
    members, not the address. *)
Module ClassDefPtr.
Section ClassDefPtr.
Context `{Core}.

Record members : Type := {
  loc : Loc;
  declLoc : Loc;
  symbol : SymbolRef;
  name : Expression;
  ancestors : list Expression;
  rhs : list Expression;
  kind : ClassDefKind;
}.

Record t : Type := { get : positive; obj : members }.

(** [classDef->rhs = rhs'] *)
Definition set_rhs (classDef : t) (rhs' : list Expression) : t :=
  {| get := get classDef;
     obj := {| loc := loc (obj classDef); declLoc := declLoc (obj classDef);
               symbol := symbol (obj classDef); name := name (obj classDef);
               ancestors := ancestors (obj classDef); rhs := rhs';
               kind := kind (obj classDef) |} |}.

(** The pointer as a [unique_ptr<Expression>]. *)
Definition upcast (classDef : t) : Expression :=
  ClassDef (get classDef) (loc (obj classDef)) (declLoc (obj classDef))
    (symbol (obj classDef)) (name (obj classDef)) (ancestors (obj classDef))
    (rhs (obj classDef)) (kind (obj classDef)).

End ClassDefPtr.
End ClassDefPtr.

End ast.

(** ** The rewrite driver (dsl/dsl.cc) *)

Module dsl.
Import ast.

Section Driver.
Context `{Core}.

(** Modelled from the spec: the rules ([Command], [Struct], [ChalkODMProp],
    [MixinEncryptedProp], [DSLBuilder], [AttrReader], [Sinatra],
    [InterfaceWrapper]) are not among the sources; dsl.cc only calls them.
    By §4.3 a rule is a function of the context and the statement that gives
    an ordered list of replacement statements, the empty list meaning no
    match, and leaves its input as it was.  The context is a
    [core::MutableContext], so a rule also gives the global state it leaves
    behind.  [Command::patchDSL] returns nothing and works on the [ClassDef]
    it is pointed at (§4.4 step 7), so it gives the new members;
    [InterfaceWrapper::replaceDSL] consumes a [Send] and gives one node. *)
Class Rules : Type := {
  Command_patchDSL :
    GlobalState -> ClassDefPtr.t -> ClassDefPtr.members * GlobalState;
  Struct_replaceDSL :
    GlobalState -> Expression -> list Expression * GlobalState;
  ChalkODMProp_replaceDSL :
    GlobalState -> Expression -> list Expression * GlobalState;
  MixinEncryptedProp_replaceDSL :
    GlobalState -> Expression -> list Expression * GlobalState;
  DSLBuilder_replaceDSL :
    GlobalState -> Expression -> list Expression * GlobalState;
  AttrReader_replaceDSL :
    GlobalState -> Expression -> Expression -> list Expression * GlobalState;
  Sinatra_replaceDSL :
    GlobalState -> Expression -> list Expression * GlobalState;
  InterfaceWrapper_replaceDSL :
    GlobalState -> Expression -> Expression * GlobalState;
}.
Context `{Rules}.

(** One entry per call of a rule, with the arguments of the call. *)
Inductive Call : Type :=
  | Call_Command (classDef : ClassDefPtr.t)
  | Call_Struct (assign : Expression)
  | Call_ChalkODMProp (send : Expression)
  | Call_MixinEncryptedProp (send : Expression)
  | Call_DSLBuilder (send : Expression)
  | Call_AttrReader (send prevStat : Expression)
  | Call_Sinatra (mdef : Expression)
  | Call_InterfaceWrapper (send : Expression).

(** What a run of the driver acts on: the global state behind [ctx], and
    the record of the calls made so far, oldest first.  The record is a
    probe: nothing reads it. *)
Record World : Type := { state : GlobalState; calls : list Call }.

Definition M (A : Type) : Type := World -> A * World.

#[global] Instance M_ret : MRet M := fun A a w => (a, w).
#[global] Instance M_bind : MBind M :=
  fun A B k m w => let '(a, w') := m w in k a w'.

(** A call of a rule: note it, run it on the global state. *)
Definition call {A} (c : Call) (rule : GlobalState -> A * GlobalState) : M A :=
  fun w =>
    let '(a, gs) := rule (state w) in
    (a, {| state := gs; calls := calls w ++ [c] |}).

(** [nodes.empty()] *)
Definition empty {A} (nodes : list A) : bool :=
  match nodes with
  | [] => true
  | _ => false
  end.

(** Modelled from the spec: [typecase] is declared in common/typecase.h,
    which is not among the sources.  By §4.1 it invokes exactly one handler,
    the one matching the runtime variant of the node, and a handler for any
    other [Expression] comes last: the handlers are tried in the order
    written and the first whose parameter class the object has is run on the
    cast pointer.  [skip] is running no handler, which is all there is for
    [nullptr]. *)
Fixpoint typecase {R} (e : Expression)
    (handlers : list (cls.t * (Expression -> R))) (skip : R) : R :=
  match handlers with
  | [] => skip
  | (T, handler) :: rest =>
      if nonnull (cast_tree T e) then handler (cast_tree T e)
      else typecase e rest skip
  end.

(** The four handlers of the [typecase] in the loop of
    [postTransformClassDef].  A handler changes the captured [replaceNodes];
    [return] ends the handler. *)
Definition handlers (stat prevStat : Expression)
    (replaceNodes : gmap N (list Expression))
    : list (cls.t * (Expression -> M (gmap N (list Expression)))) :=
  [ (cls.Assign, fun assign =>
       nodes ← call (Call_Struct assign)
                 (fun ctx => Struct_replaceDSL ctx assign);
       if negb (empty nodes) then mret (<[ast.get stat := nodes]> replaceNodes)
       else mret replaceNodes);
    (cls.Send, fun send =>
       nodes ← call (Call_ChalkODMProp send)
                 (fun ctx => ChalkODMProp_replaceDSL ctx send);
       if negb (empty nodes) then mret (<[ast.get stat := nodes]> replaceNodes)
       else
       nodes ← call (Call_MixinEncryptedProp send)
                 (fun ctx => MixinEncryptedProp_replaceDSL ctx send);
       if negb (empty nodes) then mret (<[ast.get stat := nodes]> replaceNodes)
       else
       nodes ← call (Call_DSLBuilder send)
                 (fun ctx => DSLBuilder_replaceDSL ctx send);
       if negb (empty nodes) then mret (<[ast.get stat := nodes]> replaceNodes)
       else
       nodes ← call (Call_AttrReader send prevStat)
                 (fun ctx => AttrReader_replaceDSL ctx send prevStat);
       if negb (empty nodes) then mret (<[ast.get stat := nodes]> replaceNodes)
       else mret replaceNodes);
    (cls.MethodDef, fun mdef =>
       nodes ← call (Call_Sinatra mdef)
                 (fun ctx => Sinatra_replaceDSL ctx mdef);
       if negb (empty nodes) then mret (<[ast.get stat := nodes]> replaceNodes)
       else mret replaceNodes);
    (cls.Expression, fun e => mret replaceNodes) ].

(** One turn of the loop over [classDef->rhs], up to [prevStat = stat.get()]. *)
Definition classDef_stat (stat prevStat : Expression)
    (replaceNodes : gmap N (list Expression))
    : M (gmap N (list Expression)) :=
  typecase stat (handlers stat prevStat replaceNodes) (mret replaceNodes).

(** The loop over [classDef->rhs]; it gives the final [prevStat] and
    [replaceNodes]. *)
Fixpoint classDef_scan (rhs : list Expression) (prevStat : Expression)
    (replaceNodes : gmap N (list Expression))
    : M (Expression * gmap N (list Expression)) :=
  match rhs with
  | [] => mret (prevStat, replaceNodes)
  | stat :: rhs' =>
      replaceNodes ← classDef_stat stat prevStat replaceNodes;
      classDef_scan rhs' stat replaceNodes
  end.

(** The second loop, over [oldRHS]: [emplace_back] puts one node at the end
    of [classDef->rhs].  [std::move] hands a pointer over; the slot it leaves
    behind is not read again. *)
Definition classDef_rebuild (replaceNodes : gmap N (list Expression))
    (oldRHS : list Expression) : list Expression :=
  fold_left (fun rhs stat =>
    match replaceNodes !! ast.get stat with
    | Some nodes => fold_left (fun rhs newNode => rhs ++ [newNode]) nodes rhs
    | None => rhs ++ [stat]
    end) oldRHS [].

(** What a statement gives to the rebuilt body: one turn of the second
    loop. *)
Definition contribution (replaceNodes : gmap N (list Expression))
    (stat : Expression) : list Expression :=
  match replaceNodes !! ast.get stat with
  | Some nodes => nodes
  | None => [stat]
  end.

Definition postTransformClassDef (classDef : ClassDefPtr.t) : M ClassDefPtr.t :=
  members ← call (Call_Command classDef)
              (fun ctx => Command_patchDSL ctx classDef);
  let classDef := {| ClassDefPtr.get := ClassDefPtr.get classDef;
                     ClassDefPtr.obj := members |} in
  '(_, replaceNodes) ←
    classDef_scan (ClassDefPtr.rhs (ClassDefPtr.obj classDef)) nullptr ∅;
  if bool_decide (replaceNodes = ∅) then mret classDef
  else
    let oldRHS := ClassDefPtr.rhs (ClassDefPtr.obj classDef) in
    mret (ClassDefPtr.set_rhs classDef (classDef_rebuild replaceNodes oldRHS)).

Definition postTransformSend (send : Expression) : M Expression :=
  call (Call_InterfaceWrapper send)
    (fun ctx => InterfaceWrapper_replaceDSL ctx send).

(** [for (auto &x : xs) { x = f(std::move(x)); }] *)
Definition mapM {A B} (f : A -> M B) : list A -> M (list B) :=
  fix go (xs : list A) : M (list B) :=
    match xs with
    | [] => mret []
    | x :: xs' => y ← f x; ys ← go xs'; mret (y :: ys)
    end.

(** Modelled from the spec: [ast::TreeMap] (ast/treemap/treemap.h) is not
    among the sources.  By §4.2 the engine walks the owned tree bottom-up:
    the children of a node are transformed first, each taking the place of
    the child it came from, and then the hook of the node's kind runs on the
    node with its transformed children and gives the node that takes its
    place.  [DSLReplacer] has two hooks, [postTransformClassDef] and
    [postTransformSend]; a node of another kind stays.  The children are
    taken in the order of the members; there is nothing to walk behind
    [nullptr]. *)
Fixpoint mapIt (what : Expression) : M Expression :=
  match what with
  | nullptr => mret nullptr
  | ClassDef this loc declLoc symbol name ancestors rhs kind =>
      name ← mapIt name;
      ancestors ← mapM mapIt ancestors;
      rhs ← mapM mapIt rhs;
      classDef ← postTransformClassDef
                   {| ClassDefPtr.get := this;
                      ClassDefPtr.obj :=
                        {| ClassDefPtr.loc := loc; ClassDefPtr.declLoc := declLoc;
                           ClassDefPtr.symbol := symbol; ClassDefPtr.name := name;
                           ClassDefPtr.ancestors := ancestors;
                           ClassDefPtr.rhs := rhs; ClassDefPtr.kind := kind |} |};
      mret (ClassDefPtr.upcast classDef)
  | MethodDef this loc declLoc symbol name args rhs flags =>
      args ← mapM mapIt args;
      rhs ← mapIt rhs;
      mret (MethodDef this loc declLoc symbol name args rhs flags)
  | If this loc cond thenp elsep =>
      cond ← mapIt cond;
      thenp ← mapIt thenp;
      elsep ← mapIt elsep;
      mret (If this loc cond thenp elsep)
  | While this loc cond body =>
      cond ← mapIt cond;
      body ← mapIt body;
      mret (While this loc cond body)
  | Break this loc expr =>
      expr ← mapIt expr;
      mret (Break this loc expr)
  | Retry this loc => mret (Retry this loc)
  | Next this loc expr =>
      expr ← mapIt expr;
      mret (Next this loc expr)
  | Return this loc expr =>
      expr ← mapIt expr;
      mret (Return this loc expr)
  | Yield this loc args =>
      args ← mapM mapIt args;
      mret (Yield this loc args)
  | RescueCase this loc exceptions var body =>
      exceptions ← mapM mapIt exceptions;
      var ← mapIt var;
      body ← mapIt body;
      mret (RescueCase this loc exceptions var body)
  | Rescue this loc body rescueCases else_ ensure =>
      body ← mapIt body;
      rescueCases ← mapM mapIt rescueCases;
      else_ ← mapIt else_;
      ensure ← mapIt ensure;
      mret (Rescue this loc body rescueCases else_ ensure)
  | Field this loc symbol => mret (Field this loc symbol)
  | Local this loc localVariable => mret (Local this loc localVariable)
  | UnresolvedIdent this loc kind name => mret (UnresolvedIdent this loc kind name)
  | Assign this loc lhs rhs =>
      lhs ← mapIt lhs;
      rhs ← mapIt rhs;
      mret (Assign this loc lhs rhs)
  | Send this loc recv fun_ args block =>
      recv ← mapIt recv;
      args ← mapM mapIt args;
      block ← mapIt block;
      postTransformSend (Send this loc recv fun_ args block)
  | Cast this loc type arg cast =>
      arg ← mapIt arg;
      mret (Cast this loc type arg cast)
  | ZSuperArgs this loc => mret (ZSuperArgs this loc)
  | RestArg this loc expr =>
      expr ← mapIt expr;
      mret (RestArg this loc expr)
  | KeywordArg this loc expr =>
      expr ← mapIt expr;
      mret (KeywordArg this loc expr)
  | OptionalArg this loc expr default_ =>
      expr ← mapIt expr;
      default_ ← mapIt default_;
      mret (OptionalArg this loc expr default_)
  | ShadowArg this loc expr =>
      expr ← mapIt expr;
      mret (ShadowArg this loc expr)
  | BlockArg this loc expr =>
      expr ← mapIt expr;
      mret (BlockArg this loc expr)
  | Literal this loc value => mret (Literal this loc value)
  | UnresolvedConstantLit this loc scope cnst =>
      scope ← mapIt scope;
      mret (UnresolvedConstantLit this loc scope cnst)
  | ConstantLit this loc symbol original typeAlias =>
      original ← mapIt original;
      typeAlias ← mapIt typeAlias;
      mret (ConstantLit this loc symbol original typeAlias)
  | Self this loc claz => mret (Self this loc claz)
  | Block this loc symbol args body =>
      args ← mapM mapIt args;
      body ← mapIt body;
      mret (Block this loc symbol args body)
  | Hash this loc keys values =>
      keys ← mapM mapIt keys;
      values ← mapM mapIt values;
      mret (Hash this loc keys values)
  | Array this loc elems =>
      elems ← mapM mapIt elems;
      mret (Array this loc elems)
  | InsSeq this loc stats expr =>
      stats ← mapM mapIt stats;
      expr ← mapIt expr;
      mret (InsSeq this loc stats expr)
  | EmptyTree this loc => mret (EmptyTree this loc)
  end.

(** [DSL::run] *)
Definition run (tree : Expression) : M Expression := mapIt tree.

(** The addresses of the [Send] nodes of a tree, children before parents
    and the children in the order of the members. *)
Fixpoint Send_nodes (e : Expression) : list N :=
  match e with
  | nullptr => []
  | ClassDef _ _ _ _ name ancestors rhs _ =>
      Send_nodes name ++ flat_map Send_nodes ancestors ++
      flat_map Send_nodes rhs
  | MethodDef _ _ _ _ _ args rhs _ =>
      flat_map Send_nodes args ++ Send_nodes rhs
  | If _ _ cond thenp elsep =>
      Send_nodes cond ++ Send_nodes thenp ++ Send_nodes elsep
  | While _ _ cond body =>
      Send_nodes cond ++ Send_nodes body
  | Break _ _ expr =>
      Send_nodes expr
  | Retry _ _ => []
  | Next _ _ expr =>
      Send_nodes expr
  | Return _ _ expr =>
      Send_nodes expr
  | Yield _ _ args =>
      flat_map Send_nodes args
  | RescueCase _ _ exceptions var body =>
      flat_map Send_nodes exceptions ++ Send_nodes var ++ Send_nodes body
  | Rescue _ _ body rescueCases else_ ensure =>
      Send_nodes body ++ flat_map Send_nodes rescueCases ++
      Send_nodes else_ ++ Send_nodes ensure
  | Field _ _ _ => []
  | Local _ _ _ => []
  | UnresolvedIdent _ _ _ _ => []
  | Assign _ _ lhs rhs =>
      Send_nodes lhs ++ Send_nodes rhs
  | Send this _ recv _ args block =>
      Send_nodes recv ++ flat_map Send_nodes args ++ Send_nodes block ++
      [Npos this]
  | Cast _ _ _ arg _ =>
      Send_nodes arg
  | ZSuperArgs _ _ => []
  | RestArg _ _ expr =>
      Send_nodes expr
  | KeywordArg _ _ expr =>
      Send_nodes expr
  | OptionalArg _ _ expr default_ =>
      Send_nodes expr ++ Send_nodes default_
  | ShadowArg _ _ expr =>
      Send_nodes expr
  | BlockArg _ _ expr =>
      Send_nodes expr
  | Literal _ _ _ => []
  | UnresolvedConstantLit _ _ scope _ =>
      Send_nodes scope
  | ConstantLit _ _ _ original typeAlias =>
      Send_nodes original ++ Send_nodes typeAlias
  | Self _ _ _ => []
  | Block _ _ _ args body =>
      flat_map Send_nodes args ++ Send_nodes body
  | Hash _ _ keys values =>
      flat_map Send_nodes keys ++ flat_map Send_nodes values
  | Array _ _ elems =>
      flat_map Send_nodes elems
  | InsSeq _ _ stats expr =>
      flat_map Send_nodes stats ++ Send_nodes expr
  | EmptyTree _ _ => []
  end.

(** *** The pass as §4.4 words it

    A second description of the class-body pass, written after the steps of
    §4.4 and not after dsl.cc, to compare the code with. *)

(** Step 2: the rules that apply to a statement, by its kind, in their
    fixed order. *)
Definition rule_sequence (stat prevStat : Expression)
    : list (M (list Expression)) :=
  if isa cls.Assign stat then
    [ call (Call_Struct stat) (fun ctx => Struct_replaceDSL ctx stat) ]
  else if isa cls.Send stat then
    [ call (Call_ChalkODMProp stat)
        (fun ctx => ChalkODMProp_replaceDSL ctx stat);
      call (Call_MixinEncryptedProp stat)
        (fun ctx => MixinEncryptedProp_replaceDSL ctx stat);
      call (Call_DSLBuilder stat)
        (fun ctx => DSLBuilder_replaceDSL ctx stat);
      call (Call_AttrReader stat prevStat)
        (fun ctx => AttrReader_replaceDSL ctx stat prevStat) ]
  else if isa cls.MethodDef stat then
    [ call (Call_Sinatra stat) (fun ctx => Sinatra_replaceDSL ctx stat) ]
  else [].

(** Step 3: the first rule that gives a non-empty list wins, and the rules
    after it are skipped. *)
Fixpoint first_match (rules : list (M (list Expression)))
    : M (list Expression) :=
  match rules with
  | [] => mret []
  | rule :: rest =>
      nodes ← rule;
      if empty nodes then first_match rest else mret nodes
  end.

(** Steps 1 to 6: the body in its order, each statement giving way to its
    replacement list, or standing for itself when no rule matched;
    [prevStat] is the statement before, as it was. *)
Fixpoint splice (rhs : list Expression) (prevStat : Expression)
    : M (list Expression) :=
  match rhs with
  | [] => mret []
  | stat :: rhs' =>
      nodes ← first_match (rule_sequence stat prevStat);
      rest ← splice rhs' stat;
      mret ((if empty nodes then [stat] else nodes) ++ rest)
  end.

(** "Every rule returns an empty list for every statement" of a body. *)
Definition no_rule_matches (rhs : list Expression) : Prop :=
  forall stat, stat ∈ rhs ->
  forall (ctx : GlobalState) (prevStat : Expression),
    (Struct_replaceDSL ctx stat).1 = []
    /\ (ChalkODMProp_replaceDSL ctx stat).1 = []
    /\ (MixinEncryptedProp_replaceDSL ctx stat).1 = []
    /\ (DSLBuilder_replaceDSL ctx stat).1 = []
    /\ (AttrReader_replaceDSL ctx stat prevStat).1 = []
    /\ (Sinatra_replaceDSL ctx stat).1 = [].

(** *** Probes *)

(** Which handlers a [typecase] over handlers of the given parameter classes
    runs on [e]: the handler at position [i] leaves [i]. *)
Definition dispatched (e : Expression) (classes : list cls.t) : list nat :=
  typecase e (imap (fun i T => (T, fun _ : Expression => [i])) classes) [].

(** The arguments of the calls of [AttrReader::replaceDSL] in a record. *)
Definition AttrReader_calls (cs : list Call) : list (Expression * Expression) :=
  omap (fun c => match c with
                 | Call_AttrReader send prevStat => Some (send, prevStat)
                 | _ => None
                 end) cs.

(** The addresses of the nodes [InterfaceWrapper::replaceDSL] was called
    on. *)
Definition InterfaceWrapper_calls (cs : list Call) : list N :=
  omap (fun c => match c with
                 | Call_InterfaceWrapper send => Some (ast.get send)
                 | _ => None
                 end) cs.

(** [logs m l]: running [m] adds calls of [InterfaceWrapper::replaceDSL] on
    the nodes at the addresses [l], in this order, and on no other. *)
Definition logs {A} (m : M A) (l : list N) : Prop :=
  forall w, InterfaceWrapper_calls (calls (m w).2)
            = InterfaceWrapper_calls (calls w) ++ l.

(** Whether a call belongs to the turn of the loop for [stat]: a call of a
    rule of the kind of [stat], on [stat] (and [prevStat]). *)
Definition call_of_stat (stat prevStat : Expression) (c : Call) : Prop :=
  match c with
  | Call_Struct assign => assign = stat /\ isa cls.Assign stat = true
  | Call_ChalkODMProp send | Call_MixinEncryptedProp send
  | Call_DSLBuilder send => send = stat /\ isa cls.Send stat = true
  | Call_AttrReader send prev =>
      send = stat /\ prev = prevStat /\ isa cls.Send stat = true
  | Call_Sinatra mdef => mdef = stat /\ isa cls.MethodDef stat = true
  | Call_Command _ | Call_InterfaceWrapper _ => False
  end.

(** [recorded rhs replaceNodes]: every entry of [replaceNodes] is a list
    that is not empty, under the address of an [Assign], [Send] or
    [MethodDef] statement of [rhs]. *)
Definition recorded (rhs : list Expression)
    (replaceNodes : gmap N (list Expression)) : Prop :=
  forall k nodes,
    replaceNodes !! k = Some nodes ->
    nodes <> []
    /\ exists stat,
         stat ∈ rhs /\ ast.get stat = k
         /\ isa cls.Assign stat || isa cls.Send stat || isa cls.MethodDef stat
            = true.

End Driver.
End dsl.

(** ** Exceptions (common/Exception.h) *)

Module exception.

(** What a call of [Exception::raise] leaves behind: the line it writes to
    [fatalLogger], and the message of the [SorbetException] it throws.  It
    never returns.  [failInFuzzer], [print_backtrace] and [stopInDebugger]
    are declared elsewhere and touch neither. *)
Record Raised : Type := { logged : string; what : string }.

(** [absl::StrCat] of arguments that are text already. *)
Definition StrCat (args : list string) : string :=
  foldr String.append "" args.

(** [std::to_string] of an [int]. *)
Definition to_string (line : Z) : string := pretty line.

(** [Exception::raise(args...)] *)
Definition raise (args : list string) : Raised :=
  let message := StrCat ("" :: args) in
  {| logged :=
       if (0 <? String.length message)%nat
       then "Exception::raise(): " +:+ message +:+ ast.nl
       else "Exception::raise() (sadly without a message)" +:+ ast.nl;
     what := message |}.

(** [Exception::notImplemented()] *)
Definition notImplemented : Raised := raise ["Not Implemented"].

(** [Exception::enforce_handler(check, file, line, args...)] *)
Definition enforce_handler (check file : string) (line : Z)
    (args : list string) : Raised :=
  raise ((file +:+ ":" +:+ to_string line)
         :: " enforced condition " :: check :: " has failed: " :: args).

End exception.

(** ** Shapes of trees

    Predicates and functions on trees that the properties of the printers
    are stated with. *)

Module shape.
Import ast.

(** [okay r]: [r] is a value, not a fault. *)
Definition okay {A} (r : Res A) : Prop := exists a, r = Ok a.

Section Shape.
Context `{Core}.

(** A tree in which every pointer the printers go through is set: no child
    is null, but for the block of a [Send] and the two children of a
    [ConstantLit], which the printers test; a [ConstantLit] has a symbol, a
    type alias or an original; a [Hash] has as many values as keys. *)
Fixpoint printable (e : Expression) : bool :=
  match e with
  | nullptr => false
  | ClassDef _ _ _ _ name ancestors rhs _ =>
      printable name && forallb printable ancestors && forallb printable rhs
  | MethodDef _ _ _ _ _ args rhs _ =>
      forallb printable args && printable rhs
  | If _ _ cond thenp elsep =>
      printable cond && printable thenp && printable elsep
  | While _ _ cond body =>
      printable cond && printable body
  | Break _ _ expr =>
      printable expr
  | Retry _ _ => true
  | Next _ _ expr =>
      printable expr
  | Return _ _ expr =>
      printable expr
  | Yield _ _ args =>
      forallb printable args
  | RescueCase _ _ exceptions var body =>
      forallb printable exceptions && printable var && printable body
  | Rescue _ _ body rescueCases else_ ensure =>
      printable body && forallb printable rescueCases && printable else_ &&
      printable ensure
  | Field _ _ _ => true
  | Local _ _ _ => true
  | UnresolvedIdent _ _ _ _ => true
  | Assign _ _ lhs rhs =>
      printable lhs && printable rhs
  | Send _ _ recv _ args block =>
      printable recv && forallb printable args &&
      (negb (nonnull block) || printable block)
  | Cast _ _ _ arg _ =>
      printable arg
  | ZSuperArgs _ _ => true
  | RestArg _ _ expr =>
      printable expr
  | KeywordArg _ _ expr =>
      printable expr
  | OptionalArg _ _ expr default_ =>
      printable expr && printable default_
  | ShadowArg _ _ expr =>
      printable expr
  | BlockArg _ _ expr =>
      printable expr
  | Literal _ _ _ => true
  | UnresolvedConstantLit _ _ scope _ =>
      printable scope
  | ConstantLit _ _ symbol original typeAlias =>
      (negb (nonnull original) || printable original) &&
      (negb (nonnull typeAlias) || printable typeAlias) &&
      (SymbolRef_exists symbol || nonnull typeAlias || nonnull original)
  | Self _ _ _ => true
  | Block _ _ _ args body =>
      forallb printable args && printable body
  | Hash _ _ keys values =>
      forallb printable keys && forallb printable values &&
      bool_decide (length keys = length values)
  | Array _ _ elems =>
      forallb printable elems
  | InsSeq _ _ stats expr =>
      forallb printable stats && printable expr
  | EmptyTree _ _ => true
  end.

(** The tree with every address and every location wiped out. *)
Fixpoint erase (e : Expression) : Expression :=
  match e with
  | nullptr => nullptr
  | ClassDef _ _ _ symbol name ancestors rhs kind =>
      ClassDef 1 Loc_none Loc_none symbol (erase name)
        (map erase ancestors) (map erase rhs) kind
  | MethodDef _ _ _ symbol name args rhs flags =>
      MethodDef 1 Loc_none Loc_none symbol name (map erase args)
        (erase rhs) flags
  | If _ _ cond thenp elsep =>
      If 1 Loc_none (erase cond) (erase thenp) (erase elsep)
  | While _ _ cond body =>
      While 1 Loc_none (erase cond) (erase body)
  | Break _ _ expr =>
      Break 1 Loc_none (erase expr)
  | Retry _ _ =>
      Retry 1 Loc_none
  | Next _ _ expr =>
      Next 1 Loc_none (erase expr)
  | Return _ _ expr =>
      Return 1 Loc_none (erase expr)
  | Yield _ _ args =>
      Yield 1 Loc_none (map erase args)
  | RescueCase _ _ exceptions var body =>
      RescueCase 1 Loc_none (map erase exceptions) (erase var) (erase body)
  | Rescue _ _ body rescueCases else_ ensure =>
      Rescue 1 Loc_none (erase body) (map erase rescueCases) (erase else_)
        (erase ensure)
  | Field _ _ symbol =>
      Field 1 Loc_none symbol
  | Local _ _ localVariable =>
      Local 1 Loc_none localVariable
  | UnresolvedIdent _ _ kind name =>
      UnresolvedIdent 1 Loc_none kind name
  | Assign _ _ lhs rhs =>
      Assign 1 Loc_none (erase lhs) (erase rhs)
  | Send _ _ recv fun_ args block =>
      Send 1 Loc_none (erase recv) fun_ (map erase args) (erase block)
  | Cast _ _ type arg cast =>
      Cast 1 Loc_none type (erase arg) cast
  | ZSuperArgs _ _ =>
      ZSuperArgs 1 Loc_none
  | RestArg _ _ expr =>
      RestArg 1 Loc_none (erase expr)
  | KeywordArg _ _ expr =>
      KeywordArg 1 Loc_none (erase expr)
  | OptionalArg _ _ expr default_ =>
      OptionalArg 1 Loc_none (erase expr) (erase default_)
  | ShadowArg _ _ expr =>
      ShadowArg 1 Loc_none (erase expr)
  | BlockArg _ _ expr =>
      BlockArg 1 Loc_none (erase expr)
  | Literal _ _ value =>
      Literal 1 Loc_none value
  | UnresolvedConstantLit _ _ scope cnst =>
      UnresolvedConstantLit 1 Loc_none (erase scope) cnst
  | ConstantLit _ _ symbol original typeAlias =>
      ConstantLit 1 Loc_none symbol (erase original) (erase typeAlias)
  | Self _ _ claz =>
      Self 1 Loc_none claz
  | Block _ _ symbol args body =>
      Block 1 Loc_none symbol (map erase args) (erase body)
  | Hash _ _ keys values =>
      Hash 1 Loc_none (map erase keys) (map erase values)
  | Array _ _ elems =>
      Array 1 Loc_none (map erase elems)
  | InsSeq _ _ stats expr =>
      InsSeq 1 Loc_none (map erase stats) (erase expr)
  | EmptyTree _ _ =>
      EmptyTree 1 Loc_none
  end.

(** [cast_tree<ShadowArg>(a.get())] is not null. *)
Definition is_ShadowArg (a : Expression) : bool :=
  nonnull (cast_tree cls.ShadowArg a).

(** The separators of a printed argument list, told apart by position:
    nothing before the first element, ["; "] before the first [ShadowArg]
    that is not the first element, [", "] before every other. *)
Definition separator (args : list Expression) (i : nat) : string :=
  match i with
  | O => ""
  | S j =>
      match list_find (fun a => is_ShadowArg a = true) (tail args) with
      | Some (k, _) => if decide (k = j) then "; " else ", "
      | None => ", "
      end
  end.

(** The texts of the elements with their separators, put together. *)
Definition joined (args : list Expression) (texts : list string) : string :=
  foldr String.append "" (imap (fun i s => separator args i +:+ s) texts).

End Shape.
End shape.

(** ** A small instance

    Names, symbols and types are strings and numbers; it serves to run the
    definitions on concrete trees. *)

Module demo.
Import ast dsl.

#[export] Instance core : Core := {|
  GlobalState := list string;
  Loc := Z;
  SymbolRef := nat;
  NameRef := string;
  LocalVariable := string;
  TypePtr := string;
  Loc_none := (-1)%Z;
  SymbolRef_default := 0;
  Symbols_todo := 1;
  Symbols_NilClass := 2;
  Symbols_FalseClass := 3;
  Symbols_TrueClass := 4;
  SymbolRef_exists := fun s => negb (Nat.eqb s 0);
  NameRef_exists := fun n => negb (String.eqb n "");
  Symbol_name := fun _ _ => "sym";
  Symbol_fullName := fun _ _ => "Sym";
  Symbol_arguments := fun _ _ => [];
  Symbol_isBlockArgument := fun _ _ => false;
  Symbol_isRepeated := fun _ _ => false;
  Symbol_isKeyword := fun _ _ => false;
  Symbol_toString := fun _ _ _ => "sym";
  Name_toString := fun _ n => n;
  NameRef_toString := fun _ n => n;
  LocalVariable_toString := fun _ v => v;
  Type_kind := fun _ => IsLiteralType;
  LiteralType_showValue := fun _ t => t;
  Type_toString := fun _ t _ => t;
  SelfMethod := 1;
  DSLSynthesized := 2;
|}.

(** A location of the instance. *)
Definition L (z : Z) : Loc := z.

(** A global state of the instance. *)
Definition gs0 : GlobalState := [].

(** [def name; <emptyTree>; end], a node a rule makes. *)
Definition method (this : positive) (name : string) : Expression :=
  MethodDef this (L 0) (L 0) 0 name [] (EmptyTree (this + 1) (L (-1))) 2.

(** The name a [Send] calls. *)
Definition fun_of (send : Expression) : string :=
  match send with
  | Send _ _ _ fun_ _ _ => fun_
  | _ => ""
  end.

Definition this_of (e : Expression) : positive :=
  match ast.get e with
  | Npos this => this
  | N0 => 1
  end.

(** Rules of the instance.  A rule that matches leaves its name in the
    global state.  [prop] is matched by [ChalkODMProp] and by [DSLBuilder];
    [attr_reader] by [AttrReader], which gives a signature as well when the
    statement before is a [sig]. *)
#[export] Instance rules : Rules := {|
  Command_patchDSL := fun gs classDef => (ClassDefPtr.obj classDef, gs);
  Struct_replaceDSL := fun gs _ => ([], gs);
  ChalkODMProp_replaceDSL := fun gs send =>
    if String.eqb (fun_of send) "prop"
    then ([method (this_of send + 100) "getter";
           method (this_of send + 200) "setter"], gs ++ ["ChalkODMProp"])
    else ([], gs);
  MixinEncryptedProp_replaceDSL := fun gs send =>
    if String.eqb (fun_of send) "encrypted_prop"
    then ([method (this_of send + 100) "encrypted"],
          gs ++ ["MixinEncryptedProp"])
    else ([], gs);
  DSLBuilder_replaceDSL := fun gs send =>
    if String.eqb (fun_of send) "prop" || String.eqb (fun_of send) "dsl_optional"
    then ([method (this_of send + 100) "builder"], gs ++ ["DSLBuilder"])
    else ([], gs);
  AttrReader_replaceDSL := fun gs send prevStat =>
    if String.eqb (fun_of send) "attr_reader"
    then ((if String.eqb (fun_of prevStat) "sig"
           then [method (this_of send + 300) "sig"] else [])
          ++ [method (this_of send + 100) "reader"], gs ++ ["AttrReader"])
    else ([], gs);
  Sinatra_replaceDSL := fun gs _ => ([], gs);
  InterfaceWrapper_replaceDSL := fun gs send => (send, gs);
|}.

(** [self.fun_()] at address [this]. *)
Definition send (this : positive) (fun_ : string) : Expression :=
  Send this (L 0) (Self (this + 1) (L 0) 0) fun_ [] nullptr.

(** [@x = 1] at address [this]. *)
Definition assign (this : positive) : Expression :=
  Assign this (L 0) (Field (this + 1) (L 0) 5) (Literal (this + 2) (L 0) "1").

(** A class with the given body. *)
Definition class_ (this : positive) (rhs : list Expression) : ClassDefPtr.t :=
  {| ClassDefPtr.get := this;
     ClassDefPtr.obj :=
       {| ClassDefPtr.loc := L 0; ClassDefPtr.declLoc := L 0;
          ClassDefPtr.symbol := 6;
          ClassDefPtr.name := EmptyTree (this + 1) (L (-1));
          ClassDefPtr.ancestors := []; ClassDefPtr.rhs := rhs;
          ClassDefPtr.kind := Class_ |} |}.

(** The world a run starts in. *)
Definition w0 : World := {| state := gs0; calls := [] |}.

(** [x], a local variable, and the sentinel. *)
Definition x : Expression := Local 40 (L 0) "x".
Definition none : Expression := EmptyTree 41 (L (-1)).

(** [@x = 1; prop; other]: the second statement is a property. *)
Definition body1 : list Expression :=
  [assign 10; send 20 "prop"; send 30 "other"].

(** [@x = 1; other]: no rule matches. *)
Definition body2 : list Expression := [assign 10; send 30 "other"].

(** [prop; 1; other]: a literal between two statements. *)
Definition lit : Expression := Literal 50 (L 0) "1".
Definition body3 : list Expression := [send 20 "prop"; lit; send 30 "other"].

(** [sig; attr_reader] *)
Definition body4 : list Expression := [send 20 "sig"; send 30 "attr_reader"].

(** A class with two sends, one the receiver of the other. *)
Definition tree1 : Expression :=
  ClassDefPtr.upcast
    (class_ 1 [Send 20 (L 0) (send 30 "other") "prop" [] nullptr]).

End demo.

(** ** An instance with resolved symbols

    As the small instance, but the symbol 6 has two arguments: 7, named
    [a] and repeated, and 8, named [b] and a keyword. *)

Module resolved.
Import ast.

#[local] Instance core : Core := {|
  GlobalState := list string;
  Loc := Z;
  SymbolRef := nat;
  NameRef := string;
  LocalVariable := string;
  TypePtr := string;
  Loc_none := (-1)%Z;
  SymbolRef_default := 0;
  Symbols_todo := 1;
  Symbols_NilClass := 2;
  Symbols_FalseClass := 3;
  Symbols_TrueClass := 4;
  SymbolRef_exists := fun s => negb (Nat.eqb s 0);
  NameRef_exists := fun n => negb (String.eqb n "");
  Symbol_name := fun _ s =>
    if Nat.eqb s 7 then "a" else if Nat.eqb s 8 then "b" else "sym";
  Symbol_fullName := fun _ _ => "Sym";
  Symbol_arguments := fun _ s => if Nat.eqb s 6 then [7; 8] else [];
  Symbol_isBlockArgument := fun _ _ => false;
  Symbol_isRepeated := fun _ s => Nat.eqb s 7;
  Symbol_isKeyword := fun _ s => Nat.eqb s 8;
  Symbol_toString := fun _ s _ =>
    if Nat.eqb s 7 then "arg a;" else if Nat.eqb s 8 then "arg b;" else "sym";
  Name_toString := fun _ n => n;
  NameRef_toString := fun _ n => n;
  LocalVariable_toString := fun _ v => v;
  Type_kind := fun _ => IsLiteralType;
  LiteralType_showValue := fun _ t => t;
  Type_toString := fun _ t _ => t;
  SelfMethod := 1;
  DSLSynthesized := 2;
|}.

Definition gs0 : GlobalState := [].

(** The symbol with the two arguments. *)
Definition symbol : SymbolRef := 6.

Definition none : Expression := EmptyTree 41 (-1)%Z.

(** [def m; end] and a block, with the symbol 6 and the given argument
    nodes. *)
Definition mdef (args : list Expression) : Expression :=
  MethodDef 7 0%Z 0%Z symbol "m" args none 0.

Definition block (args : list Expression) : Expression :=
  Block 7 0%Z symbol args none.

(** Argument nodes that cannot be printed. *)
Definition null_args : list Expression := [nullptr].

End resolved.

(** ** Properties of the tree *)

Section TreeFacts.
Context `{Core}.
Import ast.

(** C10: the constructor of [EmptyTree] takes no location and gives the
    node the location [core::Loc::none()]; it always succeeds.  The
    constructor of every other class takes a location, and the node comes
    out with the location the caller handed in. *)
Theorem EmptyTree_loc_none (this : positive) (n : New) :
  class_of (init this n) = Some (New_class n)
  /\ (New_class n = cls.EmptyTree ->
      New_loc n = None
      /\ loc (init this n) = Some Loc_none
      /\ construct this n = Ok (init this n))
  /\ (New_class n <> cls.EmptyTree ->
      exists l, New_loc n = Some l /\ loc (init this n) = Some l)
  /\ (forall e, construct this n = Ok e -> e = init this n).
Proof.
  split_and!.
  - by destruct n.
  - by destruct n.
  - destruct n; try done; eauto.
  - unfold construct. intros e. by destruct (_sanityCheck (init this n)); intros [=].
Qed.

Lemma cast_tree_EmptyTree (e : Expression) :
  nonnull (cast_tree cls.EmptyTree e) = bool_decide (class_of e = Some cls.EmptyTree).
Proof. by destruct e. Qed.

Lemma at_index_drop {A B} (values : list A) (i : Z) (k : A -> Res B) v rest :
  (0 <= i)%Z -> drop (Z.to_nat i) values = v :: rest -> at_index values i k = k v.
Proof.
  intros Hi. unfold at_index.
  destruct (Z.ltb_spec i 0) as [|_]; [lia|].
  generalize (Z.to_nat i). clear Hi i.
  induction values as [|x xs IH]; intros [|n] Hd; simplify_eq/=; eauto.
Qed.

Lemma forEachPair_zip values pair (i : Z) first keys :
  (-1 <= i)%Z ->
  length keys = length (drop (Z.to_nat (i + 1)) values) ->
  forEachPair values pair i first keys
  = forEachZip pair first (zip keys (drop (Z.to_nat (i + 1)) values)).
Proof.
  revert i first. induction keys as [|key keys IH]; intros i first Hi Hlen.
  - reflexivity.
  - cbn [forEachPair].
    destruct (drop (Z.to_nat (i + 1)) values) as [|v rest] eqn:Hd; [done|].
    rewrite (at_index_drop values (i + 1) _ v rest) by (done || lia).
    assert (Hrest : drop (Z.to_nat (i + 1 + 1)) values = rest).
    { replace (Z.to_nat (i + 1 + 1)) with (S (Z.to_nat (i + 1))) by lia.
      change (S (Z.to_nat (i + 1))) with (1 + Z.to_nat (i + 1))%nat.
      rewrite Nat.add_comm, <-drop_drop, Hd. done. }
    cbn [zip_with forEachZip]. rewrite IH by (rewrite ?Hrest; simplify_eq/=; done || lia).
    by rewrite Hrest.
Qed.

Lemma append_empty_r (s : string) : s +:+ "" = s.
Proof.
  induction s as [|c s IH]; [done|].
  change (String c (s +:+ "") = String c s). by rewrite IH.
Qed.

Lemma section_nonempty (m : Res string) (f : string -> string) :
  (s ← m; mret (nl +:+ f s)) <> Ok "".
Proof. by destruct m. Qed.

Section Printed.
Variable gs : GlobalState.

(** C7: a [Rescue] that comes out of its constructor has an else and an
    ensure branch that are not null; [Rescue::toString] prints the body, the
    rescue cases, an "else" section and an "ensure" section, and the section
    of a branch is empty exactly when the branch is the [EmptyTree]
    sentinel; otherwise it is the keyword on its own line and the branch. *)
Theorem Rescue_sections (this : positive) (l : Loc) (body : Expression)
    (rescueCases : list Expression) (else_ ensure e : Expression) (tabs : Z) :
  construct this (new_Rescue l body rescueCases else_ ensure) = Ok e ->
  e = Rescue this l body rescueCases else_ ensure
  /\ else_ <> nullptr /\ ensure <> nullptr
  /\ toString gs e tabs
     = (b ← toString gs body tabs;
        cases ← forEach (fun rescueCase =>
                   s ← toString gs rescueCase tabs;
                   mret (nl +:+ printTabs (tabs - 1) +:+ s)) rescueCases;
        el ← Rescue_section gs "else" else_ tabs;
        en ← Rescue_section gs "ensure" ensure tabs;
        mret (b +:+ cases +:+ el +:+ en))
  /\ (forall keyword branch,
        Rescue_section gs keyword branch tabs = Ok ""
        <-> class_of branch = Some cls.EmptyTree)
  /\ (forall keyword branch s,
        class_of branch <> Some cls.EmptyTree ->
        toString gs branch tabs = Ok s ->
        Rescue_section gs keyword branch tabs
        = Ok (nl +:+ printTabs (tabs - 1) +:+ keyword +:+ nl
              +:+ printTabs tabs +:+ s)).
Proof.
  unfold construct. cbn [init _sanityCheck].
  destruct (nonnull else_) eqn:Helse, (nonnull ensure) eqn:Hensure;
    try discriminate.
  intros [= <-]. split_and!.
  - done.
  - by intros ->.
  - by intros ->.
  - cbn [toString]. rewrite !cast_tree_EmptyTree.
    destruct (toString gs body tabs) as [b|]; [|done]. cbn.
    match goal with |- context [forEach ?f rescueCases] =>
      destruct (forEach f rescueCases) as [cases|]; [|done] end. cbn.
    assert (Hsec : forall keyword branch,
      (if negb (bool_decide (class_of branch = Some cls.EmptyTree))
       then s ← toString gs branch tabs;
            mret (nl +:+ printTabs (tabs - 1) +:+ keyword +:+ nl
                  +:+ printTabs tabs +:+ s)
       else mret "") = Rescue_section gs keyword branch tabs).
    { intros keyword branch. by destruct branch. }
    by rewrite !Hsec.
  - intros keyword branch. split.
    + destruct branch; try done; intros Hsec;
        by apply section_nonempty in Hsec.
    + by destruct branch.
  - intros keyword branch s Hcls Hs.
    destruct branch; try done; unfold Rescue_section; by rewrite Hs.
Qed.

(** C8: when a [Hash] has as many values as keys, every [values[i]] of
    [Hash::toString] and [Hash::showRaw] is inside the vector, and the two
    print one pair per key, key [i] with value [i], in order. *)
Theorem Hash_pairs (this : positive) (l : Loc) (keys values : list Expression)
    (tabs : Z) :
  length keys = length values ->
  toString gs (Hash this l keys values) tabs
  = (pairs ← forEachZip (fun first key value =>
                k ← toString gs key (tabs + 1);
                v ← toString gs value (tabs + 1);
                mret ((if first then "" else ", ") +:+ k +:+ " => " +:+ v))
              true (zip keys values);
     mret ("{" +:+ pairs +:+ "}"))
  /\ showRaw gs (Hash this l keys values) tabs
     = (pairs ← forEachZip (fun _ key value =>
                   k ← showRaw gs key (tabs + 3);
                   v ← showRaw gs value (tabs + 3);
                   mret (printTabs (tabs + 2) +:+ "[" +:+ nl
                         +:+ printTabs (tabs + 3) +:+ "key = " +:+ k +:+ nl
                         +:+ printTabs (tabs + 3) +:+ "value = " +:+ v +:+ nl
                         +:+ printTabs (tabs + 2) +:+ "]" +:+ nl))
                 true (zip keys values);
        mret (nodeName cls.Hash +:+ "{" +:+ nl
              +:+ printTabs (tabs + 1) +:+ "pairs = [" +:+ nl +:+ pairs
              +:+ printTabs (tabs + 1) +:+ "]" +:+ nl
              +:+ printTabs tabs +:+ "}"))
  /\ length (zip keys values) = length keys
  /\ (forall (i : nat) key,
        keys !! i = Some key ->
        exists value,
          values !! i = Some value
          /\ zip keys values !! i = Some (key, value)
          /\ forall B (k : Expression -> Res B),
               at_index values (Z.of_nat i) k = k value).
Proof.
  intros Hlen. split_and!.
  - cbn [toString]. by rewrite forEachPair_zip by done.
  - cbn [showRaw]. by rewrite forEachPair_zip by done.
  - rewrite length_zip_with. lia.
  - intros i key Hkey.
    destruct (lookup_lt_is_Some_2 values i) as [value Hvalue].
    { rewrite <-Hlen. by eapply lookup_lt_Some. }
    exists value. split_and!; [done| |].
    + rewrite lookup_zip_with, Hkey. cbn. by rewrite Hvalue.
    + intros B k.
      destruct (drop i values) as [|v rest] eqn:Hd.
      { apply (f_equal (fun xs => xs !! 0)) in Hd.
        rewrite lookup_drop, Nat.add_0_r, Hvalue in Hd. done. }
      assert (v = value) as ->.
      { apply (f_equal (fun xs => xs !! 0)) in Hd.
        rewrite lookup_drop, Nat.add_0_r, Hvalue in Hd. by simplify_eq/=. }
      apply (at_index_drop values (Z.of_nat i) k value rest); [lia|].
      by rewrite Nat2Z.id.
Qed.

End Printed.

End TreeFacts.

(** ** Properties of the driver *)

Section DriverFacts.
Context `{Core} `{!dsl.Rules}.
Import ast dsl.

(** *** The dispatch *)

Lemma nonnull_cast_tree (T : cls.t) (e : Expression) :
  nonnull (cast_tree T e) = isa T e.
Proof. unfold cast_tree. destruct (isa T e) eqn:HT; [|done]. by destruct e. Qed.

Lemma cast_tree_isa (T : cls.t) (e : Expression) :
  isa T e = true -> cast_tree T e = e.
Proof. unfold cast_tree. by intros ->. Qed.

Lemma isa_Expression (e : Expression) : isa cls.Expression e = nonnull e.
Proof. by destruct e. Qed.

Lemma nonnull_true (e : Expression) : nonnull e = true <-> e <> nullptr.
Proof. by destruct e. Qed.

(** The three kinds with rules exclude one another. *)
Lemma isa_exclusive (e : Expression) :
  (isa cls.Assign e = true -> isa cls.Send e = false /\ isa cls.MethodDef e = false)
  /\ (isa cls.Send e = true -> isa cls.MethodDef e = false).
Proof. by destruct e. Qed.

(** *** One turn of the loop *)

Lemma M_bind_unfold {A B} (m : M A) (k : A -> M B) (w : World) :
  (m ≫= k) w = let '(a, w') := m w in k a w'.
Proof. done. Qed.

Lemma classDef_stat_first_match (stat prevStat : Expression)
    (replaceNodes : gmap N (list Expression)) (w : World) :
  stat <> nullptr ->
  classDef_stat stat prevStat replaceNodes w
  = let '(nodes, w') := first_match (rule_sequence stat prevStat) w in
    (if empty nodes then replaceNodes
     else <[ast.get stat := nodes]> replaceNodes, w').
Proof.
  intros Hstat%nonnull_true.
  unfold classDef_stat, handlers, rule_sequence. cbn [typecase].
  rewrite !nonnull_cast_tree, isa_Expression, Hstat.
  destruct (isa cls.Assign stat) eqn:HA; [|destruct (isa cls.Send stat) eqn:HS;
    [|destruct (isa cls.MethodDef stat) eqn:HM]];
    rewrite ?cast_tree_isa by done; [| | |done];
    cbn [first_match]; unfold mbind, mret, M_bind, M_ret, call.
  - by destruct (Struct_replaceDSL _ _) as [[|??] ?].
  - destruct (ChalkODMProp_replaceDSL _ _) as [[|??] ?]; [|done]. cbn.
    destruct (MixinEncryptedProp_replaceDSL _ _) as [[|??] ?]; [|done]. cbn.
    destruct (DSLBuilder_replaceDSL _ _) as [[|??] ?]; [|done]. cbn.
    by destruct (AttrReader_replaceDSL _ _ _) as [[|??] ?].
  - by destruct (Sinatra_replaceDSL _ _) as [[|??] ?].
Qed.

Lemma classDef_rebuild_flat_map (replaceNodes : gmap N (list Expression))
    (oldRHS : list Expression) :
  classDef_rebuild replaceNodes oldRHS
  = flat_map (contribution replaceNodes) oldRHS.
Proof.
  unfold classDef_rebuild.
  assert (Hin : forall (nodes rhs : list Expression),
    fold_left (fun rhs newNode => rhs ++ [newNode]) nodes rhs = rhs ++ nodes).
  { induction nodes as [|n nodes IH]; intros rhs; cbn.
    - by rewrite app_nil_r.
    - by rewrite IH, <-app_assoc. }
  assert (Hout : forall (old acc : list Expression),
    fold_left (fun rhs stat =>
      match replaceNodes !! ast.get stat with
      | Some nodes => fold_left (fun rhs newNode => rhs ++ [newNode]) nodes rhs
      | None => rhs ++ [stat]
      end) old acc = acc ++ flat_map (contribution replaceNodes) old).
  { induction old as [|stat old IH]; intros acc; cbn.
    - by rewrite app_nil_r.
    - rewrite IH. unfold contribution.
      destruct (replaceNodes !! ast.get stat); by rewrite ?Hin, <-app_assoc. }
  apply Hout.
Qed.

Lemma flat_map_contribution_empty (rhs : list Expression) :
  flat_map (contribution ∅) rhs = rhs.
Proof.
  induction rhs as [|stat rhs IH]; [done|]. cbn.
  unfold contribution at 1. by rewrite lookup_empty, IH.
Qed.

(** The first loop against [splice]: with no null statement and no
    address twice, the second loop will find for every statement what
    [splice] puts in its place. *)
Lemma classDef_scan_splice (rhs : list Expression) (prevStat : Expression)
    (replaceNodes : gmap N (list Expression)) (w : World) :
  Forall (fun stat => stat <> nullptr) rhs ->
  NoDup (ast.get <$> rhs) ->
  exists replaceNodes',
    classDef_scan rhs prevStat replaceNodes w
    = ((default prevStat (last rhs), replaceNodes'), (splice rhs prevStat w).2)
    /\ (forall k, k ∉ ast.get <$> rhs -> replaceNodes' !! k = replaceNodes !! k)
    /\ ((forall stat, stat ∈ rhs -> replaceNodes !! ast.get stat = None) ->
        flat_map (contribution replaceNodes') rhs = (splice rhs prevStat w).1).
Proof.
  revert prevStat replaceNodes w.
  induction rhs as [|stat rhs IH]; intros prevStat replaceNodes w Hnn Hnd.
  { exists replaceNodes. done. }
  apply Forall_cons in Hnn as [Hstat Hnn].
  rewrite fmap_cons in Hnd. apply NoDup_cons in Hnd as [Hnotin Hnd].
  cbn [classDef_scan splice]. rewrite !M_bind_unfold.
  rewrite classDef_stat_first_match by done.
  destruct (first_match (rule_sequence stat prevStat) w) as [nodes w1].
  rewrite ?M_bind_unfold.
  set (rn1 := if empty nodes then replaceNodes
              else <[ast.get stat := nodes]> replaceNodes).
  destruct (IH stat rn1 w1 Hnn Hnd) as (rn' & Hscan & Hframe & Hbody).
  exists rn'. rewrite Hscan.
  destruct (splice rhs stat w1) as [rest w2] eqn:Hsplice.
  unfold mret, M_ret. cbn [fst snd] in *.
  split_and!.
  - rewrite last_cons. by destruct (last rhs).
  - intros k Hk. rewrite fmap_cons, not_elem_of_cons in Hk.
    destruct Hk as [Hne Hk]. rewrite Hframe by done.
    subst rn1. destruct (empty nodes); [done|].
    by apply lookup_insert_ne.
  - intros Hfresh. cbn [flat_map]. f_equal.
    + unfold contribution. rewrite Hframe by done. subst rn1.
      destruct nodes as [|n nodes]; cbn.
      * by rewrite Hfresh by left.
      * by rewrite lookup_insert_eq.
    + apply Hbody. intros s Hs. subst rn1.
      destruct (empty nodes); [apply Hfresh; by right|].
      rewrite lookup_insert_ne; [apply Hfresh; by right|].
      intros Heq. apply Hnotin. rewrite Heq. by apply list_elem_of_fmap_2.
Qed.

(** The calls one turn of the loop makes: rules of the kind of the
    statement, on the statement; [AttrReader] at most once. *)
Lemma classDef_stat_calls (stat prevStat : Expression)
    (replaceNodes : gmap N (list Expression)) (w : World) :
  exists evs,
    calls (classDef_stat stat prevStat replaceNodes w).2 = calls w ++ evs
    /\ Forall (call_of_stat stat prevStat) evs
    /\ (AttrReader_calls evs = [] \/ AttrReader_calls evs = [(stat, prevStat)]).
Proof.
  unfold classDef_stat, handlers. cbn [typecase].
  rewrite !nonnull_cast_tree, isa_Expression.
  destruct (isa cls.Assign stat) eqn:HA; [|destruct (isa cls.Send stat) eqn:HS;
    [|destruct (isa cls.MethodDef stat) eqn:HM]];
    rewrite ?cast_tree_isa by done;
    unfold mbind, mret, M_bind, M_ret, call.
  - destruct (Struct_replaceDSL _ _) as [[|??] ?]; cbn;
      (eexists [_]; split_and!; [done|by repeat constructor|by left]).
  - destruct (ChalkODMProp_replaceDSL _ _) as [[|??] ?]; cbn;
      [|eexists [_]; split_and!; [done|by repeat constructor|by left]].
    destruct (MixinEncryptedProp_replaceDSL _ _) as [[|??] ?]; cbn;
      [|eexists [_; _]; split_and!;
        [by rewrite <-app_assoc|by repeat constructor|by left]].
    destruct (DSLBuilder_replaceDSL _ _) as [[|??] ?]; cbn;
      [|eexists [_; _; _]; split_and!;
        [by rewrite <-!app_assoc|by repeat constructor|by left]].
    destruct (AttrReader_replaceDSL _ _ _) as [[|??] ?]; cbn;
      (eexists [_; _; _; _]; split_and!;
        [by rewrite <-!app_assoc|by repeat constructor|by right]).
  - destruct (Sinatra_replaceDSL _ _) as [[|??] ?]; cbn;
      (eexists [_]; split_and!; [done|by repeat constructor|by left]).
  - exists []. destruct (nonnull stat); cbn;
      (split_and!; [by rewrite app_nil_r|constructor|by left]).
Qed.

Lemma call_of_stat_InterfaceWrapper (stat prevStat : Expression)
    (evs : list Call) :
  Forall (call_of_stat stat prevStat) evs ->
  InterfaceWrapper_calls evs = []
  /\ Forall (fun c => forall classDef, c <> Call_Command classDef) evs.
Proof.
  induction 1 as [|c evs Hc _ [IH1 IH2]]; [done|].
  split; [|constructor; [|done]]; destruct c; cbn in *; done.
Qed.

Lemma classDef_scan_app (pre post : list Expression) (prevStat : Expression)
    (replaceNodes : gmap N (list Expression)) (w : World) :
  classDef_scan (pre ++ post) prevStat replaceNodes w
  = let '((prevStat', replaceNodes'), w') :=
      classDef_scan pre prevStat replaceNodes w in
    classDef_scan post prevStat' replaceNodes' w'.
Proof.
  revert prevStat replaceNodes w.
  induction pre as [|stat pre IH]; intros prevStat replaceNodes w; [done|].
  cbn [app classDef_scan]. rewrite !M_bind_unfold.
  destruct (classDef_stat stat prevStat replaceNodes w) as [rn1 w1].
  apply IH.
Qed.

Lemma classDef_scan_prevStat (rhs : list Expression) (prevStat : Expression)
    (replaceNodes : gmap N (list Expression)) (w : World) :
  (classDef_scan rhs prevStat replaceNodes w).1.1 = default prevStat (last rhs).
Proof.
  revert prevStat replaceNodes w.
  induction rhs as [|stat rhs IH]; intros prevStat replaceNodes w; [done|].
  cbn [classDef_scan]. rewrite M_bind_unfold.
  destruct (classDef_stat stat prevStat replaceNodes w) as [rn1 w1].
  rewrite IH, last_cons. by destruct (last rhs).
Qed.

(** The calls of the whole loop. *)
Lemma classDef_scan_calls (rhs : list Expression) (prevStat : Expression)
    (replaceNodes : gmap N (list Expression)) (w : World) :
  exists evs,
    calls (classDef_scan rhs prevStat replaceNodes w).2 = calls w ++ evs
    /\ AttrReader_calls evs `sublist_of` zip rhs (prevStat :: rhs)
    /\ InterfaceWrapper_calls evs = []
    /\ Forall (fun c => forall classDef, c <> Call_Command classDef) evs.
Proof.
  revert prevStat replaceNodes w.
  induction rhs as [|stat rhs IH]; intros prevStat replaceNodes w.
  { exists []. cbn. by rewrite app_nil_r. }
  cbn [classDef_scan]. rewrite M_bind_unfold.
  destruct (classDef_stat_calls stat prevStat replaceNodes w)
    as (evs1 & Hevs1 & Hall & Hattr).
  destruct (classDef_stat stat prevStat replaceNodes w) as [rn1 w1].
  destruct (IH stat rn1 w1) as (evs2 & Hevs2 & Hsub & Hiw & Hcmd).
  apply call_of_stat_InterfaceWrapper in Hall as [Hiw1 Hcmd1].
  exists (evs1 ++ evs2). cbn [snd] in *. split_and!.
  - by rewrite Hevs2, Hevs1, <-app_assoc.
  - unfold AttrReader_calls in *. rewrite omap_app. cbn [zip_with].
    destruct Hattr as [-> | ->]; cbn [app].
    + by apply sublist_cons.
    + by apply sublist_skip.
  - unfold InterfaceWrapper_calls in *. by rewrite omap_app, Hiw1, Hiw.
  - by apply Forall_app.
Qed.

Lemma M_ret_unfold {A} (a : A) (w : World) : (mret a : M A) w = (a, w).
Proof. done. Qed.

(** [postTransformClassDef], whichever way it returns. *)
Lemma postTransformClassDef_unfold (classDef : ClassDefPtr.t) (w : World)
    (members : ClassDefPtr.members) (gs1 : GlobalState) :
  Command_patchDSL (state w) classDef = (members, gs1) ->
  let classDef1 := {| ClassDefPtr.get := ClassDefPtr.get classDef;
                      ClassDefPtr.obj := members |} in
  let w1 := {| state := gs1; calls := calls w ++ [Call_Command classDef] |} in
  let scanned := classDef_scan (ClassDefPtr.rhs members) nullptr ∅ w1 in
  postTransformClassDef classDef w
  = (ClassDefPtr.set_rhs classDef1
       (flat_map (contribution scanned.1.2) (ClassDefPtr.rhs members)),
     scanned.2)
  /\ (scanned.1.2 = ∅ -> postTransformClassDef classDef w = (classDef1, scanned.2)).
Proof.
  intros Hpatch classDef1 w1 scanned.
  assert (Hpost : postTransformClassDef classDef w
    = (if bool_decide (scanned.1.2 = ∅) then classDef1
       else ClassDefPtr.set_rhs classDef1
              (classDef_rebuild scanned.1.2 (ClassDefPtr.rhs members)),
       scanned.2)).
  { unfold postTransformClassDef. rewrite M_bind_unfold.
    unfold call. rewrite Hpatch. fold w1. rewrite M_bind_unfold.
    cbn [ClassDefPtr.obj]. fold scanned.
    destruct scanned as [[prevStat replaceNodes] w2].
    cbn [fst snd]. by case_bool_decide. }
  rewrite Hpost. case_bool_decide as Hempty.
  - rewrite Hempty, flat_map_contribution_empty.
    split; [|done]. by destruct members.
  - split; [|done]. by rewrite classDef_rebuild_flat_map.
Qed.

(** C1: when the scan has recorded a replacement, the body that
    [postTransformClassDef] returns is the old body in its order, where a
    statement whose address has a recorded list gives that list and any
    other statement gives itself.  With no null statement and no address
    twice in the body, the list recorded for a statement is what the rules
    gave for it, so the body is the one [splice] describes.  A body
    [s0; s1; s2] with [r1a; r1b] recorded for [s1] alone comes back as
    [s0; r1a; r1b; s2]. *)
Theorem postTransformClassDef_rebuilds (classDef : ClassDefPtr.t) (w : World)
    (members : ClassDefPtr.members) (gs1 : GlobalState) :
  Command_patchDSL (state w) classDef = (members, gs1) ->
  let classDef1 := {| ClassDefPtr.get := ClassDefPtr.get classDef;
                      ClassDefPtr.obj := members |} in
  let w1 := {| state := gs1; calls := calls w ++ [Call_Command classDef] |} in
  let oldRHS := ClassDefPtr.rhs members in
  let scanned := classDef_scan oldRHS nullptr ∅ w1 in
  let replaceNodes := scanned.1.2 in
  (replaceNodes <> ∅ ->
   postTransformClassDef classDef w
   = (ClassDefPtr.set_rhs classDef1
        (flat_map (contribution replaceNodes) oldRHS), scanned.2))
  /\ (Forall (fun stat => stat <> nullptr) oldRHS ->
      NoDup (ast.get <$> oldRHS) ->
      flat_map (contribution replaceNodes) oldRHS = (splice oldRHS nullptr w1).1
      /\ scanned.2 = (splice oldRHS nullptr w1).2)
  /\ (forall s0 s1 s2 r1a r1b : Expression,
        oldRHS = [s0; s1; s2] ->
        replaceNodes = {[ast.get s1 := [r1a; r1b]]} ->
        ast.get s0 <> ast.get s1 -> ast.get s2 <> ast.get s1 ->
        ClassDefPtr.rhs (ClassDefPtr.obj (postTransformClassDef classDef w).1)
        = [s0; r1a; r1b; s2]).
Proof.
  intros Hpatch. cbv zeta.
  pose proof (postTransformClassDef_unfold classDef w members gs1 Hpatch)
    as Hpost.
  cbv zeta in Hpost. destruct Hpost as [Hpost _].
  split_and!.
  - done.
  - intros Hnn Hnd.
    destruct (classDef_scan_splice (ClassDefPtr.rhs members) nullptr ∅
                {| state := gs1; calls := calls w ++ [Call_Command classDef] |}
                Hnn Hnd)
      as (rn' & Hscan & _ & Hbody).
    rewrite Hscan. cbn [fst snd].
    split; [|done]. apply Hbody. intros. apply lookup_empty.
  - intros s0 s1 s2 r1a r1b HRHS Hrn Hs0 Hs2.
    rewrite Hpost, Hrn, HRHS. cbn. unfold contribution.
    by rewrite lookup_singleton_eq, !lookup_singleton_ne by done.
Qed.

(** C2: for a [Send] statement the four rules run in the order
    [ChalkODMProp], [MixinEncryptedProp], [DSLBuilder], [AttrReader], each in
    the global state the one before left; the first non-empty list is
    recorded for the statement and the rules after it are not called.  This
    is [first_match] over the four rules in that order. *)
Theorem Send_first_match_wins (stat prevStat : Expression)
    (replaceNodes : gmap N (list Expression)) (w : World) :
  isa cls.Send stat = true ->
  (let '(nodes1, gs1) := ChalkODMProp_replaceDSL (state w) stat in
   let '(nodes2, gs2) := MixinEncryptedProp_replaceDSL gs1 stat in
   let '(nodes3, gs3) := DSLBuilder_replaceDSL gs2 stat in
   let '(nodes4, gs4) := AttrReader_replaceDSL gs3 stat prevStat in
   let c1 := Call_ChalkODMProp stat in
   let c2 := Call_MixinEncryptedProp stat in
   let c3 := Call_DSLBuilder stat in
   let c4 := Call_AttrReader stat prevStat in
   classDef_stat stat prevStat replaceNodes w
   = if negb (empty nodes1) then
       (<[ast.get stat := nodes1]> replaceNodes,
        {| state := gs1; calls := calls w ++ [c1] |})
     else if negb (empty nodes2) then
       (<[ast.get stat := nodes2]> replaceNodes,
        {| state := gs2; calls := calls w ++ [c1; c2] |})
     else if negb (empty nodes3) then
       (<[ast.get stat := nodes3]> replaceNodes,
        {| state := gs3; calls := calls w ++ [c1; c2; c3] |})
     else if negb (empty nodes4) then
       (<[ast.get stat := nodes4]> replaceNodes,
        {| state := gs4; calls := calls w ++ [c1; c2; c3; c4] |})
     else
       (replaceNodes,
        {| state := gs4; calls := calls w ++ [c1; c2; c3; c4] |}))
  /\ classDef_stat stat prevStat replaceNodes w
     = (let '(nodes, w') :=
          first_match
            [ call (Call_ChalkODMProp stat)
                (fun ctx => ChalkODMProp_replaceDSL ctx stat);
              call (Call_MixinEncryptedProp stat)
                (fun ctx => MixinEncryptedProp_replaceDSL ctx stat);
              call (Call_DSLBuilder stat)
                (fun ctx => DSLBuilder_replaceDSL ctx stat);
              call (Call_AttrReader stat prevStat)
                (fun ctx => AttrReader_replaceDSL ctx stat prevStat) ] w in
        (if empty nodes then replaceNodes
         else <[ast.get stat := nodes]> replaceNodes, w')).
Proof.
  intros HS.
  destruct (isa_exclusive stat) as [HA _].
  assert (isa cls.Assign stat = false) as HA'.
  { destruct (isa cls.Assign stat); [|done]. destruct HA; congruence. }
  split.
  - unfold classDef_stat, handlers. cbn [typecase].
    rewrite !nonnull_cast_tree, HA', HS, cast_tree_isa by done.
    unfold mbind, mret, M_bind, M_ret, call. cbn [state calls].
    destruct (ChalkODMProp_replaceDSL _ _) as [nodes1 g1].
    destruct (MixinEncryptedProp_replaceDSL _ _) as [nodes2 g2] eqn:H2.
    destruct (DSLBuilder_replaceDSL _ _) as [nodes3 g3] eqn:H3.
    destruct (AttrReader_replaceDSL _ _ _) as [nodes4 g4] eqn:H4.
    destruct nodes1; [|done]. cbn. rewrite H2.
    destruct nodes2; cbn; [|by rewrite <-app_assoc]. rewrite H3.
    destruct nodes3; cbn; [|by rewrite <-!app_assoc]. rewrite H4.
    destruct nodes4; cbn; by rewrite <-!app_assoc.
  - rewrite classDef_stat_first_match by (by destruct stat).
    unfold rule_sequence. by rewrite HA', HS.
Qed.

Lemma classDef_stat_no_match (stat prevStat : Expression)
    (replaceNodes : gmap N (list Expression)) (w : World) :
  (forall (ctx : GlobalState),
     (Struct_replaceDSL ctx stat).1 = []
     /\ (ChalkODMProp_replaceDSL ctx stat).1 = []
     /\ (MixinEncryptedProp_replaceDSL ctx stat).1 = []
     /\ (DSLBuilder_replaceDSL ctx stat).1 = []
     /\ (AttrReader_replaceDSL ctx stat prevStat).1 = []
     /\ (Sinatra_replaceDSL ctx stat).1 = []) ->
  (classDef_stat stat prevStat replaceNodes w).1 = replaceNodes.
Proof.
  intros Hnone.
  unfold classDef_stat, handlers. cbn [typecase].
  rewrite !nonnull_cast_tree, isa_Expression.
  destruct (isa cls.Assign stat) eqn:HA; [|destruct (isa cls.Send stat) eqn:HS;
    [|destruct (isa cls.MethodDef stat) eqn:HM]];
    rewrite ?cast_tree_isa by done;
    unfold mbind, mret, M_bind, M_ret, call; cbn [state calls].
  - destruct (Hnone (state w)) as (H1 & _).
    destruct (Struct_replaceDSL _ _) as [nodes g]. cbn in H1. by subst nodes.
  - destruct (Hnone (state w)) as (_ & H1 & _).
    destruct (ChalkODMProp_replaceDSL _ _) as [nodes1 g1]. cbn in H1.
    subst nodes1. cbn.
    destruct (Hnone g1) as (_ & _ & H2 & _).
    destruct (MixinEncryptedProp_replaceDSL _ _) as [nodes2 g2]. cbn in H2.
    subst nodes2. cbn.
    destruct (Hnone g2) as (_ & _ & _ & H3 & _).
    destruct (DSLBuilder_replaceDSL _ _) as [nodes3 g3]. cbn in H3.
    subst nodes3. cbn.
    destruct (Hnone g3) as (_ & _ & _ & _ & H4 & _).
    destruct (AttrReader_replaceDSL _ _ _) as [nodes4 g4]. cbn in H4.
    by subst nodes4.
  - destruct (Hnone (state w)) as (_ & _ & _ & _ & _ & H1).
    destruct (Sinatra_replaceDSL _ _) as [nodes g]. cbn in H1. by subst nodes.
  - by destruct (nonnull stat).
Qed.

Lemma classDef_scan_no_match (rhs : list Expression) (prevStat : Expression)
    (replaceNodes : gmap N (list Expression)) (w : World) :
  no_rule_matches rhs ->
  (classDef_scan rhs prevStat replaceNodes w).1.2 = replaceNodes.
Proof.
  revert prevStat replaceNodes w.
  induction rhs as [|stat rhs IH]; intros prevStat replaceNodes w Hnone; [done|].
  cbn [classDef_scan]. rewrite M_bind_unfold.
  pose proof (classDef_stat_no_match stat prevStat replaceNodes w) as Hstat.
  destruct (classDef_stat stat prevStat replaceNodes w) as [rn1 w1].
  cbn in Hstat. rewrite Hstat.
  - apply IH. intros s Hs. apply Hnone. by right.
  - intros ctx. apply Hnone. by left.
Qed.

(** C3: when the scan records no replacement, and so when every rule gives
    the empty list for every statement, [postTransformClassDef] returns the
    [ClassDef] it was given: the same address, with the members
    [Command::patchDSL] left, the body among them, statement for statement
    the nodes the scan walked. *)
Theorem postTransformClassDef_noop (classDef : ClassDefPtr.t) (w : World)
    (members : ClassDefPtr.members) (gs1 : GlobalState) :
  Command_patchDSL (state w) classDef = (members, gs1) ->
  let w1 := {| state := gs1; calls := calls w ++ [Call_Command classDef] |} in
  let scanned := classDef_scan (ClassDefPtr.rhs members) nullptr ∅ w1 in
  (no_rule_matches (ClassDefPtr.rhs members) -> scanned.1.2 = ∅)
  /\ (scanned.1.2 = ∅ ->
      postTransformClassDef classDef w
      = ({| ClassDefPtr.get := ClassDefPtr.get classDef;
            ClassDefPtr.obj := members |}, scanned.2)
      /\ ClassDefPtr.get (postTransformClassDef classDef w).1
         = ClassDefPtr.get classDef
      /\ ClassDefPtr.rhs (ClassDefPtr.obj (postTransformClassDef classDef w).1)
         = ClassDefPtr.rhs members
      /\ (members = ClassDefPtr.obj classDef ->
          (postTransformClassDef classDef w).1 = classDef)).
Proof.
  intros Hpatch. cbv zeta. split.
  - apply classDef_scan_no_match.
  - intros Hempty.
    pose proof (postTransformClassDef_unfold classDef w members gs1 Hpatch)
      as Hpost.
    cbv zeta in Hpost. destruct Hpost as [_ Hpost].
    rewrite (Hpost Hempty). split_and!; try done.
    intros ->. by destruct classDef.
Qed.

(** C4: on a statement that is not null the [typecase] runs exactly one of
    its four handlers: the first for an [Assign], the second for a [Send],
    the third for a [MethodDef], the last for anything else.  So [Struct] is
    called on [Assign] statements only, the four [Send] rules on [Send]
    statements only and [Sinatra] on [MethodDef] statements only, each on
    the statement of the turn; a statement of another kind reaches no rule,
    leaves [replaceNodes] and the global state alone, and stands in the
    returned body as itself. *)
Theorem typecase_one_handler (stat prevStat : Expression)
    (replaceNodes : gmap N (list Expression)) (w : World) :
  stat <> nullptr ->
  (handlers stat prevStat replaceNodes).*1
    = [cls.Assign; cls.Send; cls.MethodDef; cls.Expression]
  /\ dispatched stat [cls.Assign; cls.Send; cls.MethodDef; cls.Expression]
     = [if isa cls.Assign stat then 0
        else if isa cls.Send stat then 1
        else if isa cls.MethodDef stat then 2 else 3]
  /\ (exists evs,
        calls (classDef_stat stat prevStat replaceNodes w).2 = calls w ++ evs
        /\ Forall (call_of_stat stat prevStat) evs)
  /\ (isa cls.Assign stat = false -> isa cls.Send stat = false ->
      isa cls.MethodDef stat = false ->
      classDef_stat stat prevStat replaceNodes w = (replaceNodes, w)
      /\ forall (classDef : ClassDefPtr.t) (w0 : World)
           (members : ClassDefPtr.members) (gs1 : GlobalState)
           (pre post : list Expression),
           Command_patchDSL (state w0) classDef = (members, gs1) ->
           ClassDefPtr.rhs members = pre ++ stat :: post ->
           Forall (fun s => s <> nullptr) (ClassDefPtr.rhs members) ->
           NoDup (ast.get <$> ClassDefPtr.rhs members) ->
           let w1 := {| state := gs1;
                        calls := calls w0 ++ [Call_Command classDef] |} in
           let rn :=
             (classDef_scan (ClassDefPtr.rhs members) nullptr ∅ w1).1.2 in
           rn !! ast.get stat = None
           /\ ClassDefPtr.rhs
                (ClassDefPtr.obj (postTransformClassDef classDef w0).1)
              = flat_map (contribution rn) pre ++ stat
                :: flat_map (contribution rn) post).
Proof.
  intros Hstat. split_and!.
  - done.
  - unfold dispatched. cbn [imap typecase]. unfold compose. cbn beta iota.
    rewrite !nonnull_cast_tree, isa_Expression.
    apply nonnull_true in Hstat. rewrite Hstat.
    by destruct (isa cls.Assign stat), (isa cls.Send stat),
      (isa cls.MethodDef stat).
  - destruct (classDef_stat_calls stat prevStat replaceNodes w)
      as (evs & Hevs & Hall & _). eauto.
  - intros HA HS HM.
    assert (Hskip : forall prevStat replaceNodes w,
      classDef_stat stat prevStat replaceNodes w = (replaceNodes, w)).
    { intros prev rn w'. rewrite classDef_stat_first_match by done.
      unfold rule_sequence. by rewrite HA, HS, HM. }
    split; [apply Hskip|].
    intros classDef w0 members gs1 pre post Hpatch Hrhs Hnn Hnd.
    pose proof (postTransformClassDef_unfold classDef w0 members gs1 Hpatch)
      as Hpost.
    cbv zeta in Hpost. destruct Hpost as [Hpost _]. rewrite Hpost.
    intros w1 rn.
    enough (rn !! ast.get stat = None) as Hnone.
    { split; [done|]. cbn. fold w1 rn. rewrite Hrhs, flat_map_app.
      cbn [flat_map]. unfold contribution at 2. by rewrite Hnone. }
    subst rn. rewrite Hrhs in *. rewrite classDef_scan_app.
    rewrite fmap_app, fmap_cons in Hnd.
    apply NoDup_app in Hnd as (Hpre & Hdisj & Hpost').
    apply NoDup_cons in Hpost' as [Hnotin Hpost'].
    apply Forall_app in Hnn as [Hnn1 Hnn2].
    apply Forall_cons in Hnn2 as [_ Hnn2].
    destruct (classDef_scan_splice pre nullptr ∅ w1 Hnn1 Hpre)
      as (rn1 & Hscan1 & Hframe1 & _).
    rewrite Hscan1. cbn [classDef_scan]. rewrite M_bind_unfold, Hskip.
    destruct (classDef_scan_splice post stat rn1 (splice pre nullptr w1).2
                Hnn2 Hpost') as (rn2 & Hscan2 & Hframe2 & _).
    rewrite Hscan2. cbn [fst snd].
    rewrite Hframe2 by done. rewrite Hframe1; [apply lookup_empty|].
    intros Hin. apply (Hdisj _ Hin). by left.
Qed.

(** C5: the loop starts with [prevStat] null; when it comes to a
    statement, [prevStat] is the statement just before it in the body, as
    it stands there, whatever the rules made of that one, and null for the
    first statement; this is what [AttrReader] is handed.  So every call of
    [AttrReader] during [postTransformClassDef] is on a statement of the
    body and the statement before it, in the order of the body. *)
Theorem prevStat_is_statement_before (classDef : ClassDefPtr.t) (w : World)
    (members : ClassDefPtr.members) (gs1 : GlobalState) :
  Command_patchDSL (state w) classDef = (members, gs1) ->
  let w1 := {| state := gs1; calls := calls w ++ [Call_Command classDef] |} in
  let rhs := ClassDefPtr.rhs members in
  (forall (pre post : list Expression) (stat : Expression),
     rhs = pre ++ stat :: post ->
     classDef_scan rhs nullptr ∅ w1
     = let '((prevStat, replaceNodes), w2) := classDef_scan pre nullptr ∅ w1 in
       let '(replaceNodes, w3) :=
         classDef_stat stat prevStat replaceNodes w2 in
       classDef_scan post stat replaceNodes w3)
  /\ (forall (pre : list Expression),
        (classDef_scan pre nullptr ∅ w1).1.1 = default nullptr (last pre))
  /\ (forall (stat prevStat : Expression) rn w2,
        exists evs,
          calls (classDef_stat stat prevStat rn w2).2 = calls w2 ++ evs
          /\ (AttrReader_calls evs = []
              \/ AttrReader_calls evs = [(stat, prevStat)]))
  /\ (exists evs,
        calls (postTransformClassDef classDef w).2
        = calls w ++ Call_Command classDef :: evs
        /\ AttrReader_calls evs `sublist_of` zip rhs (nullptr :: rhs)).
Proof.
  intros Hpatch. cbv zeta. split_and!.
  - intros pre post stat ->. rewrite classDef_scan_app.
    destruct (classDef_scan pre nullptr ∅ _) as [[prevStat rn] w2].
    cbn [classDef_scan]. by rewrite M_bind_unfold.
  - intros pre. apply classDef_scan_prevStat.
  - intros stat prevStat rn w2.
    destruct (classDef_stat_calls stat prevStat rn w2) as (evs & ? & _ & ?).
    eauto.
  - pose proof (postTransformClassDef_unfold classDef w members gs1 Hpatch)
      as Hpost.
    cbv zeta in Hpost. destruct Hpost as [Hpost _]. rewrite Hpost. cbn [snd].
    destruct (classDef_scan_calls (ClassDefPtr.rhs members) nullptr ∅
      {| state := gs1; calls := calls w ++ [Call_Command classDef] |})
      as (evs & Hevs & Hsub & _).
    exists evs. rewrite Hevs. cbn [calls]. by rewrite <-app_assoc.
Qed.

(** *** The walk *)

Lemma logs_ret {A} (a : A) : logs (mret a) [].
Proof. intros w. cbn. by rewrite app_nil_r. Qed.

Lemma logs_bind {A B} (m : M A) (k : A -> M B) (l1 l2 : list N) :
  logs m l1 -> (forall a, logs (k a) l2) -> logs (m ≫= k) (l1 ++ l2).
Proof.
  intros Hm Hk w. rewrite M_bind_unfold. specialize (Hm w).
  destruct (m w) as [a w1]. cbn [snd] in Hm. by rewrite Hk, Hm, app_assoc.
Qed.

Lemma logs_eq {A} (m : M A) (l1 l2 : list N) : logs m l1 -> l1 = l2 -> logs m l2.
Proof. by intros ? <-. Qed.

Lemma logs_mapM (f : Expression -> M Expression) (g : Expression -> list N)
    (xs : list Expression) :
  list_all Expression (fun x => logs (f x) (g x)) xs ->
  logs (mapM f xs) (flat_map g xs).
Proof.
  induction 1 as [|x Hx xs _ IH]; cbn [mapM flat_map].
  - apply logs_ret.
  - apply logs_bind; [done|]. intros y.
    eapply logs_eq; [apply logs_bind; [apply IH|intros; apply logs_ret]|].
    apply app_nil_r.
Qed.

Lemma logs_postTransformSend (send : Expression) :
  logs (postTransformSend send) [ast.get send].
Proof.
  intros w. unfold postTransformSend, call.
  destruct (InterfaceWrapper_replaceDSL _ _) as [e g]. cbn.
  unfold InterfaceWrapper_calls. by rewrite omap_app.
Qed.

Lemma logs_postTransformSend_Send (this : positive) (l : Loc)
    (recv : Expression) (fun_ : NameRef) (args : list Expression)
    (block : Expression) :
  logs (postTransformSend (Send this l recv fun_ args block)) [Npos this].
Proof. apply logs_postTransformSend. Qed.

Lemma logs_postTransformClassDef (classDef : ClassDefPtr.t) :
  logs (postTransformClassDef classDef) [].
Proof.
  intros w.
  destruct (Command_patchDSL (state w) classDef) as [members gs1] eqn:Hpatch.
  pose proof (postTransformClassDef_unfold classDef w members gs1 Hpatch)
    as Hpost.
  cbv zeta in Hpost. destruct Hpost as [Hpost _]. rewrite Hpost. cbn [snd].
  destruct (classDef_scan_calls (ClassDefPtr.rhs members) nullptr ∅
    {| state := gs1; calls := calls w ++ [Call_Command classDef] |})
    as (evs & Hevs & _ & Hiw & _).
  rewrite Hevs. cbn [calls]. unfold InterfaceWrapper_calls in *.
  rewrite !omap_app, Hiw. cbn. by rewrite !app_nil_r.
Qed.

Lemma logs_mapIt (e : Expression) : logs (mapIt e) (Send_nodes e).
Proof.
  induction e; cbn [mapIt Send_nodes];
    (eapply logs_eq;
      [repeat first
         [ apply logs_ret
         | apply logs_postTransformSend_Send
         | apply logs_postTransformClassDef
         | eapply logs_bind;
             [first [ eassumption | by apply logs_mapM
                    | apply logs_postTransformClassDef ]|intros] ]
      | cbn [ast.get]; rewrite ?app_nil_r, <-?app_assoc; reflexivity ]).
Qed.

(** C6: [postTransformClassDef] calls [Command::patchDSL] on the
    [ClassDef] it is given before anything else; the scan then walks the
    body that call left, in the global state it left, and calls neither
    [Command::patchDSL] nor [InterfaceWrapper::replaceDSL].
    [postTransformSend] hands its node to [InterfaceWrapper::replaceDSL] and
    returns what that gives; and the walk of [DSL::run] brings this to every
    [Send] node of the tree, children before parents. *)
Theorem hooks_of_DSLReplacer :
  (forall (classDef : ClassDefPtr.t) (w : World)
          (members : ClassDefPtr.members) (gs1 : GlobalState),
     Command_patchDSL (state w) classDef = (members, gs1) ->
     let w1 := {| state := gs1; calls := calls w ++ [Call_Command classDef] |} in
     let scanned := classDef_scan (ClassDefPtr.rhs members) nullptr ∅ w1 in
     exists evs,
       calls scanned.2 = calls w1 ++ evs
       /\ (postTransformClassDef classDef w).2 = scanned.2
       /\ calls (postTransformClassDef classDef w).2
          = calls w ++ Call_Command classDef :: evs
       /\ Forall (fun c => forall classDef', c <> Call_Command classDef') evs
       /\ InterfaceWrapper_calls evs = [])
  /\ (forall (send : Expression) (w : World),
        postTransformSend send w
        = let '(e, gs1) := InterfaceWrapper_replaceDSL (state w) send in
          (e, {| state := gs1;
                 calls := calls w ++ [Call_InterfaceWrapper send] |}))
  /\ (forall (tree : Expression) (w : World),
        InterfaceWrapper_calls (calls (run tree w).2)
        = InterfaceWrapper_calls (calls w) ++ Send_nodes tree).
Proof.
  split_and!.
  - intros classDef w members gs1 Hpatch. cbv zeta.
    pose proof (postTransformClassDef_unfold classDef w members gs1 Hpatch)
      as Hpost.
    cbv zeta in Hpost. destruct Hpost as [Hpost _]. rewrite Hpost. cbn [snd].
    destruct (classDef_scan_calls (ClassDefPtr.rhs members) nullptr ∅
      {| state := gs1; calls := calls w ++ [Call_Command classDef] |})
      as (evs & Hevs & _ & Hiw & Hcmd).
    exists evs. rewrite Hevs. cbn [calls]. by rewrite <-app_assoc.
  - done.
  - intros tree w. apply logs_mapIt.
Qed.

End DriverFacts.

(** ** The properties on the small instance *)

Section Instance.
Import ast dsl demo.

Lemma EmptyTree_loc_none_witness :
  New_class new_EmptyTree = cls.EmptyTree
  /\ loc (init 1 new_EmptyTree) = Some (L (-1))
  /\ construct 1 new_EmptyTree = Ok (EmptyTree 1 (L (-1)))
  /\ New_class (new_Retry (L 7)) <> cls.EmptyTree
  /\ loc (init 2 (new_Retry (L 7))) = Some (L 7).
Proof.
  destruct (EmptyTree_loc_none 1 new_EmptyTree) as (_ & Hnone & _ & _).
  destruct (Hnone eq_refl) as (_ & Hloc & Hnew).
  destruct (EmptyTree_loc_none 2 (new_Retry (L 7))) as (_ & _ & Hother & _).
  assert (Hne : New_class (new_Retry (L 7)) <> cls.EmptyTree) by discriminate.
  destruct (Hother Hne) as (l & Hl & Hloc').
  split_and!; [reflexivity|exact Hloc|exact Hnew|exact Hne|].
  rewrite Hloc'. rewrite <-Hl. reflexivity.
Defined.

(** A [Rescue] with no else branch and an ensure branch. *)
Lemma Rescue_sections_witness :
  construct 6 (new_Rescue (L 0) x [] none x) = Ok (Rescue 6 (L 0) x [] none x)
  /\ toString gs0 (Rescue 6 (L 0) x [] none x) 1
     = Ok ("x" +:+ nl +:+ "ensure" +:+ nl +:+ "  x").
Proof.
  split; [reflexivity|].
  destruct (Rescue_sections gs0 6 (L 0) x [] none x
              (Rescue 6 (L 0) x [] none x) 1 eq_refl)
    as (_ & _ & _ & Hstr & _).
  rewrite Hstr. reflexivity.
Defined.

(** [{x => 1, x => 2}] *)
Lemma Hash_pairs_witness :
  let keys := [x; x] in
  let values := [Literal 42 (L 0) "1"; Literal 43 (L 0) "2"] in
  length keys = length values
  /\ toString gs0 (Hash 3 (L 0) keys values) 0 = Ok "{x => 1, x => 2}".
Proof.
  intros keys values. split; [reflexivity|].
  destruct (Hash_pairs gs0 3 (L 0) keys values 0 eq_refl) as (Hstr & _).
  rewrite Hstr. reflexivity.
Defined.

(** The class-level rule of the instance leaves the class as it is. *)
Lemma demo_patchDSL (rhs : list Expression) :
  Command_patchDSL (state w0) (class_ 1 rhs)
  = (ClassDefPtr.obj (class_ 1 rhs), gs0).
Proof. reflexivity. Defined.

Lemma postTransformClassDef_rebuilds_witness :
  Forall (fun stat => stat <> nullptr) body1
  /\ NoDup (ast.get <$> body1)
  /\ (classDef_scan body1 nullptr ∅
        {| state := gs0; calls := [Call_Command (class_ 1 body1)] |}).1.2
     = {[ 20%N := [method 120 "getter"; method 220 "setter"] ]}
  /\ ClassDefPtr.rhs (ClassDefPtr.obj (postTransformClassDef (class_ 1 body1) w0).1)
     = [assign 10; method 120 "getter"; method 220 "setter"; send 30 "other"]
  /\ (splice body1 nullptr
        {| state := gs0; calls := [Call_Command (class_ 1 body1)] |}).1
     = [assign 10; method 120 "getter"; method 220 "setter"; send 30 "other"]
  /\ state (postTransformClassDef (class_ 1 body1) w0).2 = ["ChalkODMProp"].
Proof.
  assert (Hnn : Forall (fun stat : Expression => stat <> nullptr) body1)
    by (repeat constructor; discriminate).
  assert (Hnd : NoDup (ast.get <$> body1))
    by (apply (bool_decide_unpack _); vm_compute; exact I).
  assert (Hrn : (classDef_scan body1 nullptr ∅
        {| state := gs0; calls := [Call_Command (class_ 1 body1)] |}).1.2
     = {[ 20%N := [method 120 "getter"; method 220 "setter"] ]})
    by (vm_compute; reflexivity).
  destruct (postTransformClassDef_rebuilds (class_ 1 body1) w0
              (ClassDefPtr.obj (class_ 1 body1)) gs0 (demo_patchDSL body1))
    as (Hrebuild & Hsplice & Hthree).
  split_and!; [exact Hnn|exact Hnd|exact Hrn| | |].
  - apply (Hthree (assign 10) (send 20 "prop") (send 30 "other")
             (method 120 "getter") (method 220 "setter"));
      [reflexivity|exact Hrn|discriminate|discriminate].
  - destruct (Hsplice Hnn Hnd) as [Hbody _].
    etransitivity; [symmetry; exact Hbody|]. vm_compute. reflexivity.
  - rewrite Hrebuild; [vm_compute; reflexivity|].
    intros Hempty. apply (f_equal (fun rn => rn !! 20%N)) in Hempty.
    vm_compute in Hempty. discriminate.
Defined.

(** [prop] is matched by [ChalkODMProp] and by [DSLBuilder]: only the first
    is called. *)
Lemma Send_first_match_wins_witness :
  isa cls.Send (send 20 "prop") = true
  /\ classDef_stat (send 20 "prop") nullptr ∅ w0
     = (<[ 20%N := [method 120 "getter"; method 220 "setter"] ]> ∅,
        {| state := ["ChalkODMProp"];
           calls := [Call_ChalkODMProp (send 20 "prop")] |}).
Proof.
  split; [reflexivity|].
  exact (proj1 (Send_first_match_wins (send 20 "prop") nullptr ∅ w0 eq_refl)).
Defined.

(** [@x = 1; other]: no rule matches. *)
Lemma postTransformClassDef_noop_witness :
  no_rule_matches body2
  /\ (postTransformClassDef (class_ 1 body2) w0).1 = class_ 1 body2.
Proof.
  assert (Hnone : no_rule_matches body2).
  { intros stat Hin ctx prevStat.
    apply list_elem_of_In in Hin. cbn in Hin.
    destruct Hin as [<-|[<-|[]]]; repeat split; reflexivity. }
  split; [exact Hnone|].
  destruct (postTransformClassDef_noop (class_ 1 body2) w0
              (ClassDefPtr.obj (class_ 1 body2)) gs0 (demo_patchDSL body2))
    as [Hscan Hnoop].
  destruct (Hnoop (Hscan Hnone)) as (_ & _ & _ & Hsame).
  exact (Hsame eq_refl).
Defined.

(** A literal between two statements. *)
Lemma typecase_one_handler_witness :
  lit <> nullptr
  /\ dispatched lit [cls.Assign; cls.Send; cls.MethodDef; cls.Expression] = [3]
  /\ classDef_stat lit (send 20 "prop") ∅ w0 = (∅, w0)
  /\ ClassDefPtr.rhs (ClassDefPtr.obj (postTransformClassDef (class_ 1 body3) w0).1)
     = [method 120 "getter"; method 220 "setter"; lit; send 30 "other"].
Proof.
  assert (Hlit : lit <> nullptr) by discriminate.
  destruct (typecase_one_handler lit (send 20 "prop") ∅ w0 Hlit)
    as (_ & Hone & _ & Hother).
  destruct (Hother eq_refl eq_refl eq_refl) as [Hskip Hbody].
  split_and!; [exact Hlit|exact Hone|exact Hskip|].
  destruct (Hbody (class_ 1 body3) w0 (ClassDefPtr.obj (class_ 1 body3)) gs0
              [send 20 "prop"] [send 30 "other"] (demo_patchDSL body3) eq_refl)
    as [_ Hrhs].
  - repeat constructor; discriminate.
  - apply (bool_decide_unpack _); vm_compute; exact I.
  - rewrite Hrhs. vm_compute. reflexivity.
Defined.

(** [sig; attr_reader]: the reader is handed the [sig] before it. *)
Lemma prevStat_is_statement_before_witness :
  AttrReader_calls (calls (postTransformClassDef (class_ 1 body4) w0).2)
  = [(send 20 "sig", nullptr); (send 30 "attr_reader", send 20 "sig")]
  /\ exists evs,
       calls (postTransformClassDef (class_ 1 body4) w0).2
       = calls w0 ++ Call_Command (class_ 1 body4) :: evs
       /\ AttrReader_calls evs `sublist_of` zip body4 (nullptr :: body4).
Proof.
  split; [vm_compute; reflexivity|].
  destruct (prevStat_is_statement_before (class_ 1 body4) w0
              (ClassDefPtr.obj (class_ 1 body4)) gs0 (demo_patchDSL body4))
    as (_ & _ & _ & Hcalls).
  exact Hcalls.
Defined.

(** A class with two sends, one of them inside the other. *)
Lemma hooks_of_DSLReplacer_witness :
  InterfaceWrapper_calls (calls (run tree1 w0).2) = [30%N; 20%N]
  /\ exists evs,
       calls (postTransformClassDef (class_ 1 body1) w0).2
       = calls w0 ++ Call_Command (class_ 1 body1) :: evs
       /\ InterfaceWrapper_calls evs = [].
Proof.
  destruct hooks_of_DSLReplacer as (Hclass & _ & Hrun).
  split.
  - rewrite Hrun. reflexivity.
  - destruct (Hclass (class_ 1 body1) w0 (ClassDefPtr.obj (class_ 1 body1))
                gs0 (demo_patchDSL body1)) as (evs & _ & _ & Hcalls & _ & Hiw).
    exists evs. split; [exact Hcalls|exact Hiw].
Defined.

(** The conditions are needed: with a value short [Hash::toString] runs off
    the vector, and a [Rescue] with a null else branch cannot be printed. *)
Example Hash_value_missing :
  toString gs0 (Hash 3 (L 0) [x; x] [Literal 42 (L 0) "1"]) 0
  = Fault OutOfRange.
Proof. reflexivity. Qed.

Example Rescue_else_null :
  construct 6 (new_Rescue (L 0) x [] nullptr none)
  = Fault (EnforceFailed "_sanityCheck")
  /\ toString gs0 (Rescue 6 (L 0) x [] nullptr none) 1 = Fault NullDeref.
Proof. split; reflexivity. Qed.

(** [@x = 1] alone, the round trip of §8: the driver returns the list it was
    given. *)
Example Assign_round_trip :
  ClassDefPtr.rhs
    (ClassDefPtr.obj (postTransformClassDef (class_ 1 [assign 10]) w0).1)
  = [assign 10].
Proof. vm_compute. reflexivity. Qed.

End Instance.

(** ** More properties of the tree *)

Section MoreTreeFacts.
Context `{Core}.
Import ast shape.

(** *** Results that are values *)

Lemma okay_ret {A} (a : A) : okay (mret a : Res A).
Proof. by exists a. Qed.

Lemma okay_bind {A B} (m : Res A) (k : A -> Res B) :
  okay m -> (forall a, okay (k a)) -> okay (m ≫= k).
Proof. intros [a ->] Hk. apply Hk. Qed.

Lemma bind_Ok {A B} (m : Res A) (k : A -> Res B) (b : B) :
  m ≫= k = Ok b -> exists a, m = Ok a /\ k a = Ok b.
Proof. destruct m as [a|]; [|done]. intros Hk. by exists a. Qed.

(** X1: [printTabs] writes two blanks per level and nothing for a count
    below one, as [Rescue::toString] asks of it with [tabs - 1]. *)
Theorem printTabs_length (count : Z) :
  String.length (printTabs count) = (2 * Z.to_nat count)%nat
  /\ (printTabs count = "" <-> (count <= 0)%Z)
  /\ printTabs (count + 1) = (if (0 <=? count)%Z then "  " +:+ printTabs count
                              else "").
Proof.
  assert (Hlen : forall n,
    String.length ((fix loop (n : nat) : string :=
       match n with O => "" | S n' => "  " +:+ loop n' end) n) = (2 * n)%nat).
  { induction n as [|n IH]; [done|].
    change (S (S (String.length ((fix loop (n : nat) : string :=
       match n with O => "" | S n' => "  " +:+ loop n' end) n)))
            = (2 * S n)%nat). lia. }
  split_and!.
  - apply Hlen.
  - unfold printTabs. split.
    + intros Hempty. destruct (Z.to_nat count) eqn:Hc; [lia|done].
    + intros Hle. by replace (Z.to_nat count) with O by lia.
  - unfold printTabs. destruct (Z.leb_spec 0 count).
    + by replace (Z.to_nat (count + 1)) with (S (Z.to_nat count)) by lia.
    + by replace (Z.to_nat (count + 1)) with O by lia.
Qed.

Lemma append_assoc (s1 s2 s3 : string) : (s1 +:+ s2) +:+ s3 = s1 +:+ s2 +:+ s3.
Proof.
  induction s1 as [|c s1 IH]; [done|].
  change (String c ((s1 +:+ s2) +:+ s3) = String c (s1 +:+ s2 +:+ s3)).
  by rewrite IH.
Qed.

Lemma Res_bind_Ok {A B} (a : A) (k : A -> Res B) : Ok a ≫= k = k a.
Proof. done. Qed.

(** The loop of [printElems] once the first element is behind: [";"] goes
    before the first [ShadowArg] unless one was given already. *)
Lemma printElems_rest (toString : Expression -> Z -> Res string) (tabs : Z)
    (xs : list Expression) (didshadow : bool) (texts : list string) :
  Forall2 (fun a s => toString a (tabs + 1)%Z = Ok s) xs texts ->
  (fix go (first didshadow : bool) (xs : list Expression) {struct xs}
      : Res string :=
     match xs with
     | [] => mret ""
     | a :: xs' =>
         let shadow :=
           negb first && nonnull (cast_tree cls.ShadowArg a) && negb didshadow in
         let sep :=
           if first then "" else if shadow then "; " else ", " in
         s ← toString a (tabs + 1)%Z;
         rest ← go false (didshadow || shadow) xs';
         mret (sep +:+ s +:+ rest)
     end) false didshadow xs
  = Ok (foldr String.append ""
          (imap (fun i s =>
             (match list_find (fun a => is_ShadowArg a = true) xs with
              | Some (k, _) =>
                  if decide (k = i) then
                    if didshadow then ", " else "; "
                  else ", "
              | None => ", "
              end) +:+ s) texts)).
Proof.
  intros Htexts. revert didshadow.
  induction Htexts as [|a s xs texts Ha _ IH]; intros didshadow; [done|].
  cbn [negb andb]. rewrite Ha. cbn [mbind Res_bind].
  rewrite IH. cbn [mbind Res_bind mret Res_ret imap foldr]. f_equal.
  rewrite append_assoc.
  cbn [list_find]. unfold is_ShadowArg.
  destruct (nonnull (cast_tree cls.ShadowArg a)) eqn:Hsh.
  - rewrite decide_True by done. rewrite decide_True by done. f_equal.
    + by destruct didshadow.
    + f_equal. f_equal. apply imap_ext. intros i s' _. cbn. f_equal.
      destruct didshadow; cbn;
        (destruct (list_find _ xs) as [[k ?]|]; [|done]); by case_decide.
  - rewrite decide_False by done. cbn [andb orb]. rewrite orb_false_r.
    destruct (list_find _ xs) as [[k ?]|] eqn:Hfind; cbn.
    + rewrite decide_False by done. f_equal. f_equal. f_equal.
      apply imap_ext. intros i s' _. cbn. f_equal.
      repeat case_decide; done || lia.
    + done.
Qed.

Lemma printElems_cons (toString : Expression -> Z -> Res string) (tabs : Z)
    (a : Expression) (xs : list Expression) :
  printElems toString (a :: xs) tabs
  = s ← toString a (tabs + 1)%Z;
    rest ← (fix go (first didshadow : bool) (xs : list Expression) {struct xs}
              : Res string :=
             match xs with
             | [] => mret ""
             | a :: xs' =>
                 let shadow :=
                   negb first && nonnull (cast_tree cls.ShadowArg a)
                   && negb didshadow in
                 let sep :=
                   if first then "" else if shadow then "; " else ", " in
                 s ← toString a (tabs + 1)%Z;
                 rest ← go false (didshadow || shadow) xs';
                 mret (sep +:+ s +:+ rest)
             end) false false xs;
    mret (s +:+ rest).
Proof. done. Qed.

Lemma printElems_fault (toString : Expression -> Z -> Res string) (tabs : Z)
    (pre : list Expression) (a : Expression) (post : list Expression)
    (f : fault) (first didshadow : bool) :
  Forall (fun x => okay (toString x (tabs + 1)%Z)) pre ->
  toString a (tabs + 1)%Z = Fault f ->
  (fix go (first didshadow : bool) (xs : list Expression) {struct xs}
      : Res string :=
     match xs with
     | [] => mret ""
     | a :: xs' =>
         let shadow :=
           negb first && nonnull (cast_tree cls.ShadowArg a) && negb didshadow in
         let sep :=
           if first then "" else if shadow then "; " else ", " in
         s ← toString a (tabs + 1)%Z;
         rest ← go false (didshadow || shadow) xs';
         mret (sep +:+ s +:+ rest)
     end) first didshadow (pre ++ a :: post) = Fault f.
Proof.
  intros Hpre Ha. revert first didshadow.
  induction Hpre as [|x pre [s Hx] _ IH]; intros first didshadow.
  - cbn [app]. by rewrite Ha.
  - cbn [app]. rewrite Hx, Res_bind_Ok. by rewrite IH.
Qed.

(** X2: when every element prints, [printElems] gives the texts of the
    elements in order, with nothing before the first, ["; "] before the
    first [ShadowArg] that is not the first element and [", "] before every
    other; [printArgs] puts this between brackets.  A fault of an element
    whose predecessors print is the fault of the whole. *)
Theorem printElems_separators (toString : Expression -> Z -> Res string)
    (args : list Expression) (tabs : Z) :
  (forall texts,
     Forall2 (fun a s => toString a (tabs + 1)%Z = Ok s) args texts ->
     printElems toString args tabs = Ok (joined args texts)
     /\ printArgs toString args tabs = Ok ("(" +:+ joined args texts +:+ ")"))
  /\ (forall pre a post f,
        args = pre ++ a :: post ->
        Forall (fun x => okay (toString x (tabs + 1)%Z)) pre ->
        toString a (tabs + 1)%Z = Fault f ->
        printElems toString args tabs = Fault f
        /\ printArgs toString args tabs = Fault f).
Proof.
  split.
  - intros texts Htexts.
    assert (Helems : printElems toString args tabs = Ok (joined args texts)).
    { destruct Htexts as [|a s xs texts Ha Htexts]; [done|].
      rewrite printElems_cons, Ha, Res_bind_Ok.
      rewrite (printElems_rest toString tabs xs false texts Htexts).
      rewrite Res_bind_Ok. unfold joined. cbn [imap foldr separator].
      unfold mret, Res_ret. by f_equal. }
    split; [done|]. unfold printArgs. by rewrite Helems.
  - intros pre a post f -> Hpre Ha.
    assert (Helems : printElems toString (pre ++ a :: post) tabs = Fault f).
    { by apply printElems_fault. }
    split; [done|]. unfold printArgs. by rewrite Helems.
Qed.

(** *** Printing a tree with no null child *)

Lemma okay_forEach {A} (f : A -> Res string) (xs : list A) :
  Forall (fun x => okay (f x)) xs -> okay (forEach f xs).
Proof.
  induction 1 as [|x xs Hx _ IH]; cbn [forEach]; [apply okay_ret|].
  apply okay_bind; [done|intros s].
  apply okay_bind; [done|intros; apply okay_ret].
Qed.

Lemma okay_forEachSep {A} (sep0 sep : string) (f : A -> Res string)
    (first : bool) (xs : list A) :
  Forall (fun x => okay (f x)) xs -> okay (forEachSep sep0 sep f first xs).
Proof.
  intros Hxs. revert first.
  induction Hxs as [|x xs Hx _ IH]; intros first; cbn [forEachSep];
    [apply okay_ret|].
  apply okay_bind; [done|intros s].
  apply okay_bind; [done|intros; apply okay_ret].
Qed.

Lemma okay_forEachLast {A} (f : bool -> A -> Res string) (xs : list A) :
  Forall (fun x => forall last, okay (f last x)) xs -> okay (forEachLast f xs).
Proof.
  induction 1 as [|x xs Hx _ IH]; cbn [forEachLast]; [apply okay_ret|].
  apply okay_bind; [done|intros s].
  apply okay_bind; [done|intros; apply okay_ret].
Qed.

Lemma okay_texts {A} (f : A -> Res string) (xs : list A) :
  Forall (fun x => okay (f x)) xs ->
  exists texts, Forall2 (fun a s => f a = Ok s) xs texts.
Proof.
  induction 1 as [|x xs [s Hx] _ [texts IH]]; [by exists []|].
  exists (s :: texts). by constructor.
Qed.

Lemma okay_printElems (toString : Expression -> Z -> Res string)
    (args : list Expression) (tabs : Z) :
  Forall (fun x => okay (toString x (tabs + 1)%Z)) args ->
  okay (printElems toString args tabs).
Proof.
  intros Hargs. destruct (okay_texts _ _ Hargs) as [texts Htexts].
  destruct Htexts as [|a s xs texts Ha Htexts]; [apply okay_ret|].
  rewrite printElems_cons, Ha, Res_bind_Ok.
  rewrite (printElems_rest toString tabs xs false texts Htexts).
  apply okay_ret.
Qed.

Lemma okay_printArgs (toString : Expression -> Z -> Res string)
    (args : list Expression) (tabs : Z) :
  Forall (fun x => okay (toString x (tabs + 1)%Z)) args ->
  okay (printArgs toString args tabs).
Proof.
  intros Hargs. unfold printArgs.
  apply okay_bind; [by apply okay_printElems|intros; apply okay_ret].
Qed.

Lemma okay_forEachPair (values : list Expression)
    (pair : bool -> Expression -> Expression -> Res string)
    (i : Z) (first : bool) (keys : list Expression) :
  (-1 <= i)%Z ->
  length keys <= length (drop (Z.to_nat (i + 1)) values) ->
  Forall (fun k => Forall (fun v => forall first, okay (pair first k v)) values)
    keys ->
  okay (forEachPair values pair i first keys).
Proof.
  intros Hi Hlen Hpair. revert i first Hi Hlen.
  induction Hpair as [|key keys Hkey _ IH]; intros i first Hi Hlen.
  - apply okay_ret.
  - cbn [forEachPair].
    destruct (drop (Z.to_nat (i + 1)) values) as [|v rest] eqn:Hd;
      [cbn in Hlen; lia|].
    rewrite (at_index_drop values (i + 1) _ v rest) by (done || lia).
    assert (Hv : forall first, okay (pair first key v)).
    { rewrite <-(take_drop (Z.to_nat (i + 1)) values), Hd in Hkey.
      apply Forall_app in Hkey as [_ Hkey].
      by apply Forall_cons in Hkey as [? _]. }
    apply okay_bind; [done|intros s].
    apply okay_bind; [|intros; apply okay_ret].
    apply IH; [lia|].
    replace (Z.to_nat (i + 1 + 1)) with (S (Z.to_nat (i + 1))) by lia.
    change (S (Z.to_nat (i + 1))) with (1 + Z.to_nat (i + 1))%nat.
    rewrite Nat.add_comm, <-drop_drop, Hd. simpl in *. rewrite drop_0. lia.
Qed.

Lemma list_all_printable (Q : Expression -> Prop) (xs : list Expression) :
  list_all Expression (fun e => printable e = true -> Q e) xs ->
  forallb printable xs = true -> Forall Q xs.
Proof.
  induction 1 as [|x Hx xs _ IH]; cbn [forallb]; [done|].
  intros [??]%andb_prop. constructor; auto.
Qed.

Section Printable.
Variable gs : GlobalState.

Lemma toString_okay (e : Expression) :
  printable e = true -> forall tabs, okay (toString gs e tabs).
Proof.
  induction e; intros Hp tabs; cbn [printable] in Hp; [done|..];
    repeat match goal with
           | H : _ && _ = true |- _ => apply andb_prop in H; destruct H
           | H : list_all _ _ ?xs, Hxs : forallb printable ?xs = true |- _ =>
               apply list_all_printable in H; [clear Hxs|exact Hxs]
           | H : bool_decide _ = true |- _ => apply bool_decide_eq_true in H
           end;
    cbn [toString].
  all: repeat first
    [ apply okay_ret
    | progress auto
    | apply okay_bind; [|intros]
    | apply okay_printArgs
    | apply okay_printElems
    | apply okay_forEach
    | apply okay_forEachSep
    | match goal with
      | H : Forall _ ?xs |- Forall _ ?xs =>
          eapply Forall_impl; [exact H|]; intros ??; cbn beta
      | |- Forall _ _ => apply Forall_forall; intros ??
      | |- okay (if ?b then _ else _) => destruct b eqn:?
      end ].
  - match goal with
    | IH : printable ?e = true -> _ |- okay (toString gs ?e _) =>
        apply IH; destruct e; cbn in *; congruence
    end.
  - match goal with
    | Hk : Forall _ ?keys, Hv : Forall _ ?values
      |- okay (forEachPair ?values _ _ _ ?keys) =>
        apply okay_forEachPair;
          [lia|change (Z.to_nat (-1 + 1)) with O; rewrite drop_0; lia|];
        eapply Forall_impl; [exact Hk|]; intros k Hkey; cbn beta;
        eapply Forall_impl; [exact Hv|]; intros v Hvalue first; cbn beta
    end.
    repeat (apply okay_bind; [auto|intros]). apply okay_ret.
Qed.

Lemma showRaw_okay (e : Expression) :
  printable e = true -> forall tabs, okay (showRaw gs e tabs).
Proof.
  induction e; intros Hp tabs; cbn [printable] in Hp; [done|..];
    repeat match goal with
           | H : _ && _ = true |- _ => apply andb_prop in H; destruct H
           | H : list_all _ _ ?xs, Hxs : forallb printable ?xs = true |- _ =>
               apply list_all_printable in H; [clear Hxs|exact Hxs]
           | H : bool_decide _ = true |- _ => apply bool_decide_eq_true in H
           end;
    cbn [showRaw].
  all: repeat first
    [ apply okay_ret
    | progress auto
    | apply okay_bind; [|intros]
    | apply okay_forEach
    | apply okay_forEachSep
    | apply okay_forEachLast
    | match goal with
      | H : Forall _ ?xs |- Forall _ ?xs =>
          eapply Forall_impl; [exact H|]; intros ??; cbn beta
      | |- Forall _ _ => apply Forall_forall; intros ??
      | |- okay (if ?b then _ else _) =>
          destruct b eqn:?; cbn [negb orb] in *
      | |- forall _ : bool, _ => intros ?
      end ].
  match goal with
  | Hk : Forall _ ?keys, Hv : Forall _ ?values
    |- okay (forEachPair ?values _ _ _ ?keys) =>
      apply okay_forEachPair;
        [lia|change (Z.to_nat (-1 + 1)) with O; rewrite drop_0; lia|];
      eapply Forall_impl; [exact Hk|]; intros k Hkey; cbn beta;
      eapply Forall_impl; [exact Hv|]; intros v Hvalue first; cbn beta
  end.
  repeat (apply okay_bind; [auto|intros]). apply okay_ret.
Qed.

Lemma showRaw_nodeName (e : Expression) (tabs : Z) (r : string) :
  showRaw gs e tabs = Ok r ->
  exists c s, class_of e = Some c /\ r = nodeName c +:+ s.
Proof.
  destruct e; cbn [showRaw class_of]; intros Hr; [done|..];
    repeat match goal with
           | H : _ ≫= _ = Ok _ |- _ => apply bind_Ok in H as (? & ? & H)
           end;
    injection Hr as <-; eexists _, _; (split; [reflexivity|]);
    first [reflexivity | symmetry; apply append_empty_r].
Qed.

End Printable.

(** *** Printing does not look at addresses and locations *)

Lemma bind_ext {A B} (m m' : Res A) (k k' : A -> Res B) :
  m = m' -> (forall a, k a = k' a) -> m ≫= k = m' ≫= k'.
Proof. intros -> Hk. destruct m'; [apply Hk|done]. Qed.

Lemma class_of_erase (e : Expression) : class_of (erase e) = class_of e.
Proof. by destruct e. Qed.

Lemma nonnull_erase (e : Expression) : nonnull (erase e) = nonnull e.
Proof. by destruct e. Qed.

Lemma nonnull_cast_tree_erase (T : cls.t) (e : Expression) :
  nonnull (cast_tree T (erase e)) = nonnull (cast_tree T e).
Proof.
  unfold cast_tree, isa. rewrite class_of_erase.
  destruct (class_of e) as [c|]; [|done].
  destruct (cls.derives c T); [apply nonnull_erase|done].
Qed.

Lemma forEach_erase (f g : Expression -> Res string) (xs : list Expression) :
  Forall (fun x => f (erase x) = g x) xs ->
  forEach f (map erase xs) = forEach g xs.
Proof.
  induction 1 as [|x xs Hx _ IH]; [done|]. cbn [map forEach].
  apply bind_ext; [done|intros s]. by rewrite IH.
Qed.

Lemma forEachSep_erase (sep0 sep : string) (f g : Expression -> Res string)
    (first : bool) (xs : list Expression) :
  Forall (fun x => f (erase x) = g x) xs ->
  forEachSep sep0 sep f first (map erase xs) = forEachSep sep0 sep g first xs.
Proof.
  intros Hxs. revert first.
  induction Hxs as [|x xs Hx _ IH]; intros first; [done|].
  cbn [map forEachSep]. apply bind_ext; [done|intros s]. by rewrite IH.
Qed.

Lemma forEachLast_erase (f g : bool -> Expression -> Res string)
    (xs : list Expression) :
  Forall (fun x => forall last, f last (erase x) = g last x) xs ->
  forEachLast f (map erase xs) = forEachLast g xs.
Proof.
  induction 1 as [|x xs Hx _ IH]; [done|]. cbn [map forEachLast].
  apply bind_ext; [by destruct xs|intros s]. by rewrite IH.
Qed.

Lemma printElems_erase (f g : Expression -> Z -> Res string)
    (xs : list Expression) (tabs : Z) :
  Forall (fun x => f (erase x) (tabs + 1)%Z = g x (tabs + 1)%Z) xs ->
  printElems f (map erase xs) tabs = printElems g xs tabs.
Proof.
  intros Hxs.
  enough (Hgo : forall first didshadow,
    (fix go (first didshadow : bool) (xs : list Expression) {struct xs}
        : Res string :=
       match xs with
       | [] => mret ""
       | a :: xs' =>
           let shadow :=
             negb first && nonnull (cast_tree cls.ShadowArg a)
             && negb didshadow in
           let sep :=
             if first then "" else if shadow then "; " else ", " in
           s ← f a (tabs + 1)%Z;
           rest ← go false (didshadow || shadow) xs';
           mret (sep +:+ s +:+ rest)
       end) first didshadow (map erase xs)
    = (fix go (first didshadow : bool) (xs : list Expression) {struct xs}
        : Res string :=
       match xs with
       | [] => mret ""
       | a :: xs' =>
           let shadow :=
             negb first && nonnull (cast_tree cls.ShadowArg a)
             && negb didshadow in
           let sep :=
             if first then "" else if shadow then "; " else ", " in
           s ← g a (tabs + 1)%Z;
           rest ← go false (didshadow || shadow) xs';
           mret (sep +:+ s +:+ rest)
       end) first didshadow xs) by apply Hgo.
  induction Hxs as [|x xs Hx _ IH]; intros first didshadow; [done|].
  cbn [map]. cbv zeta. rewrite nonnull_cast_tree_erase.
  apply bind_ext; [done|intros s]. by rewrite IH.
Qed.

Lemma printArgs_erase (f g : Expression -> Z -> Res string)
    (xs : list Expression) (tabs : Z) :
  Forall (fun x => f (erase x) (tabs + 1)%Z = g x (tabs + 1)%Z) xs ->
  printArgs f (map erase xs) tabs = printArgs g xs tabs.
Proof. intros Hxs. unfold printArgs. by rewrite (printElems_erase f g). Qed.

Lemma at_index_erase {B} (values : list Expression) (i : Z)
    (k k' : Expression -> Res B) :
  Forall (fun v => k (erase v) = k' v) values ->
  at_index (map erase values) i k = at_index values i k'.
Proof.
  intros Hvalues. unfold at_index. destruct (i <? 0)%Z; [done|].
  generalize (Z.to_nat i).
  induction Hvalues as [|v values Hv _ IH]; intros [|n]; cbn [map]; auto.
Qed.

Lemma forEachPair_erase (values : list Expression)
    (pair pair' : bool -> Expression -> Expression -> Res string)
    (i : Z) (first : bool) (keys : list Expression) :
  Forall (fun k => Forall (fun v =>
            forall first, pair first (erase k) (erase v) = pair' first k v)
          values) keys ->
  forEachPair (map erase values) pair i first (map erase keys)
  = forEachPair values pair' i first keys.
Proof.
  intros Hkeys. revert i first.
  induction Hkeys as [|key keys Hkey _ IH]; intros i first; [done|].
  cbn [map forEachPair]. apply at_index_erase.
  eapply Forall_impl; [exact Hkey|]. intros v Hv. cbn beta.
  apply bind_ext; [done|intros s]. by rewrite IH.
Qed.

Lemma list_all_Forall (P : Expression -> Prop) (xs : list Expression) :
  list_all Expression P xs -> Forall P xs.
Proof. induction 1; by constructor. Qed.

Ltac erase_step :=
  first
    [ reflexivity
    | assumption
    | match goal with
      | IH : forall tabs : Z, _ = _ |- _ = _ => apply IH
      end
    | apply bind_ext; [|intros]
    | apply forEach_erase
    | apply forEachSep_erase
    | apply forEachLast_erase
    | apply printArgs_erase
    | apply printElems_erase
    | apply forEachPair_erase
    | match goal with
      | H : Forall _ ?xs |- Forall _ ?xs =>
          eapply Forall_impl; [exact H|]; intros ? ?; cbn beta in *
      | |- Forall _ _ => apply Forall_forall; intros ? ?
      | |- (if ?b then _ else _) = (if ?b then _ else _) => destruct b
      | |- forall _ : bool, _ => intros ?
      end ].

Section Erased.
Variable gs : GlobalState.

Lemma toString_erased (e : Expression) :
  forall tabs, toString gs (erase e) tabs = toString gs e tabs.
Proof.
  induction e; intros tabs; cbn [erase toString];
    repeat match goal with
           | H : list_all _ _ _ |- _ => apply list_all_Forall in H
           end;
    rewrite ?nonnull_cast_tree_erase, ?nonnull_erase;
    repeat erase_step.
Qed.

Lemma showRaw_erased (e : Expression) :
  forall tabs, showRaw gs (erase e) tabs = showRaw gs e tabs.
Proof.
  induction e; intros tabs; cbn [erase showRaw];
    repeat match goal with
           | H : list_all _ _ _ |- _ => apply list_all_Forall in H
           end;
    rewrite ?nonnull_cast_tree_erase, ?nonnull_erase;
    repeat erase_step.
Qed.

End Erased.

(** *** The printers on whole trees *)

Section WholeTrees.
Variable gs : GlobalState.

(** X3: [toString] gives a text for every tree in which the pointers it
    goes through are set: no child is null, but for the block of a [Send]
    and the children of a [ConstantLit] that are not needed, and a [Hash]
    has a value for every key. *)
Theorem toString_printable (e : Expression) (tabs : Z) :
  printable e = true -> okay (toString gs e tabs).
Proof. intros Hp. by apply toString_okay. Qed.

(** X4: [showRaw] gives a text for every such tree as well, and a text it
    gives begins with the [nodeName] of the class of the node. *)
Theorem showRaw_printable (e : Expression) (tabs : Z) :
  (printable e = true -> okay (showRaw gs e tabs))
  /\ (forall r,
        showRaw gs e tabs = Ok r ->
        exists c s, class_of e = Some c /\ r = nodeName c +:+ s).
Proof. split; [intros Hp; by apply showRaw_okay|apply showRaw_nodeName]. Qed.

(** X5: the printers look at no address and no location: two trees that
    differ in these alone print the same, and fail the same. *)
Theorem printing_ignores_addresses (e1 e2 : Expression) (tabs : Z) :
  erase e1 = erase e2 ->
  toString gs e1 tabs = toString gs e2 tabs
  /\ showRaw gs e1 tabs = showRaw gs e2 tabs.
Proof.
  intros Herase. split.
  - by rewrite <-(toString_erased gs e1), <-(toString_erased gs e2), Herase.
  - by rewrite <-(showRaw_erased gs e1), <-(showRaw_erased gs e2), Herase.
Qed.

End WholeTrees.

Section SendFacts.
Variable gs : GlobalState.

(** C9: [Send::toString] and [Send::showRaw] dereference the receiver
    whatever it is, so a [Send] with a null receiver cannot be printed; a
    null block can: [toString] then appends nothing after the arguments, and
    [showRaw] prints [nullptr] for it.  A [Send] with a receiver and
    arguments that print, and no block, is printed by both: [toString]
    gives the receiver, the name and the arguments, and [showRaw] gives the
    fields with the line [block = nullptr]. *)
Theorem Send_recv_block (this : positive) (l : Loc) (recv : Expression)
    (fun_ : NameRef) (args : list Expression) (block : Expression) (tabs : Z) :
  toString gs (Send this l nullptr fun_ args block) tabs = Fault NullDeref
  /\ showRaw gs (Send this l nullptr fun_ args block) tabs = Fault NullDeref
  /\ (forall s,
        toString gs (Send this l recv fun_ args block) tabs = Ok s
        \/ showRaw gs (Send this l recv fun_ args block) tabs = Ok s ->
        recv <> nullptr)
  /\ toString gs (Send this l recv fun_ args nullptr) tabs
     = (r ← toString gs recv tabs;
        a ← printArgs (toString gs) args tabs;
        mret (r +:+ "." +:+ Name_toString gs fun_ +:+ a))
  /\ (block <> nullptr ->
      toString gs (Send this l recv fun_ args block) tabs
      = (r ← toString gs recv tabs;
         a ← printArgs (toString gs) args tabs;
         bl ← toString gs block tabs;
         mret (r +:+ "." +:+ Name_toString gs fun_ +:+ a +:+ bl)))
  /\ showRaw gs (Send this l recv fun_ args nullptr) tabs
     = (r ← showRaw gs recv (tabs + 1);
        a ← forEach (fun a =>
               s ← showRaw gs a (tabs + 2);
               mret (printTabs (tabs + 2) +:+ s +:+ nl)) args;
        mret (nodeName cls.Send +:+ "{" +:+ nl
              +:+ printTabs (tabs + 1) +:+ "recv = " +:+ r +:+ nl
              +:+ printTabs (tabs + 1) +:+ "fun = " +:+ Name_toString gs fun_ +:+ nl
              +:+ printTabs (tabs + 1) +:+ "block = " +:+ "nullptr" +:+ nl
              +:+ printTabs (tabs + 1) +:+ "args = [" +:+ nl +:+ a
              +:+ printTabs (tabs + 1) +:+ "]" +:+ nl
              +:+ printTabs tabs +:+ "}"))
  /\ (printable recv = true ->
      forallb printable args = true ->
      exists r a r' a',
        toString gs recv tabs = Ok r
        /\ printArgs (toString gs) args tabs = Ok a
        /\ toString gs (Send this l recv fun_ args nullptr) tabs
           = Ok (r +:+ "." +:+ Name_toString gs fun_ +:+ a)
        /\ showRaw gs recv (tabs + 1) = Ok r'
        /\ forEach (fun a =>
              s ← showRaw gs a (tabs + 2);
              mret (printTabs (tabs + 2) +:+ s +:+ nl)) args = Ok a'
        /\ showRaw gs (Send this l recv fun_ args nullptr) tabs
           = Ok (nodeName cls.Send +:+ "{" +:+ nl
                 +:+ printTabs (tabs + 1) +:+ "recv = " +:+ r' +:+ nl
                 +:+ printTabs (tabs + 1) +:+ "fun = " +:+ Name_toString gs fun_
                 +:+ nl
                 +:+ printTabs (tabs + 1) +:+ "block = " +:+ "nullptr" +:+ nl
                 +:+ printTabs (tabs + 1) +:+ "args = [" +:+ nl +:+ a'
                 +:+ printTabs (tabs + 1) +:+ "]" +:+ nl
                 +:+ printTabs tabs +:+ "}")).
Proof.
  assert (Hstr : toString gs (Send this l recv fun_ args nullptr) tabs
     = (r ← toString gs recv tabs;
        a ← printArgs (toString gs) args tabs;
        mret (r +:+ "." +:+ Name_toString gs fun_ +:+ a))).
  { cbn [toString nonnull].
    destruct (toString gs recv tabs) as [r|]; [|done]. cbn.
    destruct (printArgs (toString gs) args tabs) as [a|]; [|done]. cbn.
    by rewrite append_empty_r. }
  assert (Hraw : showRaw gs (Send this l recv fun_ args nullptr) tabs
     = (r ← showRaw gs recv (tabs + 1);
        a ← forEach (fun a =>
               s ← showRaw gs a (tabs + 2);
               mret (printTabs (tabs + 2) +:+ s +:+ nl)) args;
        mret (nodeName cls.Send +:+ "{" +:+ nl
              +:+ printTabs (tabs + 1) +:+ "recv = " +:+ r +:+ nl
              +:+ printTabs (tabs + 1) +:+ "fun = " +:+ Name_toString gs fun_ +:+ nl
              +:+ printTabs (tabs + 1) +:+ "block = " +:+ "nullptr" +:+ nl
              +:+ printTabs (tabs + 1) +:+ "args = [" +:+ nl +:+ a
              +:+ printTabs (tabs + 1) +:+ "]" +:+ nl
              +:+ printTabs tabs +:+ "}"))).
  { cbn [showRaw nonnull].
    destruct (showRaw gs recv (tabs + 1)); [|done]. cbn.
    match goal with |- context [forEach ?f args] =>
      destruct (forEach f args); done end. }
  split_and!.
  - done.
  - done.
  - intros s [Hs|Hs] ->; discriminate.
  - exact Hstr.
  - intros Hblock. cbn [toString].
    replace (nonnull block) with true by by destruct block. done.
  - exact Hraw.
  - intros Hrecv Hargs%Is_true_true%forallb_True.
    destruct (toString_okay gs recv Hrecv tabs) as [r Hr].
    destruct (showRaw_okay gs recv Hrecv (tabs + 1)) as [r' Hr'].
    destruct (okay_printArgs (toString gs) args tabs) as [a Ha].
    { eapply Forall_impl; [exact Hargs|]. intros x Hx%Is_true_true.
      by apply toString_okay. }
    destruct (okay_forEach (fun a =>
                s ← showRaw gs a (tabs + 2);
                mret (printTabs (tabs + 2) +:+ s +:+ nl)) args) as [a' Ha'].
    { eapply Forall_impl; [exact Hargs|]. intros x Hx%Is_true_true.
      cbn beta. apply okay_bind; [by apply showRaw_okay|].
      intros. apply okay_ret. }
    exists r, a, r', a'. split_and!; [done|done| |done|done|].
    + by rewrite Hstr, Hr, Res_bind_Ok, Ha.
    + by rewrite Hraw, Hr', Res_bind_Ok, Ha'.
Qed.

End SendFacts.

(** *** A [Hash] whose keys and values differ in number *)

Lemma forEachPair_zip_le (values : list Expression)
    (pair : bool -> Expression -> Expression -> Res string)
    (i : Z) (first : bool) (keys : list Expression) :
  (-1 <= i)%Z ->
  length keys <= length (drop (Z.to_nat (i + 1)) values) ->
  forEachPair values pair i first keys
  = forEachZip pair first (zip keys (drop (Z.to_nat (i + 1)) values)).
Proof.
  revert i first. induction keys as [|key keys IH]; intros i first Hi Hlen.
  - reflexivity.
  - cbn [forEachPair].
    destruct (drop (Z.to_nat (i + 1)) values) as [|v rest] eqn:Hd;
      [simpl in Hlen; lia|].
    rewrite (at_index_drop values (i + 1) _ v rest) by (done || lia).
    assert (Hrest : drop (Z.to_nat (i + 1 + 1)) values = rest).
    { replace (Z.to_nat (i + 1 + 1)) with (S (Z.to_nat (i + 1))) by lia.
      change (S (Z.to_nat (i + 1))) with (1 + Z.to_nat (i + 1))%nat.
      rewrite Nat.add_comm, <-drop_drop, Hd. done. }
    cbn [zip_with forEachZip]. rewrite IH by (rewrite ?Hrest; simpl in *; lia).
    by rewrite Hrest.
Qed.

Lemma at_index_beyond {A B} (values : list A) (i : Z) (k : A -> Res B) :
  drop (Z.to_nat i) values = [] -> at_index values i k = Fault OutOfRange.
Proof.
  unfold at_index. destruct (i <? 0)%Z; [done|].
  generalize (Z.to_nat i).
  induction values as [|x xs IH]; intros [|n] Hd; simplify_eq/=; eauto.
Qed.

Lemma forEachPair_beyond (values : list Expression)
    (pair : bool -> Expression -> Expression -> Res string)
    (i : Z) (first : bool) (keys : list Expression) :
  (-1 <= i)%Z ->
  length (drop (Z.to_nat (i + 1)) values) < length keys ->
  Forall (fun k => Forall (fun v => forall first, okay (pair first k v)) values)
    keys ->
  forEachPair values pair i first keys = Fault OutOfRange.
Proof.
  intros Hi Hlen Hpair. revert i first Hi Hlen.
  induction Hpair as [|key keys Hkey _ IH]; intros i first Hi Hlen.
  - simpl in Hlen. lia.
  - cbn [forEachPair].
    destruct (drop (Z.to_nat (i + 1)) values) as [|v rest] eqn:Hd.
    { by apply at_index_beyond. }
    rewrite (at_index_drop values (i + 1) _ v rest) by (done || lia).
    assert (Hv : okay (pair first key v)).
    { rewrite <-(take_drop (Z.to_nat (i + 1)) values), Hd in Hkey.
      apply Forall_app in Hkey as [_ Hkey].
      by apply Forall_cons in Hkey as [? _]. }
    destruct Hv as [s ->]. rewrite Res_bind_Ok.
    rewrite IH; [done|lia|].
    replace (Z.to_nat (i + 1 + 1)) with (S (Z.to_nat (i + 1))) by lia.
    change (S (Z.to_nat (i + 1))) with (1 + Z.to_nat (i + 1))%nat.
    rewrite Nat.add_comm, <-drop_drop, Hd. simpl in *. rewrite drop_0. lia.
Qed.

Section HashFacts.
Variable gs : GlobalState.

(** X6: the values of a [Hash] beyond the number of its keys are never
    read: [Hash::toString] and [Hash::showRaw] print the node as if they
    were not there. *)
Theorem Hash_surplus_values (this : positive) (l : Loc)
    (keys values : list Expression) (tabs : Z) :
  length keys <= length values ->
  toString gs (Hash this l keys values) tabs
  = toString gs (Hash this l keys (take (length keys) values)) tabs
  /\ showRaw gs (Hash this l keys values) tabs
     = showRaw gs (Hash this l keys (take (length keys) values)) tabs.
Proof.
  intros Hlen.
  assert (Htake : length keys <= length (take (length keys) values)).
  { rewrite length_take. lia. }
  split.
  - cbn [toString].
    rewrite !forEachPair_zip_le by (rewrite ?drop_0; done || lia).
    change (Z.to_nat (-1 + 1)) with O. by rewrite !drop_0, zip_with_take_r.
  - cbn [showRaw].
    rewrite !forEachPair_zip_le by (rewrite ?drop_0; done || lia).
    change (Z.to_nat (-1 + 1)) with O. by rewrite !drop_0, zip_with_take_r.
Qed.

(** X7: with fewer values than keys, and keys and values that print,
    [Hash::toString] and [Hash::showRaw] print the pairs there are and then
    read [values[i]] past the end of the vector. *)
Theorem Hash_missing_value (this : positive) (l : Loc)
    (keys values : list Expression) (tabs : Z) :
  length values < length keys ->
  forallb printable keys = true ->
  forallb printable values = true ->
  toString gs (Hash this l keys values) tabs = Fault OutOfRange
  /\ showRaw gs (Hash this l keys values) tabs = Fault OutOfRange.
Proof.
  intros Hlen Hkeys%Is_true_true%forallb_True Hvalues%Is_true_true%forallb_True.
  split.
  - cbn [toString]. rewrite forEachPair_beyond; [done|lia|by rewrite drop_0|].
    eapply Forall_impl; [exact Hkeys|]. intros k Hk. cbn beta.
    eapply Forall_impl; [exact Hvalues|]. intros v Hv first. cbn beta.
    apply Is_true_true in Hk, Hv.
    repeat (apply okay_bind; [by apply toString_okay|intros]). apply okay_ret.
  - cbn [showRaw]. rewrite forEachPair_beyond; [done|lia|by rewrite drop_0|].
    eapply Forall_impl; [exact Hkeys|]. intros k Hk. cbn beta.
    eapply Forall_impl; [exact Hvalues|]. intros v Hv first. cbn beta.
    apply Is_true_true in Hk, Hv.
    repeat (apply okay_bind; [by apply showRaw_okay|intros]). apply okay_ret.
Qed.

End HashFacts.

(** *** Resolved symbols, node names and classes *)

Section Names.
Variable gs : GlobalState.

Lemma forEachSep_rest {A} (sep0 sep : string) (f : A -> string)
    (xs : list A) :
  forEachSep sep0 sep (fun a => mret (f a)) false xs
  = Ok (foldr (fun a rest => sep +:+ f a +:+ rest) "" xs).
Proof.
  induction xs as [|a xs IH]; [done|]. cbn [forEachSep foldr].
  by rewrite Res_bind_Ok, IH.
Qed.

Lemma concat_cons (sep : string) (x : string) (xs : list string) :
  String.concat sep (x :: xs)
  = x +:+ foldr (fun y rest => sep +:+ y +:+ rest) "" xs.
Proof.
  revert x. induction xs as [|y xs IH]; intros x.
  - cbn. by rewrite append_empty_r.
  - change (String.concat sep (x :: y :: xs))
      with (x +:+ sep +:+ String.concat sep (y :: xs)).
    by rewrite IH.
Qed.

Lemma forEachSep_concat {A} (sep : string) (f : A -> string) (xs : list A) :
  forEachSep "" sep (fun a => mret (f a)) true xs
  = Ok (String.concat sep (map f xs)).
Proof.
  destruct xs as [|a xs]; [done|]. cbn [forEachSep map].
  rewrite Res_bind_Ok, forEachSep_rest, Res_bind_Ok, concat_cons.
  unfold mret, Res_ret. f_equal. change ("" +:+ ?s) with s. f_equal.
  induction xs as [|b xs IH]; [done|]. cbn [foldr map]. by rewrite IH.
Qed.

Lemma forEach_concat {A} (f : A -> string) (xs : list A) :
  forEach (fun a => mret (f a)) xs = Ok (String.concat "" (map f xs)).
Proof.
  induction xs as [|a xs IH]; [done|]. cbn [forEach map].
  rewrite Res_bind_Ok, IH, Res_bind_Ok, concat_cons.
  unfold mret, Res_ret. f_equal. f_equal.
  destruct (map f xs) as [|y ys]; [done|]. by rewrite concat_cons.
Qed.

(** X8: once the symbol of a [MethodDef] is resolved, [MethodDef::toString]
    prints between the brackets the names of the arguments of the symbol,
    with [", "] between them, and does not touch the argument nodes.  For a
    [Block] whose symbol exists, [Block::toString] prints between the bars
    the arguments of the symbol, each as [&], [*], its name and [:] as far
    as it is a block argument, repeated, and a keyword, and
    [Block::showRaw] prints the symbols of the arguments one after the
    other; neither touches the argument nodes. *)
Theorem resolved_symbol_arguments (this : positive) (l declLoc : Loc)
    (symbol : SymbolRef) (name : NameRef) (args args' : list Expression)
    (rhs : Expression) (flags : Z) (tabs : Z) :
  (symbol <> Symbols_todo ->
   toString gs (MethodDef this l declLoc symbol name args rhs flags) tabs
   = toString gs (MethodDef this l declLoc symbol name args' rhs flags) tabs)
  /\ (SymbolRef_exists symbol = true ->
      toString gs (Block this l symbol args rhs) tabs
      = toString gs (Block this l symbol args' rhs) tabs
      /\ showRaw gs (Block this l symbol args rhs) tabs
         = showRaw gs (Block this l symbol args' rhs) tabs)
  /\ (symbol <> Symbols_todo ->
      toString gs (MethodDef this l declLoc symbol name args rhs flags) tabs
      = (body ← toString gs rhs (tabs + 1);
         mret ((if isSelf flags then "def self." else "def ")
               +:+ Name_toString gs name +:+ "<"
               +:+ Name_toString gs (Symbol_name gs symbol) +:+ ">"
               +:+ "("
               +:+ String.concat ", "
                     (map (fun a => NameRef_toString gs (Symbol_name gs a))
                        (Symbol_arguments gs symbol))
               +:+ ")" +:+ nl
               +:+ printTabs (tabs + 1) +:+ body +:+ nl
               +:+ printTabs tabs +:+ "end")))
  /\ (SymbolRef_exists symbol = true ->
      toString gs (Block this l symbol args rhs) tabs
      = (b ← toString gs rhs (tabs + 1);
         mret (" do |"
               +:+ String.concat ", "
                     (map (fun argSym =>
                        (if Symbol_isBlockArgument gs argSym then "&" else "")
                        +:+ (if Symbol_isRepeated gs argSym then "*" else "")
                        +:+ NameRef_toString gs (Symbol_name gs argSym)
                        +:+ (if Symbol_isKeyword gs argSym then ":" else ""))
                        (Symbol_arguments gs symbol))
               +:+ "|" +:+ nl
               +:+ printTabs (tabs + 1) +:+ b +:+ nl
               +:+ printTabs tabs +:+ "end"))
      /\ showRaw gs (Block this l symbol args rhs) tabs
         = (b ← showRaw gs rhs (tabs + 1);
            mret (nodeName cls.Block +:+ " {" +:+ nl
                  +:+ printTabs (tabs + 1) +:+ "args = [" +:+ nl
                  +:+ String.concat ""
                        (map (fun argSym =>
                           Symbol_toString gs argSym (tabs + 2))
                           (Symbol_arguments gs symbol))
                  +:+ printTabs (tabs + 1) +:+ "]" +:+ nl
                  +:+ printTabs (tabs + 1) +:+ "body = " +:+ b +:+ nl
                  +:+ printTabs tabs +:+ "}"))).
Proof.
  split_and!.
  - intros Htodo. cbn [toString]. by case_decide.
  - intros Hexists. cbn [toString showRaw]. by rewrite Hexists.
  - intros Htodo. cbn [toString]. case_decide; [done|].
    by rewrite forEachSep_concat, Res_bind_Ok.
  - intros Hexists. split.
    + cbn [toString]. rewrite Hexists. cbn [negb].
      by rewrite forEachSep_concat, Res_bind_Ok.
    + cbn [showRaw]. rewrite Hexists. cbn [negb].
      by rewrite forEach_concat, Res_bind_Ok.
Qed.

End Names.

(** X9: every node class has a name of its own: [nodeName] of a node is
    not empty, and nodes of two classes have two names. *)
Theorem nodeName_injective (e1 e2 : Expression) (c1 c2 : cls.t) :
  class_of e1 = Some c1 ->
  class_of e2 = Some c2 ->
  nodeName c1 <> "" /\ (nodeName c1 = nodeName c2 -> c1 = c2).
Proof.
  intros H1 H2. split.
  - destruct e1; simplify_eq/=; done.
  - destruct e1; simplify_eq/=; destruct e2; simplify_eq/=; done.
Qed.

Lemma derives_spec (c d : cls.t) :
  cls.derives c d = true
  <-> d = c \/ cls.base c = Some d \/ d = cls.Expression.
Proof.
  assert (Hd : cls.derives c d
    = bool_decide (d = c \/ cls.base c = Some d \/ d = cls.Expression))
    by (by destruct c, d).
  rewrite Hd. apply bool_decide_eq_true.
Qed.

(** X10: the base classes the constructors initialise make a tree with
    [Expression] at the root: [derives] is a partial order with
    [Expression] on top, and a class other than [Expression], [Reference]
    and [Declaration] has no class below it, so a [dynamic_cast] to it
    succeeds on the objects of that class only. *)
Theorem derives_order (c d e : cls.t) (x : Expression) :
  cls.derives c c = true
  /\ cls.derives c cls.Expression = true
  /\ (cls.derives c d = true -> cls.derives d e = true ->
      cls.derives c e = true)
  /\ (cls.derives c d = true -> cls.derives d c = true -> c = d)
  /\ (d <> cls.Expression -> d <> cls.Reference -> d <> cls.Declaration ->
      (isa d x = true <-> class_of x = Some d)).
Proof.
  split_and!.
  - apply derives_spec. by left.
  - apply derives_spec. by right; right.
  - rewrite !derives_spec. intros Hcd Hde.
    destruct Hcd as [Hcd|[Hcd|Hcd]]; [by subst|..].
    + destruct Hde as [Hde|[Hde|Hde]]; [subst; eauto| |eauto].
      right; right. destruct c; simplify_eq/=; by simplify_eq/=.
    + subst d. destruct Hde as [Hde|[Hde|Hde]]; [eauto|done|eauto].
  - rewrite !derives_spec. intros Hcd Hdc.
    destruct Hcd as [Hcd|[Hcd|Hcd]]; [done|..].
    + destruct Hdc as [Hdc|[Hdc|Hdc]]; [done| |by subst].
      destruct c; simplify_eq/=; by simplify_eq/=.
    + subst d. by destruct Hdc as [Hdc|[Hdc|Hdc]].
  - intros HE HR HD. unfold isa. destruct (class_of x) as [c'|]; [|done].
    rewrite derives_spec. split.
    + intros [->|[Hb| ->]]; [done| |done].
      destruct c'; simplify_eq/=; done.
    + intros [= ->]. by left.
Qed.

End MoreTreeFacts.

(** ** More properties of the driver *)

Section MoreDriverFacts.
Context `{Core} `{!dsl.Rules}.
Import ast dsl.

(** *** What the scan records *)

Lemma classDef_stat_records (stat prevStat : Expression)
    (replaceNodes : gmap N (list Expression)) (w : World) :
  (classDef_stat stat prevStat replaceNodes w).1 = replaceNodes
  \/ exists nodes,
       nodes <> []
       /\ (classDef_stat stat prevStat replaceNodes w).1
          = <[ast.get stat := nodes]> replaceNodes
       /\ isa cls.Assign stat || isa cls.Send stat || isa cls.MethodDef stat
          = true.
Proof.
  unfold classDef_stat, handlers. cbn [typecase].
  rewrite !nonnull_cast_tree, isa_Expression.
  destruct (isa cls.Assign stat) eqn:HA; [|destruct (isa cls.Send stat) eqn:HS;
    [|destruct (isa cls.MethodDef stat) eqn:HM]];
    rewrite ?cast_tree_isa by done;
    unfold mbind, mret, M_bind, M_ret, call.
  - destruct (Struct_replaceDSL _ _) as [[|??] ?]; cbn; [by left|right; eexists (_ :: _); by split_and!].
  - destruct (ChalkODMProp_replaceDSL _ _) as [[|??] ?]; cbn;
      [|right; eexists (_ :: _); by split_and!].
    destruct (MixinEncryptedProp_replaceDSL _ _) as [[|??] ?]; cbn;
      [|right; eexists (_ :: _); by split_and!].
    destruct (DSLBuilder_replaceDSL _ _) as [[|??] ?]; cbn; [|right; eexists (_ :: _); by split_and!].
    destruct (AttrReader_replaceDSL _ _ _) as [[|??] ?]; cbn;
      [by left|right; eexists (_ :: _); by split_and!].
  - destruct (Sinatra_replaceDSL _ _) as [[|??] ?]; cbn; [by left|right; eexists (_ :: _); by split_and!].
  - left. by destruct (nonnull stat).
Qed.

Lemma classDef_scan_recorded (pre rhs : list Expression)
    (prevStat : Expression) (replaceNodes : gmap N (list Expression))
    (w : World) :
  recorded pre replaceNodes ->
  recorded (pre ++ rhs) (classDef_scan rhs prevStat replaceNodes w).1.2.
Proof.
  revert pre prevStat replaceNodes w.
  induction rhs as [|stat rhs IH]; intros pre prevStat replaceNodes w Hrec.
  { by rewrite app_nil_r. }
  cbn [classDef_scan]. rewrite M_bind_unfold.
  pose proof (classDef_stat_records stat prevStat replaceNodes w) as Hstat.
  destruct (classDef_stat stat prevStat replaceNodes w) as [rn1 w1].
  cbn [fst] in Hstat.
  replace (pre ++ stat :: rhs) with ((pre ++ [stat]) ++ rhs)
    by (by rewrite <-app_assoc).
  apply IH. intros k nodes Hk.
  destruct Hstat as [->|(nodes' & Hne & -> & Hkind)].
  - destruct (Hrec k nodes Hk) as (? & s & Hs & ? & ?).
    split; [done|]. exists s. split; [|done]. apply elem_of_app. by left.
  - destruct (decide (k = ast.get stat)) as [->|Hneq].
    + rewrite lookup_insert_eq in Hk. simplify_eq.
      split; [done|]. exists stat. split; [|done].
      apply elem_of_app. right. by apply list_elem_of_singleton.
    + rewrite lookup_insert_ne in Hk by done.
      destruct (Hrec k nodes Hk) as (? & s & Hs & ? & ?).
      split; [done|]. exists s. split; [|done]. apply elem_of_app. by left.
Qed.

Lemma contribution_length (replaceNodes : gmap N (list Expression))
    (rhs : list Expression) :
  (forall k nodes, replaceNodes !! k = Some nodes -> nodes <> []) ->
  length rhs <= length (flat_map (contribution replaceNodes) rhs).
Proof.
  intros Hne. induction rhs as [|stat rhs IH]; [done|].
  cbn [flat_map]. rewrite length_app. unfold contribution at 1.
  destruct (replaceNodes !! ast.get stat) as [nodes|] eqn:Hk; simpl.
  - apply Hne in Hk. destruct nodes; [done|]. simpl. lia.
  - lia.
Qed.

(** X11: what the first loop has in [replaceNodes] when it ends is, for
    every key, a list that is not empty, and the key is the address of an
    [Assign], [Send] or [MethodDef] statement of the body; so the body
    [postTransformClassDef] returns is never shorter than the body
    [Command::patchDSL] left, and each of its nodes is a statement of that
    body or a node of a recorded list. *)
Theorem replaceNodes_recorded (classDef : ClassDefPtr.t) (w : World)
    (members : ClassDefPtr.members) (gs1 : GlobalState) :
  Command_patchDSL (state w) classDef = (members, gs1) ->
  let w1 := {| state := gs1; calls := calls w ++ [Call_Command classDef] |} in
  let oldRHS := ClassDefPtr.rhs members in
  let replaceNodes := (classDef_scan oldRHS nullptr ∅ w1).1.2 in
  let newRHS :=
    ClassDefPtr.rhs (ClassDefPtr.obj (postTransformClassDef classDef w).1) in
  recorded oldRHS replaceNodes
  /\ length oldRHS <= length newRHS
  /\ Forall (fun node =>
       node ∈ oldRHS
       \/ exists k nodes, replaceNodes !! k = Some nodes /\ node ∈ nodes)
       newRHS.
Proof.
  intros Hpatch. cbv zeta.
  pose proof (postTransformClassDef_unfold classDef w members gs1 Hpatch)
    as Hpost.
  cbv zeta in Hpost. destruct Hpost as [Hpost _]. rewrite Hpost.
  cbn [fst ClassDefPtr.set_rhs ClassDefPtr.obj ClassDefPtr.rhs].
  assert (Hrec : recorded (ClassDefPtr.rhs members)
    (classDef_scan (ClassDefPtr.rhs members) nullptr ∅
       {| state := gs1; calls := calls w ++ [Call_Command classDef] |}).1.2).
  { apply (classDef_scan_recorded []). intros k nodes Hk.
    by rewrite lookup_empty in Hk. }
  split_and!.
  - done.
  - apply contribution_length. intros k nodes Hk. by apply (Hrec k nodes).
  - apply Forall_forall. intros node Hnode.
    apply list_elem_of_In, in_flat_map in Hnode as (stat & Hstat & Hin).
    apply list_elem_of_In in Hstat, Hin. unfold contribution in Hin.
    destruct (_ !! ast.get stat) as [nodes|] eqn:Hk.
    + right. eauto.
    + left. by apply list_elem_of_singleton in Hin as ->.
Qed.

(** X12: for an [Assign] statement the turn of the loop calls
    [Struct::replaceDSL] once, on the statement, and no other rule; for a
    [MethodDef] statement it calls [Sinatra::replaceDSL] once.  What the
    rule gives is recorded under the address of the statement when it is
    not empty, and otherwise [replaceNodes] stays as it is. *)
Theorem Assign_and_MethodDef_rules (stat prevStat : Expression)
    (replaceNodes : gmap N (list Expression)) (w : World) :
  (isa cls.Assign stat = true ->
   classDef_stat stat prevStat replaceNodes w
   = let '(nodes, gs1) := Struct_replaceDSL (state w) stat in
     (if empty nodes then replaceNodes
      else <[ast.get stat := nodes]> replaceNodes,
      {| state := gs1; calls := calls w ++ [Call_Struct stat] |}))
  /\ (isa cls.MethodDef stat = true ->
      classDef_stat stat prevStat replaceNodes w
      = let '(nodes, gs1) := Sinatra_replaceDSL (state w) stat in
        (if empty nodes then replaceNodes
         else <[ast.get stat := nodes]> replaceNodes,
         {| state := gs1; calls := calls w ++ [Call_Sinatra stat] |})).
Proof.
  split; intros Hkind.
  - assert (Hstat : stat <> nullptr) by (by destruct stat).
    rewrite classDef_stat_first_match by done.
    unfold rule_sequence. rewrite Hkind. cbn [first_match].
    rewrite M_bind_unfold. unfold call.
    by destruct (Struct_replaceDSL _ _) as [[|??] ?].
  - assert (Hstat : stat <> nullptr) by (by destruct stat).
    rewrite classDef_stat_first_match by done.
    destruct (isa_exclusive stat) as [HA HS].
    unfold rule_sequence.
    destruct (isa cls.Assign stat) eqn:HA'.
    { destruct (HA eq_refl); congruence. }
    destruct (isa cls.Send stat) eqn:HS'.
    { specialize (HS eq_refl). congruence. }
    rewrite Hkind. cbn [first_match].
    rewrite M_bind_unfold. unfold call.
    by destruct (Sinatra_replaceDSL _ _) as [[|??] ?].
Qed.

(** X13: when the class [Command::patchDSL] left prints, and the nodes the
    rules gave do, the class [postTransformClassDef] returns prints as
    well. *)
Theorem rebuilt_ClassDef_prints (gs : GlobalState) (classDef : ClassDefPtr.t)
    (w : World) (members : ClassDefPtr.members) (gs1 : GlobalState)
    (tabs : Z) :
  Command_patchDSL (state w) classDef = (members, gs1) ->
  let classDef1 := {| ClassDefPtr.get := ClassDefPtr.get classDef;
                      ClassDefPtr.obj := members |} in
  let w1 := {| state := gs1; calls := calls w ++ [Call_Command classDef] |} in
  let replaceNodes :=
    (classDef_scan (ClassDefPtr.rhs members) nullptr ∅ w1).1.2 in
  let classDef2 := (postTransformClassDef classDef w).1 in
  shape.printable (ClassDefPtr.upcast classDef1) = true ->
  (forall k nodes,
     replaceNodes !! k = Some nodes -> forallb shape.printable nodes = true) ->
  shape.printable (ClassDefPtr.upcast classDef2) = true
  /\ shape.okay (toString gs (ClassDefPtr.upcast classDef2) tabs)
  /\ shape.okay (showRaw gs (ClassDefPtr.upcast classDef2) tabs).
Proof.
  intros Hpatch. cbv zeta. intros Hclass Hnodes.
  pose proof (postTransformClassDef_unfold classDef w members gs1 Hpatch)
    as Hpost.
  cbv zeta in Hpost. destruct Hpost as [Hpost _]. rewrite Hpost. cbn [fst].
  match goal with
  | |- ?P /\ _ => assert (Hp : P); [|by auto using toString_okay, showRaw_okay]
  end.
  unfold ClassDefPtr.upcast in *.
  cbn [ClassDefPtr.set_rhs ClassDefPtr.obj ClassDefPtr.rhs ClassDefPtr.get
       ClassDefPtr.loc ClassDefPtr.declLoc ClassDefPtr.symbol ClassDefPtr.name
       ClassDefPtr.ancestors ClassDefPtr.kind shape.printable] in *.
  apply andb_prop in Hclass as [Hclass Hrhs]. rewrite Hclass. cbn [andb].
  apply forallb_forall. intros node Hnode.
  apply in_flat_map in Hnode as (stat & Hstat & Hin).
  unfold contribution in Hin.
  destruct (_ !! ast.get stat) as [nodes|] eqn:Hk.
  - by apply (proj1 (forallb_forall _ _) (Hnodes _ _ Hk)).
  - destruct Hin as [<-|[]]. by apply (proj1 (forallb_forall _ _) Hrhs).
Qed.

End MoreDriverFacts.

(** ** Properties of the exceptions *)

Section ExceptionFacts.
Import exception.

Lemma length_positive (s : string) :
  (0 <? String.length s)%nat = true <-> s <> "".
Proof. by destruct s. Qed.

Lemma append_empty (s t : string) : s +:+ t = "" <-> s = "" /\ t = "".
Proof.
  destruct s as [|c s].
  - change ("" +:+ t) with t. split; [done|by intros [_ ->]].
  - change (String c s +:+ t) with (String c (s +:+ t)).
    split; [done|by intros [? _]].
Qed.

Lemma StrCat_empty (args : list string) :
  StrCat args = "" <-> Forall (fun s => s = "") args.
Proof.
  induction args as [|s args IH].
  - split; [constructor|done].
  - change (StrCat (s :: args)) with (s +:+ StrCat args).
    rewrite append_empty, IH, Forall_cons. done.
Qed.

(** X14: [Exception::raise] throws a [SorbetException] whose message is
    the arguments one after the other.  It logs the message, but for a
    message that is empty, which is when every argument is: then it logs
    that there is none.  [notImplemented] so logs and throws
    "Not Implemented". *)
Theorem raise_message (args : list string) :
  what (raise args) = StrCat args
  /\ (Forall (fun s => s = "") args <->
      logged (raise args)
      = "Exception::raise() (sadly without a message)" +:+ ast.nl)
  /\ (Exists (fun s => s <> "") args <->
      logged (raise args) = "Exception::raise(): " +:+ StrCat args +:+ ast.nl)
  /\ notImplemented
     = {| logged := "Exception::raise(): Not Implemented" +:+ ast.nl;
          what := "Not Implemented" |}.
Proof.
  assert (Hlog : logged (raise args)
    = if (0 <? String.length (StrCat args))%nat
      then "Exception::raise(): " +:+ StrCat args +:+ ast.nl
      else "Exception::raise() (sadly without a message)" +:+ ast.nl) by done.
  split_and!; [done| | |done].
  - rewrite Hlog, <-StrCat_empty.
    destruct (StrCat args) eqn:Hmsg; [done|]. by split.
  - rewrite Hlog, Exists_exists.
    destruct (StrCat args) eqn:Hmsg.
    + apply StrCat_empty in Hmsg. split; [|done].
      intros (s & Hs & Hne). destruct Hne.
      by apply (proj1 (Forall_forall _ _) Hmsg).
    + split; [done|]. intros _.
      destruct (decide (Forall (fun s => s = "") args)) as [Hall|Hex].
      * apply StrCat_empty in Hall. congruence.
      * apply not_Forall_Exists in Hex; [|solve_decision].
        by apply Exists_exists in Hex.
Qed.

(** X15: the message of [Exception::enforce_handler] is never empty, so it
    is always logged: the file, a colon, the line in decimal, the words
    " enforced condition ", the text of the condition, " has failed: " and
    the arguments. *)
Theorem enforce_handler_message (check file : string) (line : Z)
    (args : list string) :
  what (enforce_handler check file line args)
  = file +:+ ":" +:+ to_string line +:+ " enforced condition " +:+ check
    +:+ " has failed: " +:+ StrCat args
  /\ logged (enforce_handler check file line args)
     = "Exception::raise(): " +:+ what (enforce_handler check file line args)
       +:+ ast.nl
  /\ what (enforce_handler check file line args) <> "".
Proof.
  assert (Hwhat : what (enforce_handler check file line args)
    = file +:+ ":" +:+ to_string line +:+ " enforced condition " +:+ check
      +:+ " has failed: " +:+ StrCat args).
  { unfold enforce_handler, raise, StrCat. cbn [what foldr].
    change ("" +:+ ?s) with s. by rewrite !append_assoc. }
  assert (Hne : what (enforce_handler check file line args) <> "").
  { rewrite Hwhat. intros Hempty.
    apply append_empty in Hempty as [_ Hempty].
    by apply append_empty in Hempty as [? _]. }
  split_and!; [done| |done].
  unfold enforce_handler, raise in *. cbn [what logged] in *.
  by rewrite (proj2 (length_positive _) Hne).
Qed.

End ExceptionFacts.

(** ** The further properties on the instance *)

Section MoreInstance.
Import ast dsl demo shape.

(** [x.foo(x) do || x end], and [x.foo(x)] with no block. *)
Lemma Send_recv_block_witness :
  let block := Block 44 (L 0) 0 [] x in
  block <> nullptr
  /\ toString gs0 (Send 8 (L 0) x "foo" [x] block) 0
     = Ok ("x.foo(x) do ||" +:+ nl +:+ "  x" +:+ nl +:+ "end")
  /\ toString gs0 (Send 8 (L 0) nullptr "foo" [x] block) 0 = Fault NullDeref
  /\ printable x = true
  /\ forallb printable [x] = true
  /\ toString gs0 (Send 8 (L 0) x "foo" [x] nullptr) 0 = Ok "x.foo(x)"
  /\ showRaw gs0 (Send 8 (L 0) x "foo" [x] nullptr) 0
     = Ok ("Send{" +:+ nl
           +:+ "  recv = Local{" +:+ nl
           +:+ "    localVariable = x" +:+ nl
           +:+ "  }" +:+ nl
           +:+ "  fun = foo" +:+ nl
           +:+ "  block = nullptr" +:+ nl
           +:+ "  args = [" +:+ nl
           +:+ "    Local{" +:+ nl
           +:+ "      localVariable = x" +:+ nl
           +:+ "    }" +:+ nl
           +:+ "  ]" +:+ nl
           +:+ "}").
Proof.
  intros block.
  destruct (Send_recv_block gs0 8 (L 0) x "foo" [x] block 0)
    as (Hnull & _ & _ & _ & Hblock & _ & Hprints).
  assert (Hnn : block <> nullptr) by discriminate.
  destruct (Hprints eq_refl eq_refl)
    as (r & a & r' & a' & Hr & Ha & Hstr & Hr' & Ha' & Hraw).
  split_and!; [exact Hnn| |exact Hnull|reflexivity|reflexivity| |].
  - rewrite (Hblock Hnn). reflexivity.
  - rewrite Hstr. f_equal.
    assert (Ok r = Ok "x") as [= ->] by (rewrite <-Hr; reflexivity).
    assert (Ok a = Ok "(x)") as [= ->] by (rewrite <-Ha; reflexivity).
    reflexivity.
  - rewrite Hraw. f_equal.
    assert (Ok r' = Ok ("Local{" +:+ nl +:+ "    localVariable = x" +:+ nl
                        +:+ "  }")) as [= ->]
      by (rewrite <-Hr'; reflexivity).
    assert (Ok a' = Ok ("    Local{" +:+ nl +:+ "      localVariable = x"
                        +:+ nl +:+ "    }" +:+ nl)) as [= ->]
      by (rewrite <-Ha'; reflexivity).
    reflexivity.
Defined.

Lemma printTabs_length_witness :
  String.length (printTabs 3) = 6 /\ printTabs (-1) = "".
Proof.
  destruct (printTabs_length 3) as (Hlen & _ & _).
  destruct (printTabs_length (-1)) as (_ & Hempty & _).
  split; [exact Hlen|]. apply Hempty. lia.
Defined.

(** [x; x, x]: the second element is a [ShadowArg]. *)
Lemma printElems_separators_witness :
  let args := [x; ShadowArg 45 (L 0) x; x] in
  Forall2 (fun a s => toString gs0 a (0 + 1) = Ok s) args ["x"; "x"; "x"]
  /\ printElems (toString gs0) args 0 = Ok "x; x, x"
  /\ printElems (toString gs0) [x; nullptr; x] 0 = Fault NullDeref.
Proof.
  intros args.
  assert (Htexts : Forall2 (fun a s => toString gs0 a (0 + 1) = Ok s) args
                     ["x"; "x"; "x"]) by (repeat constructor).
  destruct (printElems_separators (toString gs0) args 0) as [Hok _].
  destruct (printElems_separators (toString gs0) [x; nullptr; x] 0)
    as [_ Hfault].
  split_and!; [exact Htexts| |].
  - rewrite (proj1 (Hok _ Htexts)). reflexivity.
  - apply (Hfault [x] nullptr [x] NullDeref); [reflexivity| |reflexivity].
    repeat constructor. by exists "x".
Defined.

(** [x.foo(x)] with no block. *)
Lemma toString_printable_witness :
  printable (Send 8 (L 0) x "foo" [x] nullptr) = true
  /\ okay (toString gs0 (Send 8 (L 0) x "foo" [x] nullptr) 0).
Proof.
  split; [reflexivity|].
  apply (toString_printable gs0 (Send 8 (L 0) x "foo" [x] nullptr) 0).
  reflexivity.
Defined.

Lemma showRaw_printable_witness :
  printable (Return 9 (L 0) x) = true
  /\ okay (showRaw gs0 (Return 9 (L 0) x) 0)
  /\ exists s,
       showRaw gs0 (Return 9 (L 0) x) 0 = Ok (nodeName cls.Return +:+ s).
Proof.
  destruct (showRaw_printable gs0 (Return 9 (L 0) x) 0) as [Hok Hname].
  split_and!; [reflexivity|apply Hok; reflexivity|].
  destruct (Hname _ eq_refl) as (c & s & Hc & Hs).
  injection Hc as <-. exists s. rewrite <-Hs. reflexivity.
Defined.

(** [x = 1] at two places. *)
Lemma printing_ignores_addresses_witness :
  let e1 := Assign 10 (L 0) x lit in
  let e2 := Assign 60 (L 5) (Local 61 (L 5) "x") (Literal 62 (L 7) "1") in
  e1 <> e2
  /\ erase e1 = erase e2
  /\ toString gs0 e1 0 = toString gs0 e2 0
  /\ showRaw gs0 e1 0 = showRaw gs0 e2 0.
Proof.
  intros e1 e2.
  destruct (printing_ignores_addresses gs0 e1 e2 0 eq_refl) as [Hstr Hraw].
  split_and!; [discriminate|reflexivity|exact Hstr|exact Hraw].
Defined.

(** [{x => 1}] with a value too many. *)
Lemma Hash_surplus_values_witness :
  let keys := [x] in
  let values := [Literal 42 (L 0) "1"; nullptr] in
  length keys <= length values
  /\ toString gs0 (Hash 3 (L 0) keys values) 0 = Ok "{x => 1}".
Proof.
  intros keys values.
  assert (Hlen : length keys <= length values) by (simpl; lia).
  split; [exact Hlen|].
  rewrite (proj1 (Hash_surplus_values gs0 3 (L 0) keys values 0 Hlen)).
  reflexivity.
Defined.

(** [{x => 1, x => ?}] *)
Lemma Hash_missing_value_witness :
  let keys := [x; x] in
  let values := [Literal 42 (L 0) "1"] in
  length values < length keys
  /\ toString gs0 (Hash 3 (L 0) keys values) 0 = Fault OutOfRange
  /\ showRaw gs0 (Hash 3 (L 0) keys values) 0 = Fault OutOfRange.
Proof.
  intros keys values.
  assert (Hlen : length values < length keys) by (simpl; lia).
  split; [exact Hlen|].
  exact (Hash_missing_value gs0 3 (L 0) keys values 0 Hlen eq_refl eq_refl).
Defined.

(** [def m(a, b)] and a block [|*a, b:|], with argument nodes that are
    null. *)
Lemma resolved_symbol_arguments_witness :
  resolved.symbol <> @Symbols_todo resolved.core
  /\ @SymbolRef_exists resolved.core resolved.symbol = true
  /\ toString resolved.gs0 (resolved.mdef resolved.null_args) 0
     = Ok ("def m<sym>(a, b)" +:+ nl +:+ "  <emptyTree>" +:+ nl +:+ "end")
  /\ toString resolved.gs0 (resolved.block resolved.null_args) 0
     = Ok (" do |*a, b:|" +:+ nl +:+ "  <emptyTree>" +:+ nl +:+ "end")
  /\ showRaw resolved.gs0 (resolved.block resolved.null_args) 0
     = Ok ("Block {" +:+ nl +:+ "  args = [" +:+ nl +:+ "arg a;arg b;"
           +:+ "  ]" +:+ nl +:+ "  body = EmptyTree" +:+ nl +:+ "}")
  /\ toString resolved.gs0 (resolved.mdef resolved.null_args) 0
     = toString resolved.gs0 (resolved.mdef []) 0.
Proof.
  assert (Htodo : resolved.symbol <> @Symbols_todo resolved.core)
    by discriminate.
  destruct (@resolved_symbol_arguments resolved.core resolved.gs0 7 0%Z 0%Z
              resolved.symbol "m" resolved.null_args [] resolved.none 0 0)
    as (Hsame & _ & Hmdef & Hblock).
  destruct (Hblock eq_refl) as [Hstr Hraw].
  split_and!; [exact Htodo|reflexivity| | | |exact (Hsame Htodo)].
  - unfold resolved.mdef. rewrite (Hmdef Htodo). reflexivity.
  - unfold resolved.block. rewrite Hstr. reflexivity.
  - unfold resolved.block. rewrite Hraw. reflexivity.
Defined.

Lemma nodeName_injective_witness :
  nodeName cls.Local <> "" /\ nodeName cls.Local <> nodeName cls.Literal.
Proof.
  destruct (nodeName_injective x lit cls.Local cls.Literal eq_refl eq_refl)
    as [Hname Hinj].
  split; [exact Hname|]. intros Heq. specialize (Hinj Heq). discriminate.
Defined.

Lemma derives_order_witness :
  cls.derives cls.ShadowArg cls.Reference = true
  /\ cls.derives cls.Reference cls.Expression = true
  /\ cls.derives cls.ShadowArg cls.Expression = true
  /\ isa cls.Local x = true
  /\ isa cls.Send x <> true.
Proof.
  destruct (derives_order cls.ShadowArg cls.Reference cls.Expression x)
    as (_ & _ & Htrans & _ & _).
  destruct (derives_order cls.Local cls.Local cls.Local x)
    as (_ & _ & _ & _ & Hlocal).
  destruct (derives_order cls.Send cls.Send cls.Send x)
    as (_ & _ & _ & _ & Hsend).
  split_and!; [reflexivity|reflexivity|exact (Htrans eq_refl eq_refl)| |].
  - apply Hlocal; [discriminate|discriminate|discriminate|reflexivity].
  - intros Hisa.
    assert (Hc : class_of x = Some cls.Send)
      by (apply Hsend; [discriminate|discriminate|discriminate|exact Hisa]).
    discriminate.
Defined.

(** [@x = 1; prop; other]: [prop] is replaced by two methods. *)
Lemma replaceNodes_recorded_witness :
  let replaceNodes :=
    (classDef_scan body1 nullptr ∅
       {| state := gs0; calls := [Call_Command (class_ 1 body1)] |}).1.2 in
  recorded body1 replaceNodes
  /\ replaceNodes !! 20%N = Some [method 120 "getter"; method 220 "setter"]
  /\ length body1
     <= length (ClassDefPtr.rhs
                  (ClassDefPtr.obj (postTransformClassDef (class_ 1 body1) w0).1)).
Proof.
  intros replaceNodes.
  destruct (replaceNodes_recorded (class_ 1 body1) w0
              (ClassDefPtr.obj (class_ 1 body1)) gs0 (demo_patchDSL body1))
    as (Hrec & Hlen & _).
  split_and!; [exact Hrec|vm_compute; reflexivity|exact Hlen].
Defined.

(** [@x = 1]: [Struct] is asked, and gives nothing. *)
Lemma Assign_and_MethodDef_rules_witness :
  isa cls.Assign (assign 10) = true
  /\ isa cls.MethodDef (method 70 "m") = true
  /\ classDef_stat (assign 10) nullptr ∅ w0
     = (∅, {| state := gs0; calls := [Call_Struct (assign 10)] |})
  /\ classDef_stat (method 70 "m") nullptr ∅ w0
     = (∅, {| state := gs0; calls := [Call_Sinatra (method 70 "m")] |}).
Proof.
  destruct (Assign_and_MethodDef_rules (assign 10) nullptr ∅ w0) as [Hassign _].
  destruct (Assign_and_MethodDef_rules (method 70 "m") nullptr ∅ w0)
    as [_ Hmdef].
  split_and!; [reflexivity|reflexivity|exact (Hassign eq_refl)|].
  exact (Hmdef eq_refl).
Defined.

(** [@x = 1; prop; other] prints before and after. *)
Lemma rebuilt_ClassDef_prints_witness :
  printable (ClassDefPtr.upcast (class_ 1 body1)) = true
  /\ okay (toString gs0
             (ClassDefPtr.upcast (postTransformClassDef (class_ 1 body1) w0).1)
             0).
Proof.
  split; [reflexivity|].
  destruct (rebuilt_ClassDef_prints gs0 (class_ 1 body1) w0
              (ClassDefPtr.obj (class_ 1 body1)) gs0 0 (demo_patchDSL body1))
    as (_ & Hstr & _); [reflexivity| |exact Hstr].
  intros k nodes Hk.
  assert (Hrn : (classDef_scan body1 nullptr ∅
        {| state := gs0; calls := [Call_Command (class_ 1 body1)] |}).1.2
     = {[ 20%N := [method 120 "getter"; method 220 "setter"] ]})
    by (vm_compute; reflexivity).
  cbn [ClassDefPtr.rhs ClassDefPtr.obj class_ calls w0 app] in Hk.
  rewrite Hrn in Hk. apply lookup_singleton_Some in Hk as [_ <-]. reflexivity.
Defined.

Lemma raise_message_witness :
  exception.logged (exception.raise [""; ""])
  = "Exception::raise() (sadly without a message)" +:+ nl
  /\ exception.logged (exception.raise ["a"; ""; "b"])
     = "Exception::raise(): ab" +:+ nl.
Proof.
  destruct (raise_message [""; ""]) as (_ & Hnone & _ & _).
  destruct (raise_message ["a"; ""; "b"]) as (_ & _ & Hsome & _).
  split.
  - apply Hnone. repeat constructor.
  - apply (proj1 Hsome). apply Exists_cons_hd. discriminate.
Defined.

End MoreInstance.
